(** * Local assembly routines of the p-Laplacian (Q1 FEM) and ice (Q1 FVE) solvers

    A shallow embedding of the per-process callbacks of [plap] and [ice]:
    reference-element tools, residual and objective assembly over the owned
    patch of a structured grid, the SIA flux and the option set-up.

    Conventions of the embedding.
    - C [int] indices are [Z]; grids are far below the 32-bit range.
    - C [double] values are real numbers ([R]): the development is about the
      arithmetic the program denotes, and decimal constants stand for
      themselves.
    - A ghosted array [double **a], read as [a[k][j]], is a function
      [a k j]; a store replaces the function at one index.
    - A PETSc callback returns [Done] with the memory it leaves, or [Raised]
      with the error code of its [SETERRQ] and the memory at that point.
    - The calls of the options interface ([PetscOptionsBegin],
      [PetscOptionsReal], ..., [PetscOptionsEnd]) are modelled with the error
      code they return, and [CHKERRQ] leaves the function when it is not 0.
      The vector calls inside the callbacks ([DMGetLocalVector],
      [DMDAVecGetArray], ...) are taken to succeed and deliver their value. *)

From Stdlib Require Import ZArith List Bool String Reals Lra Lia.
Import ListNotations.

Local Open Scope R_scope.

(** ** Grid description, arrays and loops *)

(** The fields of PETSc's [DMDALocalInfo] that the callbacks read. *)
Record DMDALocalInfo : Type := mkInfo {
  mx : Z;  my : Z;      (* global number of nodes in each direction *)
  xs : Z;  ys : Z;      (* first owned index in each direction     *)
  xm : Z;  ym : Z       (* number of owned indices                 *)
}.

Inductive PetscResult (A : Type) : Type :=
| Done (a : A)
| Raised (code : Z) (msg : string) (a : A).

Arguments Done {A} a.
Arguments Raised {A} code msg a.

(** One call of the options interface, as the program sees it: the error code
    the call returns ([0] for success) and the value it stores through its
    pointer argument, when it stores one (none when the option is not given;
    on an error, whatever the library left there). *)
Record OptionsCall (A : Type) : Type := mkCall {
  ierr : Z;
  stored : option A
}.

Arguments mkCall {A} ierr stored.
Arguments ierr {A} o.
Arguments stored {A} o.

(** [CHKERRQ(ierr)] followed by [rest]: a code other than 0 is passed up to
    the caller, with the blank message of the macro, from the state [s]. *)
Definition CHKERRQ {S : Type} (ierr : Z) (s : S) (rest : PetscResult S)
  : PetscResult S :=
  if (ierr =? 0)%Z then rest else Raised ierr " " s.

Definition array2 : Type := Z -> Z -> R.

(** [a[k][j] = v] *)
Definition upd (a : array2) (k j : Z) (v : R) : array2 :=
  fun k' j' => if ((k' =? k) && (j' =? j))%Z then v else a k' j'.

(** Entry [i] of a C table; [d] stands for whatever lies outside it. *)
Definition idx {A : Type} (d : A) (t : list A) (i : Z) : A :=
  nth (Z.to_nat i) t d.

(** The indices of [for (i = lo; i < hi; i++)]. *)
Definition zrange (lo hi : Z) : list Z :=
  map (fun n => (lo + Z.of_nat n)%Z) (seq 0 (Z.to_nat (hi - lo))).

Definition for_each {I S : Type} (l : list I) (body : I -> S -> S) (s : S) : S :=
  fold_left (fun s i => body i s) l s.

Definition for_range {S : Type} (lo hi : Z) (body : Z -> S -> S) (s : S) : S :=
  for_each (zrange lo hi) body s.

(** A loop whose body may leave the function through [SETERRQ]. *)
Fixpoint for_each_E {I S : Type} (l : list I) (body : I -> S -> PetscResult S)
         (s : S) : PetscResult S :=
  match l with
  | [] => Done s
  | i :: l' =>
      match body i s with
      | Done s' => for_each_E l' body s'
      | Raised c msg s' => Raised c msg s'
      end
  end.

Definition for_range_E {S : Type} (lo hi : Z) (body : Z -> S -> PetscResult S)
           (s : S) : PetscResult S :=
  for_each_E (zrange lo hi) body s.

(** The index pairs of two nested loops, outer index first, in loop order. *)
Definition pairs (ks js : list Z) : list (Z * Z) :=
  flat_map (fun k => map (pair k) js) ks.

(** [sum_{i in l} f i], accumulated from the left as the C loops do. *)
Definition sum_list {I : Type} (f : I -> R) (l : list I) : R :=
  fold_left (fun acc i => acc + f i) l 0.

Definition rsum (lo hi : Z) (f : Z -> R) : R := sum_list f (zrange lo hi).

(** A node of the global boundary. *)
Definition on_boundary (info : DMDALocalInfo) (i j : Z) : bool :=
  ((i =? 0) || (i =? mx info - 1) || (j =? 0) || (j =? my info - 1))%Z.

(** The half-open ownership test of the calling process. *)
Definition owned (info : DMDALocalInfo) (i j : Z) : bool :=
  ((xs info <=? i) && (i <? xs info + xm info)
   && (ys info <=? j) && (j <? ys info + ym info))%Z.

(** What a DMDA guarantees of the patch it hands to a callback: the owned
    rectangle lies in the grid. *)
Definition valid_info (info : DMDALocalInfo) : Prop :=
  (0 <= xs info /\ 0 <= ys info
   /\ xs info + xm info <= mx info /\ ys info + ym info <= my info)%Z.

(** A 3 x 3 grid owned by a single process, for examples. *)
Definition grid3 : DMDALocalInfo := mkInfo 3 3 0 0 3 3.

(** ** The p-Laplacian program *)

Module Plap.

(** What the program takes from outside its text: [pow] of the C library,
    the boundary function [BoundaryG] (called but not defined in the file),
    the table filler [NAN], and the sum over all processes delivered by
    [MPI_Allreduce] for a local value. *)
Class Env : Type := {
  PetscPowScalar : R -> R -> R;
  BoundaryG : R -> R -> R -> R;
  NAN : R;
  MPI_Allreduce_SUM : R -> R
}.

(** [PLapCtx]; [alpha] is read as [user->alpha] throughout the callbacks. *)
Record PLapCtx : Type := mkCtx {
  p : R;
  eps : R;
  quaddegree : Z;
  alpha : R
}.

(** What the options interface answers to the five calls of [ConfigureCtx],
    prefix [plap_]: the codes of [PetscOptionsBegin] and [PetscOptionsEnd]
    and the three queries. A malformed value ([-plap_eps abc]) is a query
    that returns an error code. *)
Record Options : Type := mkOptions {
  ierr_Begin : Z;
  opt_p : OptionsCall R;
  opt_eps : OptionsCall R;
  opt_quaddegree : OptionsCall Z;
  ierr_End : Z
}.

(** The variable handed to [PetscOptionsReal] / [PetscOptionsInt] after the
    call: the value stored by the call, the current value otherwise. *)
Definition PetscOptionsGet {A : Type} (o : OptionsCall A) (current : A) : A :=
  match stored o with Some v => v | None => current end.

Definition ConfigureCtx (db : Options) (user : PLapCtx) : PetscResult PLapCtx :=
  let user := mkCtx 4.0 0.0 2 (alpha user) in
  CHKERRQ (ierr_Begin db) user (
  let user := mkCtx (PetscOptionsGet (opt_p db) (p user)) (eps user)
                    (quaddegree user) (alpha user) in
  CHKERRQ (ierr (opt_p db)) user (
  if Rlt_dec (p user) 1.0 then Raised 1 "p >= 1 required" user else
  let user := mkCtx (p user) (PetscOptionsGet (opt_eps db) (eps user))
                    (quaddegree user) (alpha user) in
  CHKERRQ (ierr (opt_eps db)) user (
  let user := mkCtx (p user) (eps user)
                    (PetscOptionsGet (opt_quaddegree db) (quaddegree user))
                    (alpha user) in
  CHKERRQ (ierr (opt_quaddegree db)) user (
  if ((quaddegree user <? 1) || (quaddegree user >? 3))%Z
  then Raised 2 "quadrature degree n=1,2,3 only" user
  else
  CHKERRQ (ierr_End db) user (
  Done user))))).

(** The error codes of the five calls, in call order. *)
Definition ierrs (db : Options) : list Z :=
  [ierr_Begin db; ierr (opt_p db); ierr (opt_eps db); ierr (opt_quaddegree db);
   ierr_End db].

(** The options database in which every call succeeds, with the given values
    of [-plap_p], [-plap_eps] and [-plap_quaddegree]. *)
Definition options_ok (op oe : option R) (oq : option Z) : Options :=
  mkOptions 0 (mkCall 0 op) (mkCall 0 oe) (mkCall 0 oq) 0.

(** [-plap_eps] with a value that is no number: the query returns PETSc's
    code 62 (wrong argument) and stores nothing; no other option is given. *)
Definition options_malformed_eps : Options :=
  mkOptions 0 (mkCall 0 None) (mkCall 62 None) (mkCall 0 None) 0.

Section WithEnv.
Context {env : Env}.

(** right hand side of PDE *)
Definition FRHS (x y p alpha : R) : R :=
  let xs := x + alpha in
  let ys := y + alpha in
  let XX := xs * xs in
  let YY := ys * ys in
  let D2 := XX + YY in
  let gamma1 := 1.0 / xs + xs / D2 in
  let gamma2 := 1.0 / ys + ys / D2 in
  let C := PetscPowScalar (XX * YY * D2) ((p - 2.0) / 2.0) in
  (- (p - 2.0)) * C * (gamma1 * (x + alpha) * YY + gamma2 * XX * (y + alpha))
  - C * D2.

Definition UExact (x y alpha : R) : R :=
  0.5 * (x + alpha) * (x + alpha) * (y + alpha) * (y + alpha).

Definition xiL : list R := [1.0; -1.0; -1.0; 1.0].
Definition etaL : list R := [1.0; 1.0; -1.0; -1.0].

Definition chi (L : Z) (xi eta : R) : R :=
  0.25 * (1.0 + idx 0 xiL L * xi) * (1.0 + idx 0 etaL L * eta).

Record gradRef : Type := mkGradRef { g_xi : R; g_eta : R }.

Definition dchi (L : Z) (xi eta : R) : gradRef :=
  mkGradRef (0.25 * idx 0 xiL L * (1.0 + idx 0 etaL L * eta))
            (0.25 * idx 0 etaL L * (1.0 + idx 0 xiL L * xi)).

(** evaluate v(xi,eta) on reference element using local node numbering *)
Definition eval (v : list R) (xi eta : R) : R :=
  for_range 0 4 (fun L sum => sum + idx 0 v L * chi L xi eta) 0.0.

(** evaluate partial derivs of v(xi,eta) on reference element *)
Definition deval (v : list R) (xi eta : R) : gradRef :=
  for_range 0 4
    (fun L sum =>
       let tmp := dchi L xi eta in
       mkGradRef (g_xi sum + idx 0 v L * g_xi tmp)
                 (g_eta sum + idx 0 v L * g_eta tmp))
    (mkGradRef 0.0 0.0).

Definition zq : list (list R) :=
  [ [0.0; NAN; NAN];
    [-0.577350269189626; 0.577350269189626; NAN];
    [-0.774596669241483; 0.0; 0.774596669241483] ].

Definition wq : list (list R) :=
  [ [2.0; NAN; NAN];
    [1.0; 1.0; NAN];
    [0.555555555555556; 0.888888888888889; 0.555555555555556] ].

(** [t[a][b]] in a two-dimensional table *)
Definition idx2 (t : list (list R)) (a b : Z) : R := idx NAN (idx [] t a) b.

Definition GradInnerProd (info : DMDALocalInfo) (du dv : gradRef) : R :=
  let hx := 1.0 / IZR (mx info - 1) in
  let hy := 1.0 / IZR (my info - 1) in
  let cx := 4.0 / (hx * hx) in
  let cy := 4.0 / (hy * hy) in
  cx * g_xi du * g_xi dv + cy * g_eta du * g_eta dv.

Definition GradPow (info : DMDALocalInfo) (du : gradRef) (P eps : R) : R :=
  PetscPowScalar (GradInnerProd info du du + eps * eps) (P / 2.0).

(** gets either u(x,y) or g(x,y) for the nodes of the given element (i,j),
    where (i,j) denotes the upper-right node of the element *)
Definition GetUorGElement (info : DMDALocalInfo) (i j : Z) (au : array2)
           (alpha : R) : list R :=
  let hx := 1.0 / IZR (mx info - 1) in
  let hy := 1.0 / IZR (my info - 1) in
  let x := IZR i * hx in
  let y := IZR j * hy in
  [ if ((i =? mx info - 1) || (j =? my info - 1))%Z
    then BoundaryG x y alpha else au j i;
    if ((i - 1 =? 0) || (j =? my info - 1))%Z
    then BoundaryG (x - hx) y alpha else au j (i - 1)%Z;
    if ((i - 1 =? 0) || (j - 1 =? 0))%Z
    then BoundaryG (x - hx) (y - hy) alpha else au (j - 1)%Z (i - 1)%Z;
    if ((i =? mx info - 1) || (j - 1 =? 0))%Z
    then BoundaryG x (y - hy) alpha else au (j - 1)%Z i ].

Definition ObjBoundary (info : DMDALocalInfo) (x y u alpha : R) : R :=
  let g := BoundaryG x y alpha in
  0.5 * (u - g) * (u - g).

Definition ObjIntegrand (info : DMDALocalInfo) (f u : list R)
           (xi eta p eps : R) : R :=
  let du := deval u xi eta in
  GradPow info du p eps / p - eval f xi eta * eval u xi eta.

Definition FunIntegrand (info : DMDALocalInfo) (L : Z) (f u : list R)
           (xi eta P eps : R) : R :=
  let du := deval u xi eta in
  let dchiL := dchi L xi eta in
  GradPow info du (P - 2.0) eps * GradInnerProd info du dchiL
  - eval f xi eta * chi L xi eta.

(** The source term at the four nodes of element (i,j). *)
Definition elementF (info : DMDALocalInfo) (user : PLapCtx) (i j : Z) : list R :=
  let hx := 1.0 / IZR (mx info - 1) in
  let hy := 1.0 / IZR (my info - 1) in
  let x := IZR i * hx in
  let y := IZR j * hy in
  [ FRHS x y (p user) (alpha user);
    FRHS (x - hx) y (p user) (alpha user);
    FRHS (x - hx) (y - hy) (p user) (alpha user);
    FRHS x (y - hy) (p user) (alpha user) ].

(** The memory the two callbacks work on: the ghosted iterate [au], the
    residual array [FF] and the cell [*obj]. *)
Record Mem : Type := mkMem { au : array2; FF : array2; obj : R }.

Definition store_FF (k j : Z) (v : R) (m : Mem) : Mem :=
  mkMem (au m) (upd (FF m) k j v) (obj m).

Definition store_obj (v : R) (m : Mem) : Mem := mkMem (au m) (FF m) v.

Definition FormObjectiveLocal (info : DMDALocalInfo) (user : PLapCtx) (m : Mem)
  : PetscResult Mem :=
  let hx := 1.0 / IZR (mx info - 1) in
  let hy := 1.0 / IZR (my info - 1) in
  let n := quaddegree user in
  let lobj := 0.0 in
  (* loop over all elements: get unique integral contribution from each element *)
  let lobj :=
    for_range (ys info + 1) (ys info + ym info) (fun j lobj =>
      for_range (xs info + 1) (xs info + xm info) (fun i lobj =>
        let f := elementF info user i j in
        let u := GetUorGElement info i j (au m) (alpha user) in
        for_range 0 n (fun r lobj =>
          for_range 0 n (fun s lobj =>
            lobj + idx2 wq (n - 1) r * idx2 wq (n - 1) s
                   * ObjIntegrand info f u (idx2 zq (n - 1) r) (idx2 zq (n - 1) s)
                                  (p user) (eps user))
          lobj) lobj) lobj) lobj in
  let lobj := lobj * (0.25 * hx * hy) in
  (* add unique contribution from each owned boundary node *)
  let lobj :=
    if (ys info =? 0)%Z then
      for_range (xs info) (xs info + xm info) (fun i lobj =>
        lobj + ObjBoundary info (IZR i * hx) 0.0 (au m 0%Z i) (alpha user)) lobj
    else lobj in
  let lobj :=
    if (ys info + ym info =? my info)%Z then
      for_range (xs info) (xs info + xm info) (fun i lobj =>
        lobj + ObjBoundary info (IZR i * hx) 1.0 (au m (my info - 1)%Z i)
                           (alpha user)) lobj
    else lobj in
  (* don't look at bottom and top anymore *)
  let jS := if (ys info =? 0)%Z then 1%Z else 0%Z in
  let jE := if (ys info + ym info =? my info)%Z then (my info - 1)%Z else my info in
  let lobj :=
    if (xs info =? 0)%Z then
      for_range jS jE (fun j lobj =>
        lobj + ObjBoundary info 0.0 (IZR j * hy) (au m j 0%Z) (alpha user)) lobj
    else lobj in
  let lobj :=
    if (xs info + xm info =? mx info)%Z then
      for_range jS jE (fun j lobj =>
        lobj + ObjBoundary info 1.0 (IZR j * hy) (au m j (mx info - 1)%Z)
                           (alpha user)) lobj
    else lobj in
  Done (store_obj (MPI_Allreduce_SUM lobj) m).

(** Local corner numbering of an element, relative to its upper-right node. *)
Definition li : list Z := [0; -1; -1; 0]%Z.
Definition lj : list Z := [0; 0; -1; -1]%Z.

(** inclusive ranges of indices for elements which can contribute to the
    nodal residuals in my processor's patch *)
Definition iS (info : DMDALocalInfo) : Z :=
  if (xs info <? 1)%Z then 1%Z else xs info.
Definition jS (info : DMDALocalInfo) : Z :=
  if (ys info <? 1)%Z then 1%Z else ys info.
Definition iE (info : DMDALocalInfo) : Z :=
  if (xs info + xm info >? mx info - 1)%Z then (mx info - 1)%Z
  else (xs info + xm info)%Z.
Definition jE (info : DMDALocalInfo) : Z :=
  if (ys info + ym info >? my info - 1)%Z then (my info - 1)%Z
  else (ys info + ym info)%Z.

(** The test guarding the accumulation into node (PP,QQ): an unknown
    (interior node) that we own. *)
Definition accumulates (info : DMDALocalInfo) (PP QQ : Z) : bool :=
  ((PP >? 0) && (PP <? mx info - 1) && (QQ >? 0) && (QQ <? my info - 1)
   && (PP >=? xs info) && (PP <? xs info + xm info)
   && (QQ >=? ys info) && (QQ <? ys info + ym info))%Z.

(** One term of the quadrature of corner [l] of element (i,j). *)
Definition quadterm (info : DMDALocalInfo) (user : PLapCtx) (f u : list R)
           (l r s : Z) : R :=
  let hx := 1.0 / IZR (mx info - 1) in
  let hy := 1.0 / IZR (my info - 1) in
  let C := 0.25 * hx * hy in
  let n := quaddegree user in
  C * idx2 wq (n - 1) r * idx2 wq (n - 1) s
  * FunIntegrand info l f u (idx2 zq (n - 1) r) (idx2 zq (n - 1) s)
                 (p user) (eps user).

(** one node of the first loop: the boundary residual, or zero *)
Definition init_node (info : DMDALocalInfo) (user : PLapCtx) (j i : Z) (m : Mem)
  : Mem :=
  let hx := 1.0 / IZR (mx info - 1) in
  let hy := 1.0 / IZR (my info - 1) in
  let y := IZR j * hy in
  if ((i =? 0) || (i =? mx info - 1) || (j =? 0) || (j =? my info - 1))%Z then
    let x := IZR i * hx in
    store_FF j i (au m j i - BoundaryG x y (alpha user)) m
  else store_FF j i 0.0 m.

(** loop over corners of element i,j *)
Definition corner (info : DMDALocalInfo) (user : PLapCtx) (f u : list R)
           (i j l : Z) (m : Mem) : Mem :=
  let n := quaddegree user in
  let PP := (i + idx 0 li l)%Z in
  let QQ := (j + idx 0 lj l)%Z in
  if accumulates info PP QQ then
    (* loop over quadrature points *)
    for_range 0 n (fun r m =>
      for_range 0 n (fun s m =>
        store_FF QQ PP (FF m QQ PP + quadterm info user f u l r s) m) m) m
  else m.

Definition element (info : DMDALocalInfo) (user : PLapCtx) (j i : Z) (m : Mem)
  : Mem :=
  let f := elementF info user i j in
  let u := GetUorGElement info i j (au m) (alpha user) in
  for_range 0 4 (corner info user f u i j) m.

(** set boundary residuals and clear other residuals *)
Definition init_loop (info : DMDALocalInfo) (user : PLapCtx) (m : Mem) : Mem :=
  for_range (ys info) (ys info + ym info) (fun j m =>
    for_range (xs info) (xs info + xm info) (fun i m =>
      init_node info user j i m) m) m.

(** loop over all elements, adding element contribution *)
Definition element_loop (info : DMDALocalInfo) (user : PLapCtx) (m : Mem) : Mem :=
  for_range (jS info) (jE info + 1) (fun j m =>     (* note upper limit "=" *)
    for_range (iS info) (iE info + 1) (fun i m =>   (* note upper limit "=" *)
      element info user j i m) m) m.

Definition FormFunctionLocal (info : DMDALocalInfo) (user : PLapCtx) (m : Mem)
  : PetscResult Mem :=
  let m := init_loop info user m in
  let m := element_loop info user m in
  Done m.

(** *** Reference quantities used to state the assembly properties *)

(** The quadrature of corner [l] of element (i,j) for the iterate [a]:
    [C * sum_r sum_s w_r w_s FunIntegrand(l, ...)]. *)
Definition corner_contrib (info : DMDALocalInfo) (user : PLapCtx) (a : array2)
           (e : Z * Z * Z) : R :=
  let '(i, j, l) := e in
  let f := elementF info user i j in
  let u := GetUorGElement info i j a (alpha user) in
  let n := quaddegree user in
  sum_list (fun rs => quadterm info user f u l (fst rs) (snd rs))
           (pairs (zrange 0 n) (zrange 0 n)).

(** The corners [l] of element (i,j) whose accumulation goes to node (P,Q). *)
Definition hits_of_element (info : DMDALocalInfo) (P Q : Z) (ji : Z * Z)
  : list (Z * Z * Z) :=
  let '(j, i) := ji in
  flat_map (fun l =>
              let PP := (i + idx 0 li l)%Z in
              let QQ := (j + idx 0 lj l)%Z in
              if accumulates info PP QQ && (PP =? P)%Z && (QQ =? Q)%Z
              then [(i, j, l)] else [])
           (zrange 0 4).

(** Every accumulation into [FF[Q][P]] made by the element loop on the patch
    [info], as (element i, element j, corner), in the order of the loop. *)
Definition hits (info : DMDALocalInfo) (P Q : Z) : list (Z * Z * Z) :=
  flat_map (hits_of_element info P Q)
           (pairs (zrange (jS info) (jE info + 1)) (zrange (iS info) (iE info + 1))).

(** The elements visited by the two assembly loops, as (i,j). *)
Definition elements_fun (info : DMDALocalInfo) : list (Z * Z) :=
  map (fun ji => (snd ji, fst ji))
      (pairs (zrange (jS info) (jE info + 1)) (zrange (iS info) (iE info + 1))).

Definition elements_obj (info : DMDALocalInfo) : list (Z * Z) :=
  map (fun ji => (snd ji, fst ji))
      (pairs (zrange (ys info + 1) (ys info + ym info))
             (zrange (xs info + 1) (xs info + xm info))).

(** *** The initial iterate *)

(** [InitialIterateUExact]: fills the owned nodes of [u] with the linear
    interpolant in x of the boundary values and those of [uexact] with the
    exact solution; the state is the pair of arrays (au, auex). *)
Definition InitialIterateUExact (info : DMDALocalInfo) (user : PLapCtx)
           (uu : array2 * array2) : array2 * array2 :=
  let hx := 1.0 / IZR (mx info - 1) in
  let hy := 1.0 / IZR (my info - 1) in
  for_range (ys info) (ys info + ym info) (fun j uu =>
    let y := hy * IZR j in
    for_range (xs info) (xs info + xm info) (fun i uu =>
      let x := hx * IZR i in
      let au := upd (fst uu) j i
                    ((1.0 - x) * BoundaryG 0.0 y (alpha user)
                     + x * BoundaryG 1.0 y (alpha user)) in
      let auex := upd (snd uu) j i (BoundaryG x y (alpha user)) in (* here: exact soln *)
      (au, auex)) uu) uu.

(** *** Reference quantities used to state the objective *)

(** The element part of the objective before scaling: the sum over the
    elements of the objective loop of the quadrature of ObjIntegrand. *)
Definition obj_element_part (info : DMDALocalInfo) (user : PLapCtx) (a : array2)
  : R :=
  let n := quaddegree user in
  for_range (ys info + 1) (ys info + ym info) (fun j lobj =>
    for_range (xs info + 1) (xs info + xm info) (fun i lobj =>
      let f := elementF info user i j in
      let u := GetUorGElement info i j a (alpha user) in
      for_range 0 n (fun r lobj =>
        for_range 0 n (fun s lobj =>
          lobj + idx2 wq (n - 1) r * idx2 wq (n - 1) s
                 * ObjIntegrand info f u (idx2 zq (n - 1) r) (idx2 zq (n - 1) s)
                                (p user) (eps user))
        lobj) lobj) lobj) 0.0.

(** The boundary nodes (i,j) whose mismatch the objective adds, in the order
    of its four loops: bottom, top, left, right. *)
Definition obj_boundary_visits (info : DMDALocalInfo) : list (Z * Z) :=
  let jS := if (ys info =? 0)%Z then 1%Z else 0%Z in
  let jE := if (ys info + ym info =? my info)%Z then (my info - 1)%Z else my info in
  (if (ys info =? 0)%Z
   then map (fun i => (i, 0%Z)) (zrange (xs info) (xs info + xm info)) else [])
  ++ (if (ys info + ym info =? my info)%Z
      then map (fun i => (i, (my info - 1)%Z)) (zrange (xs info) (xs info + xm info))
      else [])
  ++ (if (xs info =? 0)%Z then map (fun j => (0%Z, j)) (zrange jS jE) else [])
  ++ (if (xs info + xm info =? mx info)%Z
      then map (fun j => ((mx info - 1)%Z, j)) (zrange jS jE) else []).

(** A patch that is the whole grid, with at least two nodes each way. *)
Definition whole_grid (info : DMDALocalInfo) : Prop :=
  (xs info = 0 /\ ys info = 0 /\ xm info = mx info /\ ym info = my info
   /\ 2 <= mx info /\ 2 <= my info)%Z.

End WithEnv.

(** A concrete environment, to run the definitions on examples: a quadratic
    boundary function and one process. *)
Definition sample_env : Env :=
  {| PetscPowScalar := Rpower;
     BoundaryG := fun x y al => 0.5 * (x + al) * (x + al) * (y + al) * (y + al);
     NAN := 0;
     MPI_Allreduce_SUM := fun v => v |}.

(** The default parameters, and a memory holding a constant iterate. *)
Definition sample_user : PLapCtx := mkCtx 4.0 0.0 2 0.0.
Definition sample_mem : Mem := mkMem (fun _ _ => 7) (fun _ _ => 0) 0.

End Plap.

(** ** The ice program *)

Definition Rltb (x y : R) : bool := if Rlt_dec x y then true else false.
Definition Rleb (x y : R) : bool := if Rle_dec x y then true else false.

Module Ice.

(** What the program takes from outside its text: the climatic-mass-balance
    model of [icecmb.h] behind a [CMBModel*] (none for [NULL]) and [pow] of
    the C library. *)
Class Env : Type := {
  CMBModel : Type;
  SetFromOptions_CMBModel : R -> CMBModel;
  M_CMBModel : option CMBModel -> R -> R;
  PetscPowReal : R -> R -> R
}.

Section WithEnv.
Context {env : Env}.

Record AppCtx : Type := mkCtx {
  secpera : R;      (* number of seconds in a year *)
  L : R;            (* spatial domain is (0,L) x (0,L) *)
  g : R;            (* acceleration of gravity *)
  rho_ice : R;      (* ice density *)
  n_ice : R;        (* Glen exponent for SIA flux term *)
  A_ice : R;        (* ice softness *)
  Gamma : R;        (* coefficient for SIA flux term *)
  D0 : R;           (* representative value of diffusivity *)
  eps : R;          (* regularization parameter for diffusivity D *)
  delta : R;        (* dimensionless regularization for slope in SIA formulas *)
  lambda : R;       (* amount of upwinding *)
  verif : bool;     (* use dome formulas if true *)
  check_admissible : bool; (* check admissibility at start of FormFunctionLocal *)
  cmb : option CMBModel
}.

(** What the options interface answers to the calls at the start of [main],
    prefix [ice_]: the codes of [PetscOptionsBegin] and [PetscOptionsEnd] and
    the twelve queries, in the order of the calls. *)
Record Options : Type := mkOptions {
  ierr_Begin : Z;
  opt_A : OptionsCall R;
  opt_check_admissible : OptionsCall bool;
  opt_D0 : OptionsCall R;
  opt_delta : OptionsCall R;
  opt_dump : OptionsCall bool;
  opt_eps : OptionsCall R;
  opt_exact_init : OptionsCall bool;
  opt_L : OptionsCall R;
  opt_lambda : OptionsCall R;
  opt_n : OptionsCall R;
  opt_rho : OptionsCall R;
  opt_verif : OptionsCall bool;
  ierr_End : Z
}.

Definition PetscOptionsGet {A : Type} (o : OptionsCall A) (current : A) : A :=
  match stored o with Some v => v | None => current end.

(** The error codes of the calls made before the test on [n], and of those
    made after it, in call order. *)
Definition ierrs_to_n (db : Options) : list Z :=
  [ierr_Begin db; ierr (opt_A db); ierr (opt_check_admissible db);
   ierr (opt_D0 db); ierr (opt_delta db); ierr (opt_dump db); ierr (opt_eps db);
   ierr (opt_exact_init db); ierr (opt_L db); ierr (opt_lambda db);
   ierr (opt_n db)].
Definition ierrs_after_n (db : Options) : list Z :=
  [ierr (opt_rho db); ierr (opt_verif db); ierr_End db].

(** What the option set-up at the start of [main] leaves behind. *)
Record Setup : Type := mkSetup { user : AppCtx; exact_init : bool; dump : bool }.

(** The start of [main]: defaults, options, the test on [n] and the derived
    constant [Gamma]; [Gamma0] is what the cell of [user.Gamma] holds before
    it is assigned. [st] collects the variables of [main] at a point of
    exit. *)
Definition main_setup (db : Options) (Gamma0 : R) : PetscResult Setup :=
  let exact_init := false in
  let dump := false in
  let secpera := 31556926.0 in
  let L := 1800.0e3 in
  let g := 9.81 in
  let rho_ice := 910.0 in
  let n_ice := 3.0 in
  let A_ice := 3.1689e-24 in
  let D0 := 1.0 in
  let eps := 0.001 in
  let delta := 1.0e-4 in
  let lambda := 0.25 in
  let verif := false in
  let check_admissible := false in
  let cmb := None in
  let st := fun L rho_ice n_ice A_ice D0 eps delta lambda verif check_admissible
                exact_init dump =>
    mkSetup (mkCtx secpera L g rho_ice n_ice A_ice Gamma0 D0 eps delta
                   lambda verif check_admissible cmb)
            exact_init dump in
  CHKERRQ (ierr_Begin db)
    (st L rho_ice n_ice A_ice D0 eps delta lambda verif check_admissible
        exact_init dump) (
  let A_ice := PetscOptionsGet (opt_A db) A_ice in
  CHKERRQ (ierr (opt_A db))
    (st L rho_ice n_ice A_ice D0 eps delta lambda verif check_admissible
        exact_init dump) (
  let check_admissible := PetscOptionsGet (opt_check_admissible db) check_admissible in
  CHKERRQ (ierr (opt_check_admissible db))
    (st L rho_ice n_ice A_ice D0 eps delta lambda verif check_admissible
        exact_init dump) (
  let D0 := PetscOptionsGet (opt_D0 db) D0 in
  CHKERRQ (ierr (opt_D0 db))
    (st L rho_ice n_ice A_ice D0 eps delta lambda verif check_admissible
        exact_init dump) (
  let delta := PetscOptionsGet (opt_delta db) delta in
  CHKERRQ (ierr (opt_delta db))
    (st L rho_ice n_ice A_ice D0 eps delta lambda verif check_admissible
        exact_init dump) (
  let dump := PetscOptionsGet (opt_dump db) dump in
  CHKERRQ (ierr (opt_dump db))
    (st L rho_ice n_ice A_ice D0 eps delta lambda verif check_admissible
        exact_init dump) (
  let eps := PetscOptionsGet (opt_eps db) eps in
  CHKERRQ (ierr (opt_eps db))
    (st L rho_ice n_ice A_ice D0 eps delta lambda verif check_admissible
        exact_init dump) (
  let exact_init := PetscOptionsGet (opt_exact_init db) exact_init in
  CHKERRQ (ierr (opt_exact_init db))
    (st L rho_ice n_ice A_ice D0 eps delta lambda verif check_admissible
        exact_init dump) (
  let L := PetscOptionsGet (opt_L db) L in
  CHKERRQ (ierr (opt_L db))
    (st L rho_ice n_ice A_ice D0 eps delta lambda verif check_admissible
        exact_init dump) (
  let lambda := PetscOptionsGet (opt_lambda db) lambda in
  CHKERRQ (ierr (opt_lambda db))
    (st L rho_ice n_ice A_ice D0 eps delta lambda verif check_admissible
        exact_init dump) (
  let n_ice := PetscOptionsGet (opt_n db) n_ice in
  CHKERRQ (ierr (opt_n db))
    (st L rho_ice n_ice A_ice D0 eps delta lambda verif check_admissible
        exact_init dump) (
  if Rleb n_ice 1.0 then
    Raised 1 "ERROR: n = %f not allowed ... n > 1.0 is required"
           (st L rho_ice n_ice A_ice D0 eps delta lambda verif check_admissible
               exact_init dump)
  else
  let rho_ice := PetscOptionsGet (opt_rho db) rho_ice in
  CHKERRQ (ierr (opt_rho db))
    (st L rho_ice n_ice A_ice D0 eps delta lambda verif check_admissible
        exact_init dump) (
  let verif := PetscOptionsGet (opt_verif db) verif in
  CHKERRQ (ierr (opt_verif db))
    (st L rho_ice n_ice A_ice D0 eps delta lambda verif check_admissible
        exact_init dump) (
  CHKERRQ (ierr_End db)
    (st L rho_ice n_ice A_ice D0 eps delta lambda verif check_admissible
        exact_init dump) (
  (* derived constant computed after other ice properties are set *)
  let Gamma := 2.0 * PetscPowReal (rho_ice * g) n_ice * A_ice / (n_ice + 2.0) in
  let cmb := Some (SetFromOptions_CMBModel secpera) in
  Done (mkSetup (mkCtx secpera L g rho_ice n_ice A_ice Gamma D0 eps delta
                       lambda verif check_admissible cmb)
                exact_init dump))))))))))))))).

(** compute radius from center of (0,L) x (0,L) *)
Definition radialcoord (x y : R) (user : AppCtx) : R :=
  let xc := x - L user / 2.0 in
  let yc := y - L user / 2.0 in
  sqrt (xc * xc + yc * yc).

Definition DomeCMB (x y : R) (user : AppCtx) : R :=
  let domeR := 750.0e3 in
  let domeH0 := 3600.0 in
  let n := n_ice user in
  let pp := 1.0 / n in
  let CC := Gamma user * PetscPowReal domeH0 (2.0 * n + 2.0)
            / PetscPowReal (2.0 * domeR * (1.0 - 1.0 / n)) n in
  let r := radialcoord x y user in
  (* avoid singularities at center and margin *)
  let r := if Rltb r 0.01 then 0.01 else r in
  let r := if Rltb (domeR - 0.01) r then domeR - 0.01 else r in
  let s := r / domeR in
  let tmp1 := PetscPowReal s pp + PetscPowReal (1.0 - s) pp - 1.0 in
  let tmp2 := 2.0 * PetscPowReal s pp
              + PetscPowReal (1.0 - s) (pp - 1.0) * (1.0 - 2.0 * s) - 1.0 in
  (CC / r) * PetscPowReal tmp1 (n - 1.0) * tmp2.

(** vaguely-random frequencies and coeffs of the synthetic bed *)
Definition nc : Z := 4.
Definition jc : list Z := [1; 3; 6; 8]%Z.
Definition kc : list Z := [1; 3; 4; 7]%Z.
Definition scalec : R := 750.0.
Definition C : list (list R) :=
  [ [ 2.00000000;  0.33000000; -0.55020034;  0.54495520];
    [ 0.50000000;  0.45014486;  0.60551833; -0.52250644];
    [ 0.93812068;  0.32638429; -0.24654812;  0.33887052];
    [ 0.17592361; -0.35496741;  0.22694547; -0.05280704] ].

(** [scalec * b(x,y)] at node (j,k): b(x,y) is sum of a few sines *)
Definition bed (info : DMDALocalInfo) (user : AppCtx) (k j : Z) : R :=
  let dx := L user / IZR (mx info - 1) in
  let dy := L user / IZR (my info - 1) in
  let Zc := PI / L user in
  let y := IZR k * dy in
  let x := IZR j * dx in
  let b :=
    for_range 0 nc (fun r b =>
      for_range 0 nc (fun s b =>
        b + idx 0 (idx [] C r) s * sin (IZR (idx 0%Z jc r) * Zc * x)
                                 * sin (IZR (idx 0%Z kc s) * Zc * y)) b) 0.0 in
  scalec * b.

Definition FormBedLocal (info : DMDALocalInfo) (stencilwidth : Z) (ab : array2)
           (user : AppCtx) : array2 :=
  (* go through owned portion of grid and compute  b(x,y) *)
  for_range (ys info - stencilwidth) (ys info + ym info + stencilwidth) (fun k ab =>
    for_range (xs info - stencilwidth) (xs info + xm info + stencilwidth) (fun j ab =>
      if ((j <? 0) || (j >=? mx info - 1) || (k <? 0) || (k >=? my info - 1))%Z
      then ab
      else upd ab k j (bed info user k j)) ab) ab.

(** value of gradient at a point *)
Record Grad : Type := mkGrad { Grad_x : R; Grad_y : R }.

(** sigma(z) = Gamma z^{n-1}, the slope-dependent part of the SIA flux *)
Definition sigma (gH gb : Grad) (user : AppCtx) : R :=
  let sx := Grad_x gH + Grad_x gb in
  let sy := Grad_y gH + Grad_y gb in
  let slopesqr := sx * sx + sy * sy + delta user * delta user in
  Gamma user * PetscPowReal slopesqr ((n_ice user - 1.0) / 2).

(** Pseudo-velocity from bed slope:  W = - sigma * grad b. *)
Definition W (sigma : R) (gb : Grad) : Grad :=
  mkGrad (- sigma * Grad_x gb) (- sigma * Grad_y gb).

(** DCS = diffusivity from the continuation scheme:
    D(eps) = (1-eps) sigma H^{n+2} + eps D_0 *)
Definition DCS (sigma H : R) (user : AppCtx) : R :=
  (1.0 - eps user) * sigma * PetscPowReal (Rabs H) (n_ice user + 2.0)
  + eps user * D0 user.

(** Flux component from the non-sliding SIA on a general bed.  [D] and [q]
    say whether the two out-pointers are non-null; the result is what is
    stored through them, or nothing if a null [q] is written through. *)
Definition SIAflux (gH gb : Grad) (H Hup : R) (xdir : bool) (D q : bool)
           (user : AppCtx) : option (option R * R) :=
  let mysig := sigma gH gb user in
  let myD := DCS mysig H user in
  let myW := W mysig gb in
  let Dout := if D then Some myD else None in
  if xdir && q then
    Some (Dout, - myD * Grad_x gH
                + Grad_x myW * PetscPowReal (Rabs Hup) (n_ice user + 2.0))
  else if q then
    Some (Dout, - myD * Grad_y gH
                + Grad_y myW * PetscPowReal (Rabs Hup) (n_ice user + 2.0))
  else None.

(** gradients of weights for Q^1 interpolant *)
Definition gx : list R := [-1.0; 1.0; 1.0; -1.0].
Definition gy : list R := [-1.0; -1.0; 1.0; 1.0].

Definition fieldatpt (xi eta : R) (f : list R) : R :=
  let x := [1.0 - xi; xi; xi; 1.0 - xi] in
  let y := [1.0 - eta; 1.0 - eta; eta; eta] in
  idx 0 x 0 * idx 0 y 0 * idx 0 f 0 + idx 0 x 1 * idx 0 y 1 * idx 0 f 1
  + idx 0 x 2 * idx 0 y 2 * idx 0 f 2 + idx 0 x 3 * idx 0 y 3 * idx 0 f 3.

Definition fieldatptArray (u v : Z) (xi eta : R) (f : array2) : R :=
  let ff := [f v u; f v (u + 1)%Z; f (v + 1)%Z (u + 1)%Z; f (v + 1)%Z u] in
  fieldatpt xi eta ff.

Definition gradfatpt (xi eta dx dy : R) (f : list R) : Grad :=
  let x := [1.0 - xi; xi; xi; 1.0 - xi] in
  let y := [1.0 - eta; 1.0 - eta; eta; eta] in
  let gradf_x :=
    idx 0 gx 0 * idx 0 y 0 * idx 0 f 0 + idx 0 gx 1 * idx 0 y 1 * idx 0 f 1
    + idx 0 gx 2 * idx 0 y 2 * idx 0 f 2 + idx 0 gx 3 * idx 0 y 3 * idx 0 f 3 in
  let gradf_y :=
    idx 0 x 0 * idx 0 gy 0 * idx 0 f 0 + idx 0 x 1 * idx 0 gy 1 * idx 0 f 1
    + idx 0 x 2 * idx 0 gy 2 * idx 0 f 2 + idx 0 x 3 * idx 0 gy 3 * idx 0 f 3 in
  mkGrad (gradf_x / dx) (gradf_y / dy).

Definition gradfatptArray (u v : Z) (xi eta dx dy : R) (f : array2) : Grad :=
  let ff := [f v u; f v (u + 1)%Z; f (v + 1)%Z (u + 1)%Z; f (v + 1)%Z u] in
  gradfatpt xi eta dx dy ff.

(** indexing of the 8 quadrature points along the boundary of the control
    volume: point s=0,...,7 is in element (j+je[s],k+ke[s]), at its flux
    point ce[s] *)
Definition je : list Z := [0; 0; -1; -1; -1; -1; 0; 0]%Z.
Definition ke : list Z := [0; 0; 0; 0; -1; -1; -1; -1]%Z.
Definition ce : list Z := [0; 3; 1; 0; 2; 1; 3; 2]%Z.

(** direction of flux at 4 points in each element *)
Definition xdire : list bool := [true; false; true; false].

(** local (element-wise) coords of quadrature points *)
Definition locx : list R := [0.5; 0.75; 0.5; 0.25].
Definition locy : list R := [0.25; 0.5; 0.75; 0.5].

(** The memory of one residual evaluation: the ghosted iterate [aHin], the
    residual [FF], and the work vectors [Hcopy] ([aH]), [b] ([ab]) and
    [qquad[c]] ([aqquad c]) with whatever they hold when they are handed out. *)
Record Mem : Type := mkMem {
  aHin : array2;
  FF : array2;
  aH : array2;
  ab : array2;
  aqquad : Z -> array2
}.

Definition store_FF (k j : Z) (v : R) (m : Mem) : Mem :=
  mkMem (aHin m) (upd (FF m) k j v) (aH m) (ab m) (aqquad m).
Definition store_aH (k j : Z) (v : R) (m : Mem) : Mem :=
  mkMem (aHin m) (FF m) (upd (aH m) k j v) (ab m) (aqquad m).
Definition set_ab (b : array2) (m : Mem) : Mem :=
  mkMem (aHin m) (FF m) (aH m) b (aqquad m).
Definition store_aqquad (c k j : Z) (v : R) (m : Mem) : Mem :=
  mkMem (aHin m) (FF m) (aH m) (ab m)
        (fun c' => if (c' =? c)%Z then upd (aqquad m c) k j v else aqquad m c').

(** coefficients of quadrature evaluations along the boundary of the control
    volume *)
Definition coeff (info : DMDALocalInfo) (user : AppCtx) : list R :=
  let dx := L user / IZR (mx info - 1) in
  let dy := L user / IZR (my info - 1) in
  [dy / 2; dx / 2; dx / 2; - dy / 2; - dy / 2; - dx / 2; - dx / 2; dy / 2].

(** copy and set boundary conditions to zero: one node of the first loop *)
Definition copy_node (info : DMDALocalInfo) (user : AppCtx) (k j : Z) (m : Mem)
  : PetscResult Mem :=
  if ((j <? 0) || (j >? mx info - 1) || (k <? 0) || (k >? my info - 1))%Z
  then Done m
  else if check_admissible user && Rltb (aHin m k j) 0.0 then
    Raised 1 "ERROR: non-admissible value H[k][j] = %.3e < 0.0 at j,k = %d,%d" m
  else if ((j =? 0) || (j =? mx info - 1) || (k =? 0) || (k =? my info - 1))%Z then
    let m :=
      if ((j >=? xs info) && (j <? xs info + xm info)
          && (k >=? ys info) && (k <? ys info + ym info))%Z
      then store_FF k j (aHin m k j) m
      else m in
    Done (store_aH k j 0.0 m)
  else Done (store_aH k j (aHin m k j) m).

(** fluxes q at the c = 0,1,2,3 points of element (j,k) *)
Definition flux_point (info : DMDALocalInfo) (user : AppCtx) (k j c : Z) (m : Mem)
  : Mem :=
  let dx := L user / IZR (mx info - 1) in
  let dy := L user / IZR (my info - 1) in
  let upwind := Rltb 0.0 (lambda user) in
  let upmin := (1.0 - lambda user) * 0.5 in
  let upmax := (1.0 + lambda user) * 0.5 in
  let H := fieldatptArray j k (idx 0 locx c) (idx 0 locy c) (aH m) in
  let gH := gradfatptArray j k (idx 0 locx c) (idx 0 locy c) dx dy (aH m) in
  let gb := gradfatptArray j k (idx 0 locx c) (idx 0 locy c) dx dy (ab m) in
  let Hup :=
    if upwind then
      let lxup := if idx false xdire c
                  then (if Rleb (Grad_x gb) 0.0 then upmin else upmax)
                  else idx 0 locx c in
      let lyup := if idx false xdire c
                  then idx 0 locy c
                  else (if Rleb (Grad_y gb) 0.0 then upmin else upmax) in
      fieldatptArray j k lxup lyup (aH m)
    else H in
  match SIAflux gH gb H Hup (idx false xdire c) true true user with
  | Some (_, qSIA_ckj) => store_aqquad c k j qSIA_ckj m
  | None => m
  end.

Definition flux_element (info : DMDALocalInfo) (user : AppCtx) (k j : Z) (m : Mem)
  : Mem :=
  if ((j <? 0) || (j >=? mx info - 1) || (k <? 0) || (k >=? my info - 1))%Z
  then m
  else for_range 0 4 (flux_point info user k j) m.

(** climatic mass balance at node (j,k) *)
Definition mass_balance (info : DMDALocalInfo) (user : AppCtx) (k j : Z) (m : Mem)
  : R :=
  let dx := L user / IZR (mx info - 1) in
  let dy := L user / IZR (my info - 1) in
  if verif user then DomeCMB (IZR j * dx) (IZR k * dy) user
  else M_CMBModel (cmb user) (ab m k j + aH m k j).

(** function F(H) at node (j,k) from quadature over the s = 0,1,...,7 points
    on the boundary of the control volume around the node *)
Definition node_residual (info : DMDALocalInfo) (user : AppCtx) (k j : Z) (m : Mem)
  : Mem :=
  let dx := L user / IZR (mx info - 1) in
  let dy := L user / IZR (my info - 1) in
  if ((j =? 0) || (j =? mx info - 1) || (k =? 0) || (k =? my info - 1))%Z
  then m
  else
    let M := mass_balance info user k j m in
    let m := store_FF k j (- M * dx * dy) m in
    for_range 0 8 (fun s m =>
      store_FF k j
        (FF m k j + idx 0 (coeff info user) s
                    * aqquad m (idx 0%Z ce s) (k + idx 0%Z ke s)%Z (j + idx 0%Z je s)%Z)
        m) m.

(** copy and set boundary conditions to zero *)
Definition copy_loop (info : DMDALocalInfo) (user : AppCtx) (m : Mem)
  : PetscResult Mem :=
  for_range_E (ys info - 1) (ys info + ym info + 1) (fun k m =>
    for_range_E (xs info - 1) (xs info + xm info + 1) (fun j m =>
      copy_node info user k j m) m) m.

(** get bed elevation b(x,y) on this grid *)
Definition bed_setup (info : DMDALocalInfo) (user : AppCtx) (m : Mem) : Mem :=
  if verif user then set_ab (fun _ _ => 0.0) m
  else set_ab (FormBedLocal info 1 (ab m) user) m.

(** loop over locally-owned elements, including ghosts, to get fluxes q at
    c = 0,1,2,3 points in element;  note start at (xs-1,ys-1) *)
Definition flux_loop (info : DMDALocalInfo) (user : AppCtx) (m : Mem) : Mem :=
  for_range (ys info - 1) (ys info + ym info) (fun k m =>
    for_range (xs info - 1) (xs info + xm info) (fun j m =>
      flux_element info user k j m) m) m.

(** loop over nodes, not including ghosts, to get function F(H) *)
Definition node_loop (info : DMDALocalInfo) (user : AppCtx) (m : Mem) : Mem :=
  for_range (ys info) (ys info + ym info) (fun k m =>
    for_range (xs info) (xs info + xm info) (fun j m =>
      node_residual info user k j m) m) m.

Definition FormFunctionLocal (info : DMDALocalInfo) (user : AppCtx) (m : Mem)
  : PetscResult Mem :=
  match copy_loop info user m with
  | Raised c msg m => Raised c msg m
  | Done m =>
      let m := bed_setup info user m in
      let m := flux_loop info user m in
      let m := node_loop info user m in
      Done m
  end.

(** *** Reference quantities used to state the flux bookkeeping *)

(** The cached flux read at quadrature point [s] of the control volume of
    node (j,k): (flux point c, element row, element column). *)
Definition qpoint (k j s : Z) : Z * Z * Z :=
  (idx 0%Z ce s, (k + idx 0%Z ke s)%Z, (j + idx 0%Z je s)%Z).

(** The part of the grid a patch has to look at: owned nodes and one layer of
    ghosts, inside the grid. *)
Definition in_patch (info : DMDALocalInfo) (k j : Z) : Prop :=
  (ys info - 1 <= k <= ys info + ym info /\ xs info - 1 <= j <= xs info + xm info
   /\ 0 <= j <= mx info - 1 /\ 0 <= k <= my info - 1)%Z.

(** The owned interior nodes of a patch form the rectangle
    [jlo,jhi) x [klo,khi). *)
Definition jlo (info : DMDALocalInfo) : Z := Z.max 1 (xs info).
Definition jhi (info : DMDALocalInfo) : Z := Z.min (mx info - 1) (xs info + xm info).
Definition klo (info : DMDALocalInfo) : Z := Z.max 1 (ys info).
Definition khi (info : DMDALocalInfo) : Z := Z.min (my info - 1) (ys info + ym info).


(** A node of the grid. *)
Definition in_grid (info : DMDALocalInfo) (k j : Z) : Prop :=
  (0 <= j <= mx info - 1 /\ 0 <= k <= my info - 1)%Z.

(** State of the copy loop after the nodes [done], started from [m]. *)
Definition copy_inv (info : DMDALocalInfo) (user : AppCtx) (m : Mem)
           (done : list (Z * Z)) (m' : Mem) : Prop :=
  aHin m' = aHin m /\ ab m' = ab m /\ aqquad m' = aqquad m
  /\ (forall k j, In (k, j) done -> in_grid info k j ->
                  ~ (check_admissible user = true /\ aHin m k j < 0))
  /\ (forall k j, In (k, j) done -> in_grid info k j ->
                  on_boundary info j k = true -> owned info j k = true ->
                  FF m' k j = aHin m k j)
  /\ (forall k j, on_boundary info j k = false -> FF m' k j = FF m k j)
  /\ (forall k j, In (k, j) done -> in_grid info k j ->
                  aH m' k j = if on_boundary info j k then 0.0 else aHin m k j).

(** State in which the copy loop raises its error. *)
Definition copy_err (info : DMDALocalInfo) (user : AppCtx) (m : Mem)
           (l : list (Z * Z)) (c : Z) (m' : Mem) : Prop :=
  c = 1%Z /\ aHin m' = aHin m /\ ab m' = ab m /\ aqquad m' = aqquad m
  /\ check_admissible user = true
  /\ (exists k j, In (k, j) l /\ in_grid info k j /\ aHin m k j < 0)
  /\ (forall k j, on_boundary info j k = false -> FF m' k j = FF m k j).

(** The nodes the copy loop runs over: owned nodes and one layer around. *)
Definition patch_nodes (info : DMDALocalInfo) : list (Z * Z) :=
  pairs (zrange (ys info - 1) (ys info + ym info + 1))
        (zrange (xs info - 1) (xs info + xm info + 1)).

(** The quadrature of the flux from the cache [q] over the boundary of the
    control volume of node (j,k): [sum_s coeff[s] * q[ce[s]][k+ke[s]][j+je[s]]]. *)
Definition cv_flux_sum (info : DMDALocalInfo) (user : AppCtx) (q : Z -> array2)
           (k j : Z) : R :=
  sum_list (fun s => idx 0 (coeff info user) s
                     * (let '(c, kk, jj) := qpoint k j s in q c kk jj))
           (zrange 0 8).

(** *** The exact dome thickness *)

Definition DomeThicknessLocal (info : DMDALocalInfo) (aH : array2) (user : AppCtx)
  : array2 :=
  let domeR := 750.0e3 in    (* radius of exact ice sheet (m) *)
  let domeH0 := 3600.0 in    (* center thickness of exact ice sheet (m) *)
  let n := n_ice user in
  let mm := 1.0 + 1.0 / n in
  let qq := n / (2.0 * n + 2.0) in
  let CC := domeH0 / PetscPowReal (1.0 - 1.0 / n) qq in
  let dx := L user / IZR (mx info - 1) in
  let dy := L user / IZR (my info - 1) in
  for_range (ys info) (ys info + ym info) (fun k aH =>
    let y := IZR k * dy in
    for_range (xs info) (xs info + xm info) (fun j aH =>
      let x := IZR j * dx in
      let r := radialcoord x y user in
      (* avoid singularities at margin and center *)
      if Rltb (domeR - 0.01) r then upd aH k j 0.0
      else
        let r := if Rltb r 0.01 then 0.01 else r in
        let s := r / domeR in
        let tmp := mm * s - (1.0 / n) + PetscPowReal (1.0 - s) mm
                   - PetscPowReal s mm in
        upd aH k j (CC * PetscPowReal tmp qq)) aH) aH.

(** *** Reference quantities used to state the flux loop *)

(** The local coordinates at which the thickness is taken for the transport
    term at flux point [c], given the bed gradient there. *)
Definition upwind_point (user : AppCtx) (gb : Grad) (c : Z) : R * R :=
  let upmin := (1.0 - lambda user) * 0.5 in
  let upmax := (1.0 + lambda user) * 0.5 in
  if Rltb 0.0 (lambda user) then
    if idx false xdire c
    then ((if Rleb (Grad_x gb) 0.0 then upmin else upmax), idx 0 locy c)
    else (idx 0 locx c, (if Rleb (Grad_y gb) 0.0 then upmin else upmax))
  else (idx 0 locx c, idx 0 locy c).

(** The flux that the flux loop computes at point [c] of element (j,k) from
    the thickness array [h] and the bed array [b]. *)
Definition flux_value (info : DMDALocalInfo) (user : AppCtx) (h b : array2)
           (k j c : Z) : R :=
  let dx := L user / IZR (mx info - 1) in
  let dy := L user / IZR (my info - 1) in
  let H := fieldatptArray j k (idx 0 locx c) (idx 0 locy c) h in
  let gH := gradfatptArray j k (idx 0 locx c) (idx 0 locy c) dx dy h in
  let gb := gradfatptArray j k (idx 0 locx c) (idx 0 locy c) dx dy b in
  let Hup := fieldatptArray j k (fst (upwind_point user gb c))
                            (snd (upwind_point user gb c)) h in
  let D := DCS (sigma gH gb user) H user in
  let Wv := W (sigma gH gb user) gb in
  if idx false xdire c
  then - D * Grad_x gH + Grad_x Wv * PetscPowReal (Rabs Hup) (n_ice user + 2.0)
  else - D * Grad_y gH + Grad_y Wv * PetscPowReal (Rabs Hup) (n_ice user + 2.0).

(** The elements the flux loop works on: those of the patch, ghosts
    included, that lie in the grid. *)
Definition flux_element_done (info : DMDALocalInfo) (k j : Z) : bool :=
  ((ys info - 1 <=? k) && (k <? ys info + ym info)
   && (xs info - 1 <=? j) && (j <? xs info + xm info)
   && (0 <=? j) && (j <? mx info - 1) && (0 <=? k) && (k <? my info - 1))%Z.

End WithEnv.

(** A concrete environment, to run the definitions on examples: no mass
    balance and one process. *)
Definition sample_env : Env :=
  {| CMBModel := unit;
     SetFromOptions_CMBModel := fun _ => tt;
     M_CMBModel := fun _ _ => 0;
     PetscPowReal := Rpower |}.

(** The default parameters with the given admissibility switch, and a
    memory with the given iterate and cleared work vectors. *)
Definition sample_user (check : bool) : @AppCtx sample_env :=
  @mkCtx sample_env 31556926.0 1800.0e3 9.81 910.0 3.0 3.1689e-24 1.0 1.0 0.001
         1.0e-4 0.25 false check (Some tt).
Definition sample_mem (H : array2) : Mem :=
  mkMem H (fun _ _ => 0) (fun _ _ => 0) (fun _ _ => 0) (fun _ _ _ => 0).

(** An iterate that is 5 everywhere but -1 at the node (1,1). *)
Definition hole_iterate : array2 :=
  fun k j => if ((k =? 1) && (j =? 1))%Z then -1 else 5.

(** The default parameters in verification mode. *)
Definition sample_verif_user : @AppCtx sample_env :=
  @mkCtx sample_env 31556926.0 1800.0e3 9.81 910.0 3.0 3.1689e-24 1.0 1.0 0.001
         1.0e-4 0.25 true false (Some tt).

End Ice.

(** ** Loops and sums *)

Lemma zrange_In (lo hi i : Z) : In i (zrange lo hi) <-> (lo <= i < hi)%Z.
Proof.
  unfold zrange. rewrite in_map_iff. split.
  - intros [n [Hn Hin]]. apply in_seq in Hin. lia.
  - intros Hi. exists (Z.to_nat (i - lo)). split; [lia|].
    apply in_seq. lia.
Qed.

Lemma zrange_empty (lo hi : Z) : (hi <= lo)%Z -> zrange lo hi = [].
Proof.
  intros H. unfold zrange. replace (Z.to_nat (hi - lo)) with 0%nat by lia.
  reflexivity.
Qed.

Lemma zrange_cons (lo hi : Z) :
  (lo < hi)%Z -> zrange lo hi = lo :: zrange (lo + 1) hi.
Proof.
  intros H. unfold zrange.
  replace (Z.to_nat (hi - lo)) with (S (Z.to_nat (hi - (lo + 1)))) by lia.
  cbn [seq map]. f_equal; [lia|].
  rewrite <- seq_shift, map_map. apply map_ext. intros n. lia.
Qed.

Lemma zrange_app (lo mid hi : Z) :
  (lo <= mid <= hi)%Z -> zrange lo hi = zrange lo mid ++ zrange mid hi.
Proof.
  intros H. remember (Z.to_nat (mid - lo)) as n eqn:En.
  revert lo H En. induction n as [|n IH]; intros lo H En.
  - assert (mid = lo) by lia. subst mid.
    rewrite (zrange_empty lo lo) by lia. reflexivity.
  - rewrite (zrange_cons lo hi), (zrange_cons lo mid) by lia.
    cbn [app]. f_equal. apply IH; lia.
Qed.

Lemma pairs_In (ks js : list Z) (k j : Z) :
  In (k, j) (pairs ks js) <-> In k ks /\ In j js.
Proof.
  unfold pairs. rewrite in_flat_map. split.
  - intros [k' [Hk Hin]]. apply in_map_iff in Hin as [j' [E Hj]].
    inversion E; subst. tauto.
  - intros [Hk Hj]. exists k. split; [assumption|]. now apply in_map.
Qed.

Lemma NoDup_map_inj {A B : Type} (f : A -> B) (l : list A) :
  (forall x y, In x l -> In y l -> f x = f y -> x = y) ->
  NoDup l -> NoDup (map f l).
Proof.
  intros Hinj Hnd. induction Hnd as [|x l Hx Hnd IH]; cbn; constructor.
  - intros Hin. apply in_map_iff in Hin as [y [E Hy]].
    assert (y = x) by (apply Hinj; [now right | now left | assumption]).
    subst. contradiction.
  - apply IH. intros a b Ha Hb. apply Hinj; now right.
Qed.

Lemma zrange_NoDup (lo hi : Z) : NoDup (zrange lo hi).
Proof.
  unfold zrange. apply NoDup_map_inj; [|apply seq_NoDup].
  intros x y _ _ E. lia.
Qed.

Lemma NoDup_app_In_r {A : Type} (l1 l2 : list A) (a : A) :
  NoDup (l1 ++ l2) -> In a l2 -> ~ In a l1.
Proof.
  induction l1 as [|x l1 IH]; intros Hnd H2 H1; [contradiction|].
  cbn in Hnd. inversion Hnd as [|x' l' Hx Hnd']; subst.
  destruct H1 as [->|H1].
  - apply Hx. apply in_or_app. now right.
  - exact (IH Hnd' H2 H1).
Qed.

(** In a list without repetition an element has one place. *)
Lemma NoDup_split_unique {A : Type} (x : A) (l1 l2 l1' l2' : list A) :
  NoDup (l1 ++ x :: l2) -> l1 ++ x :: l2 = l1' ++ x :: l2' ->
  l1 = l1' /\ l2 = l2'.
Proof.
  revert l1'. induction l1 as [|a l1 IH]; intros l1' Hnd E.
  - destruct l1' as [|a' l1']; cbn in E.
    + inversion E. auto.
    + inversion E; subst. cbn in Hnd. inversion Hnd as [|y l Hx _]; subst.
      exfalso. apply Hx. apply in_or_app. right. now left.
  - destruct l1' as [|a' l1']; cbn in E.
    + inversion E; subst. cbn in Hnd. inversion Hnd as [|y l Hx _]; subst.
      exfalso. apply Hx. apply in_or_app. right. now left.
    + inversion E; subst. cbn in Hnd. inversion Hnd as [|y l _ Hnd']; subst.
      destruct (IH l1' Hnd' H1) as [-> ->]. auto.
Qed.

(** Two nested loops meet every index pair once. *)
Lemma pairs_NoDup (ks js : list Z) :
  NoDup ks -> NoDup js -> NoDup (pairs ks js).
Proof.
  intros Hk Hj. induction Hk as [|k ks Hnk Hk IH]; [constructor|].
  change (pairs (k :: ks) js) with (map (pair k) js ++ pairs ks js).
  apply NoDup_app.
  - apply NoDup_map_inj; [|exact Hj]. intros x y _ _ E. now inversion E.
  - exact IH.
  - intros [k' j'] Hin Hin'. apply in_map_iff in Hin as [j [E _]].
    inversion E; subst. apply pairs_In in Hin' as [Hin' _]. contradiction.
Qed.

Lemma for_each_app {I S : Type} (l1 l2 : list I) (body : I -> S -> S) (s : S) :
  for_each (l1 ++ l2) body s = for_each l2 body (for_each l1 body s).
Proof. unfold for_each. apply fold_left_app. Qed.

Lemma for_each_cons {I S : Type} (i : I) (l : list I) (body : I -> S -> S) (s : S) :
  for_each (i :: l) body s = for_each l body (body i s).
Proof. reflexivity. Qed.

Lemma for_each_map {I J S : Type} (f : I -> J) (l : list I) (body : J -> S -> S)
      (s : S) :
  for_each (map f l) body s = for_each l (fun i => body (f i)) s.
Proof.
  revert s. induction l as [|i l IH]; intros s; [reflexivity|].
  cbn [map]. rewrite !for_each_cons. apply IH.
Qed.

(** Two nested loops run their body over the index pairs in order. *)
Lemma for_each_nested {S : Type} (ks js : list Z) (body : Z -> Z -> S -> S) (s : S) :
  for_each ks (fun k s => for_each js (fun j s => body k j s) s) s
  = for_each (pairs ks js) (fun kj s => body (fst kj) (snd kj) s) s.
Proof.
  revert s. induction ks as [|k ks IH]; intros s; [reflexivity|].
  change (pairs (k :: ks) js) with (map (pair k) js ++ pairs ks js).
  rewrite for_each_app, for_each_cons, <- IH, for_each_map. reflexivity.
Qed.

Lemma for_each_E_app {I S : Type} (l1 l2 : list I) (body : I -> S -> PetscResult S)
      (s : S) :
  for_each_E (l1 ++ l2) body s
  = match for_each_E l1 body s with
    | Done s' => for_each_E l2 body s'
    | Raised c msg s' => Raised c msg s'
    end.
Proof.
  revert s. induction l1 as [|i l1 IH]; intros s; cbn; [reflexivity|].
  destruct (body i s); [apply IH | reflexivity].
Qed.

Lemma for_each_E_nested {S : Type} (ks js : list Z)
      (body : Z -> Z -> S -> PetscResult S) (s : S) :
  for_each_E ks (fun k s => for_each_E js (fun j s => body k j s) s) s
  = for_each_E (pairs ks js) (fun kj s => body (fst kj) (snd kj) s) s.
Proof.
  revert s. induction ks as [|k ks IH]; intros s; [reflexivity|].
  change (pairs (k :: ks) js) with (map (pair k) js ++ pairs ks js).
  rewrite for_each_E_app. cbn [for_each_E].
  assert (E : forall s0, for_each_E (map (pair k) js)
                (fun kj s => body (fst kj) (snd kj) s) s0
              = for_each_E js (fun j s => body k j s) s0).
  { clear IH. induction js as [|j js IHj]; intros s0; cbn; [reflexivity|].
    destruct (body k j s0); [apply IHj | reflexivity]. }
  rewrite E. destruct (for_each_E js (fun j s => body k j s) s); [apply IH | reflexivity].
Qed.

(** Loop invariant indexed by the iterations already made. *)
Lemma for_each_ind {I S : Type} (body : I -> S -> S) (P : list I -> S -> Prop)
      (l : list I) (s : S) :
  P [] s ->
  (forall done i rest s', l = done ++ i :: rest ->
                          P done s' -> P (done ++ [i]) (body i s')) ->
  P l (for_each l body s).
Proof.
  intros H0 Hstep.
  assert (G : forall rest done s', l = done ++ rest -> P done s' ->
                                   P l (for_each rest body s')).
  { induction rest as [|i rest IH]; intros done s' E H.
    - rewrite app_nil_r in E. subst. exact H.
    - cbn. apply (IH (done ++ [i])).
      + rewrite <- app_assoc. exact E.
      + apply (Hstep done i rest); assumption. }
  apply (G l [] s); [reflexivity | assumption].
Qed.

Lemma for_each_E_ind {I S : Type} (body : I -> S -> PetscResult S)
      (P : list I -> S -> Prop) (Q : Z -> string -> S -> Prop)
      (l : list I) (s : S) :
  P [] s ->
  (forall done i rest s', l = done ++ i :: rest -> P done s' ->
      match body i s' with
      | Done s'' => P (done ++ [i]) s''
      | Raised c msg s'' => Q c msg s''
      end) ->
  match for_each_E l body s with
  | Done s' => P l s'
  | Raised c msg s' => Q c msg s'
  end.
Proof.
  intros H0 Hstep.
  assert (G : forall rest done s', l = done ++ rest -> P done s' ->
      match for_each_E rest body s' with
      | Done s'' => P l s''
      | Raised c msg s'' => Q c msg s''
      end).
  { induction rest as [|i rest IH]; intros done s' E H.
    - rewrite app_nil_r in E. subst. exact H.
    - cbn. specialize (Hstep done i rest s' E H).
      destruct (body i s') as [s''|c msg s''].
      + apply (IH (done ++ [i])); [rewrite <- app_assoc; exact E | exact Hstep].
      + exact Hstep. }
  apply (G l [] s); [reflexivity | assumption].
Qed.

Lemma fold_add_shift {I : Type} (f : I -> R) (l : list I) (a : R) :
  fold_left (fun acc i => acc + f i) l a = a + sum_list f l.
Proof.
  unfold sum_list. revert a. induction l as [|i l IH]; intros a; cbn.
  - lra.
  - rewrite IH. rewrite (IH (0 + f i)). lra.
Qed.

Lemma sum_list_nil {I : Type} (f : I -> R) : sum_list f [] = 0.
Proof. reflexivity. Qed.

Lemma sum_list_cons {I : Type} (f : I -> R) (i : I) (l : list I) :
  sum_list f (i :: l) = f i + sum_list f l.
Proof. unfold sum_list at 1. cbn. rewrite fold_add_shift. lra. Qed.

Lemma sum_list_app {I : Type} (f : I -> R) (l1 l2 : list I) :
  sum_list f (l1 ++ l2) = sum_list f l1 + sum_list f l2.
Proof.
  unfold sum_list at 1. rewrite fold_left_app, fold_add_shift. reflexivity.
Qed.

Lemma sum_list_ext {I : Type} (f g : I -> R) (l : list I) :
  (forall i, In i l -> f i = g i) -> sum_list f l = sum_list g l.
Proof.
  induction l as [|i l IH]; intros H; [reflexivity|].
  rewrite !sum_list_cons, IH, (H i); auto using in_eq, in_cons.
Qed.



(** A loop that stores into one array, at most once per index pair. *)
Lemma write_loop {S : Type} (get : S -> array2) (Inv : S -> Prop)
      (body : Z * Z -> S -> S) (writes : Z * Z -> bool) (val : Z * Z -> R)
      (l : list (Z * Z)) (s : S) :
  Inv s ->
  (forall kj s', In kj l -> Inv s' ->
     Inv (body kj s') /\
     forall k j, get (body kj s') k j
                 = if writes kj && (fst kj =? k)%Z && (snd kj =? j)%Z
                   then val kj else get s' k j) ->
  Inv (for_each l body s) /\
  forall k j,
    (In (k, j) l -> writes (k, j) = true -> get (for_each l body s) k j = val (k, j))
    /\ (~ (In (k, j) l /\ writes (k, j) = true) ->
        get (for_each l body s) k j = get s k j).
Proof.
  intros H0 Hstep.
  apply (for_each_ind body
           (fun done s' =>
              Inv s' /\
              forall k j,
                (In (k, j) done -> writes (k, j) = true -> get s' k j = val (k, j))
                /\ (~ (In (k, j) done /\ writes (k, j) = true) ->
                    get s' k j = get s k j))).
  - split; [assumption|]. intros k j. split; [intros []|reflexivity].
  - intros done [k0 j0] rest s' E [HI HP].
    assert (Hin : In (k0, j0) l) by (rewrite E; apply in_elt).
    destruct (Hstep (k0, j0) s' Hin HI) as [HI' Hget].
    split; [assumption|]. intros k j. rewrite Hget. cbn [fst snd].
    destruct (HP k j) as [HP1 HP2].
    destruct (writes (k0, j0) && (k0 =? k)%Z && (j0 =? j)%Z) eqn:Ew.
    + apply andb_prop in Ew as [Ew Ej]. apply andb_prop in Ew as [Ew Ek].
      apply Z.eqb_eq in Ek, Ej. subst k0 j0. split; [reflexivity|].
      intros Hn. exfalso. apply Hn. split; [|assumption].
      apply in_or_app. right. apply in_eq.
    + assert (Hne : ~ ((k0, j0) = (k, j) /\ writes (k, j) = true)).
      { intros [Eq Hw]. inversion Eq; subst.
        rewrite Hw, !Z.eqb_refl in Ew. discriminate. }
      split.
      * intros Hi Hw. apply in_app_or in Hi as [Hi|[Hi|[]]]; [auto|].
        exfalso. apply Hne. auto.
      * intros Hn. apply HP2. intros [Hi Hw]. apply Hn. split; [|assumption].
        apply in_or_app. now left.
Qed.

(** A loop that adds into one cell: the cell gains the sum of what the
    iterations add to it. *)
Lemma accum_loop {I J S : Type} (get : S -> R) (Inv : S -> Prop)
      (body : I -> S -> S) (h : I -> list J) (c : J -> R) (l : list I) (s : S) :
  Inv s ->
  (forall i s', In i l -> Inv s' ->
     Inv (body i s') /\ get (body i s') = get s' + sum_list c (h i)) ->
  Inv (for_each l body s)
  /\ get (for_each l body s) = get s + sum_list c (flat_map h l).
Proof.
  intros H0 Hstep.
  apply (for_each_ind body
           (fun done s' => Inv s' /\ get s' = get s + sum_list c (flat_map h done))).
  - split; [assumption|]. cbn [flat_map]. rewrite sum_list_nil. lra.
  - intros done i rest s' E [HI HP].
    assert (Hin : In i l) by (rewrite E; apply in_elt).
    destruct (Hstep i s' Hin HI) as [HI' Hg].
    split; [assumption|].
    rewrite Hg, HP, flat_map_app, sum_list_app. cbn [flat_map].
    rewrite app_nil_r. lra.
Qed.

Lemma owned_spec (info : DMDALocalInfo) (i j : Z) :
  owned info i j = true
  <-> (xs info <= i < xs info + xm info /\ ys info <= j < ys info + ym info)%Z.
Proof.
  unfold owned. rewrite !andb_true_iff, !Z.leb_le, !Z.ltb_lt. lia.
Qed.

Lemma flat_map_single {A : Type} (l : list A) : flat_map (fun x => [x]) l = l.
Proof. induction l as [|x l IH]; cbn; [reflexivity | now rewrite IH]. Qed.

Lemma flat_map_pairs {A : Type} (h : Z * Z -> list A) (ks js : list Z) :
  flat_map h (pairs ks js) = flat_map (fun k => flat_map (fun j => h (k, j)) js) ks.
Proof.
  induction ks as [|k ks IH]; [reflexivity|].
  change (pairs (k :: ks) js) with (map (pair k) js ++ pairs ks js).
  rewrite flat_map_app, IH. cbn [flat_map]. f_equal.
  clear IH. induction js as [|j js IHj]; [reflexivity|].
  cbn [map flat_map]. now rewrite IHj.
Qed.

Lemma flat_map_all_nil {A B : Type} (h : A -> list B) (l : list A) :
  (forall x, In x l -> h x = []) -> flat_map h l = [].
Proof.
  induction l as [|x l IH]; intros H; [reflexivity|].
  cbn [flat_map]. rewrite (H x (in_eq _ _)), IH; [reflexivity|].
  intros y Hy. apply H. now right.
Qed.

(** If only the indices [P] and [P+1] of a range produce anything, the range
    produces what they produce, in that order. *)
Lemma flat_map_zrange_two {B : Type} (h : Z -> list B) (lo hi P : Z) :
  (lo <= P)%Z -> (P + 1 < hi)%Z ->
  (forall i, i <> P -> i <> (P + 1)%Z -> h i = []) ->
  flat_map h (zrange lo hi) = h P ++ h (P + 1)%Z.
Proof.
  intros Hlo Hhi Hnil.
  rewrite (zrange_app lo P hi) by lia.
  rewrite (zrange_cons P hi) by lia.
  rewrite (zrange_cons (P + 1) hi) by lia.
  rewrite flat_map_app. cbn [flat_map].
  rewrite (flat_map_all_nil h (zrange lo P)),
          (flat_map_all_nil h (zrange (P + 1 + 1) hi)).
  - rewrite app_nil_r. reflexivity.
  - intros i Hi. apply zrange_In in Hi. apply Hnil; lia.
  - intros i Hi. apply zrange_In in Hi. apply Hnil; lia.
Qed.

Lemma Rltb_true (x y : R) : Rltb x y = true <-> x < y.
Proof. unfold Rltb. destruct (Rlt_dec x y); split; intros; try discriminate; tauto. Qed.

Lemma Rleb_true (x y : R) : Rleb x y = true <-> x <= y.
Proof. unfold Rleb. destruct (Rle_dec x y); split; intros; try discriminate; tauto. Qed.

(** Reading a table at a literal index. *)
Ltac eval_idx :=
  unfold idx;
  change (Z.to_nat 0) with 0%nat; change (Z.to_nat 1) with 1%nat;
  change (Z.to_nat 2) with 2%nat; change (Z.to_nat 3) with 3%nat;
  change (Z.to_nat 4) with 4%nat; change (Z.to_nat 5) with 5%nat;
  change (Z.to_nat 6) with 6%nat; change (Z.to_nat 7) with 7%nat;
  cbn [nth].

(** ** Properties of the p-Laplacian assembly *)

Module PlapProofs.
Import Plap.

Section WithEnv.
Context {env : Env}.

Lemma four_cases (l : Z) : (0 <= l < 4)%Z -> l = 0%Z \/ l = 1%Z \/ l = 2%Z \/ l = 3%Z.
Proof. lia. Qed.

(** C7: the bilinear shape functions partition unity on the reference square,
    and each is 1 at its own corner and 0 at the three others. *)
Theorem chi_partition_and_corner_values (xi eta : R) (L M : Z) :
  -1 <= xi <= 1 -> -1 <= eta <= 1 -> (0 <= L < 4)%Z -> (0 <= M < 4)%Z ->
  chi 0 xi eta + chi 1 xi eta + chi 2 xi eta + chi 3 xi eta = 1
  /\ chi L (idx 0 xiL M) (idx 0 etaL M) = if (L =? M)%Z then 1 else 0.
Proof.
  intros _ _ HL HM. split.
  - unfold chi, xiL, etaL. eval_idx. lra.
  - destruct (four_cases L HL) as [->|[->|[->| ->]]];
      destruct (four_cases M HM) as [->|[->|[->| ->]]];
      unfold chi, xiL, etaL; eval_idx; cbn [Z.eqb Pos.eqb]; lra.
Qed.

Lemma chi_partition_and_corner_values_witness :
  chi 0 0 0 + chi 1 0 0 + chi 2 0 0 + chi 3 0 0 = 1
  /\ chi 1 (idx 0 xiL 1) (idx 0 etaL 1) = 1.
Proof.
  apply (chi_partition_and_corner_values 0 0 1 1); first [lra | lia].
Defined.

(** The elements visited by either assembly loop have their upper-right node
    in [1,mx-1] x [1,my-1]. *)
Lemma elements_fun_range (info : DMDALocalInfo) (i j : Z) :
  In (i, j) (elements_fun info) ->
  (1 <= i <= mx info - 1 /\ 1 <= j <= my info - 1)%Z.
Proof.
  unfold elements_fun. rewrite in_map_iff. intros [[j' i'] [E Hin]].
  cbn in E. inversion E; subst. apply pairs_In in Hin as [Hj Hi].
  apply zrange_In in Hj, Hi. unfold iS, iE, jS, jE in *.
  destruct (xs info <? 1)%Z eqn:E1, (ys info <? 1)%Z eqn:E2,
           (xs info + xm info >? mx info - 1)%Z eqn:E3,
           (ys info + ym info >? my info - 1)%Z eqn:E4; lia.
Qed.

Lemma elements_obj_range (info : DMDALocalInfo) (i j : Z) :
  valid_info info -> In (i, j) (elements_obj info) ->
  (1 <= i <= mx info - 1 /\ 1 <= j <= my info - 1)%Z.
Proof.
  unfold valid_info, elements_obj. rewrite in_map_iff. intros Hv [[j' i'] [E Hin]].
  cbn in E. inversion E; subst. apply pairs_In in Hin as [Hj Hi].
  apply zrange_In in Hj, Hi. lia.
Qed.

Lemma GetUorGElement_corner (info : DMDALocalInfo) (a : array2) (al : R)
      (i j l : Z) :
  (1 <= i <= mx info - 1)%Z -> (1 <= j <= my info - 1)%Z -> (0 <= l < 4)%Z ->
  idx 0 (GetUorGElement info i j a al) l
  = if on_boundary info (i + idx 0%Z li l) (j + idx 0%Z lj l)
    then BoundaryG (IZR (i + idx 0%Z li l) * (1.0 / IZR (mx info - 1)))
                   (IZR (j + idx 0%Z lj l) * (1.0 / IZR (my info - 1))) al
    else a (j + idx 0%Z lj l)%Z (i + idx 0%Z li l)%Z.
Proof.
  intros Hi Hj Hl. unfold GetUorGElement, on_boundary.
  set (hx := 1.0 / IZR (mx info - 1)). set (hy := 1.0 / IZR (my info - 1)).
  destruct (four_cases l Hl) as [->|[->|[->| ->]]]; unfold li, lj; eval_idx;
    rewrite ?Z.add_0_r; change (i + -1)%Z with (i - 1)%Z;
    change (j + -1)%Z with (j - 1)%Z;
    repeat match goal with
           | |- context [(?a =? ?b)%Z] => destruct (Z.eqb_spec a b)
           end; cbn [orb]; try lia; try reflexivity;
    f_equal; rewrite ?minus_IZR; ring.
Qed.

(** C10: on every element the objective or the residual assembly visits, the
    nodal values handed to the quadrature are the iterate at interior corners
    and the boundary function g, at the corner's own coordinates, at corners
    on the global boundary; hence they do not depend on the iterate's values
    at boundary nodes. *)
Theorem GetUorGElement_iterate_or_boundary (info : DMDALocalInfo) (a : array2)
        (al : R) (i j l : Z) :
  In (i, j) (elements_fun info)
  \/ (valid_info info /\ In (i, j) (elements_obj info)) ->
  (0 <= l < 4)%Z ->
  idx 0 (GetUorGElement info i j a al) l
  = (if on_boundary info (i + idx 0%Z li l) (j + idx 0%Z lj l)
     then BoundaryG (IZR (i + idx 0%Z li l) * (1.0 / IZR (mx info - 1)))
                    (IZR (j + idx 0%Z lj l) * (1.0 / IZR (my info - 1))) al
     else a (j + idx 0%Z lj l)%Z (i + idx 0%Z li l)%Z)
  /\ forall a' : array2,
       (forall P Q, on_boundary info P Q = false -> a' Q P = a Q P) ->
       GetUorGElement info i j a' al = GetUorGElement info i j a al.
Proof.
  intros Hel Hl.
  assert (Hr : (1 <= i <= mx info - 1 /\ 1 <= j <= my info - 1)%Z).
  { destruct Hel as [H|[Hv H]];
      [apply elements_fun_range | apply elements_obj_range]; assumption. }
  destruct Hr as [Hi Hj]. split.
  - apply GetUorGElement_corner; assumption.
  - intros a' Ha. unfold GetUorGElement.
    repeat (f_equal;
            try match goal with
                | |- (if ?c then _ else _) = _ =>
                    destruct c eqn:Ec; [reflexivity|];
                    apply Ha; unfold on_boundary;
                    apply orb_false_elim in Ec as [E1 E2];
                    apply Z.eqb_neq in E1, E2;
                    repeat match goal with
                           | |- context [(?x =? ?y)%Z] => destruct (Z.eqb_spec x y)
                           end; cbn [orb]; try reflexivity; lia
                end).
Qed.


Lemma accumulates_spec (info : DMDALocalInfo) (P Q : Z) :
  accumulates info P Q = true
  <-> (0 < P < mx info - 1 /\ 0 < Q < my info - 1
       /\ xs info <= P < xs info + xm info /\ ys info <= Q < ys info + ym info)%Z.
Proof.
  unfold accumulates.
  rewrite !andb_true_iff, !Z.gtb_lt, !Z.ltb_lt, !Z.geb_le. lia.
Qed.

Lemma accumulates_interior_owned (info : DMDALocalInfo) (P Q : Z) :
  accumulates info P Q = negb (on_boundary info P Q) && owned info P Q
  \/ ~ (0 <= P <= mx info - 1 /\ 0 <= Q <= my info - 1)%Z.
Proof.
  destruct (Z_le_dec 0 P), (Z_le_dec P (mx info - 1)), (Z_le_dec 0 Q),
           (Z_le_dec Q (my info - 1)); try (right; lia).
  left. unfold accumulates, on_boundary, owned.
  repeat match goal with
         | |- context [(?a =? ?b)%Z] => destruct (Z.eqb_spec a b)
         | |- context [(?a <? ?b)%Z] => destruct (Z.ltb_spec a b)
         | |- context [(?a <=? ?b)%Z] => destruct (Z.leb_spec a b)
         | |- context [(?a >? ?b)%Z] => rewrite (Z.gtb_ltb a b)
         | |- context [(?a >=? ?b)%Z] => rewrite (Z.geb_leb a b)
         end; cbn; try reflexivity; lia.
Qed.

(** The first loop leaves the boundary residual at owned boundary nodes, zero
    at the other owned nodes, and nothing else. *)
Lemma init_loop_spec (info : DMDALocalInfo) (user : PLapCtx) (m : Mem) :
  au (init_loop info user m) = au m
  /\ forall j i,
      FF (init_loop info user m) j i
      = if owned info i j then
          if on_boundary info i j
          then au m j i - BoundaryG (IZR i * (1.0 / IZR (mx info - 1)))
                                    (IZR j * (1.0 / IZR (my info - 1))) (alpha user)
          else 0.0
        else FF m j i.
Proof.
  unfold init_loop, for_range. rewrite for_each_nested.
  match goal with |- context [for_each ?l ?b m] => set (l0 := l); set (body := b) end.
  destruct (write_loop FF (fun m' => au m' = au m) body (fun _ => true)
              (fun kj => if on_boundary info (snd kj) (fst kj)
                         then au m (fst kj) (snd kj)
                              - BoundaryG (IZR (snd kj) * (1.0 / IZR (mx info - 1)))
                                          (IZR (fst kj) * (1.0 / IZR (my info - 1)))
                                          (alpha user)
                         else 0.0) l0 m) as [Hau HFF].
  - reflexivity.
  - intros [j0 i0] m' _ Ea. subst body. cbn [fst snd]. unfold init_node.
    fold (on_boundary info i0 j0). split.
    + destruct (on_boundary info i0 j0); cbn; assumption.
    + intros k j. rewrite (Z.eqb_sym j0 k), (Z.eqb_sym i0 j).
      destruct (on_boundary info i0 j0); cbn [FF store_FF andb]; unfold upd;
        rewrite ?Ea; reflexivity.
  - split; [assumption|]. intros j i. destruct (HFF j i) as [H1 H2].
    destruct (owned info i j) eqn:Eo.
    + apply owned_spec in Eo. apply H1; [|reflexivity].
      subst l0. apply pairs_In. rewrite !zrange_In. lia.
    + apply H2. intros [Hin _]. subst l0. apply pairs_In in Hin.
      rewrite !zrange_In in Hin.
      assert (owned info i j = true) by (apply owned_spec; lia). congruence.
Qed.

(** The quadrature loop of one corner adds its terms to one cell of [FF]. *)
Lemma quad_loop_spec (info : DMDALocalInfo) (user : PLapCtx) (f u : list R)
      (l QQ PP : Z) (m : Mem) :
  let n := quaddegree user in
  let m' := for_range 0 n (fun r m =>
              for_range 0 n (fun s m =>
                store_FF QQ PP (FF m QQ PP + quadterm info user f u l r s) m) m) m in
  au m' = au m
  /\ FF m' QQ PP
     = FF m QQ PP
       + sum_list (fun rs => quadterm info user f u l (fst rs) (snd rs))
                  (pairs (zrange 0 n) (zrange 0 n))
  /\ forall k j, (k, j) <> (QQ, PP) -> FF m' k j = FF m k j.
Proof.
  intros n m'. subst m'. unfold for_range. rewrite for_each_nested.
  match goal with |- context [for_each ?l0 ?b m] => set (body := b) end.
  destruct (accum_loop (fun m' => FF m' QQ PP)
              (fun m' => au m' = au m
                         /\ forall k j, (k, j) <> (QQ, PP) -> FF m' k j = FF m k j)
              body (fun rs => [rs])
              (fun rs => quadterm info user f u l (fst rs) (snd rs))
              (pairs (zrange 0 n) (zrange 0 n)) m) as [[Hau Hoth] Hsum].
  - split; [reflexivity|]. intros; reflexivity.
  - intros rs m' _ [Ea Eo]. subst body. cbn beta. split; [split|].
    + cbn. assumption.
    + intros k j Hne. cbn [FF store_FF]. unfold upd.
      destruct ((k =? QQ)%Z && (j =? PP)%Z) eqn:E; [|apply Eo; assumption].
      apply andb_prop in E as [E1 E2]. apply Z.eqb_eq in E1, E2. congruence.
    + cbn [FF store_FF]. unfold upd. rewrite !Z.eqb_refl. cbn [andb].
      rewrite sum_list_cons, sum_list_nil. lra.
  - rewrite flat_map_single in Hsum. auto.
Qed.

(** One corner of one element: its quadrature goes to node (P,Q) when that is
    the corner's node and the node is an owned unknown, and nothing else
    reaches (P,Q). *)
Lemma corner_spec (info : DMDALocalInfo) (user : PLapCtx) (a0 : array2)
      (i j l : Z) (m : Mem) (P Q : Z) :
  au m = a0 ->
  let f := elementF info user i j in
  let u := GetUorGElement info i j a0 (alpha user) in
  let PP := (i + idx 0 li l)%Z in
  let QQ := (j + idx 0 lj l)%Z in
  au (corner info user f u i j l m) = a0
  /\ FF (corner info user f u i j l m) Q P
     = FF m Q P
       + sum_list (corner_contrib info user a0)
                  (if accumulates info PP QQ && (PP =? P)%Z && (QQ =? Q)%Z
                   then [(i, j, l)] else []).
Proof.
  intros Ea f u PP QQ. unfold corner. fold PP QQ.
  destruct (accumulates info PP QQ) eqn:Eacc; cbn [andb].
  - destruct (quad_loop_spec info user f u l QQ PP m) as [Hau [Hsum Hoth]].
    cbv zeta in Hau, Hsum, Hoth. split; [congruence|].
    destruct ((PP =? P)%Z && (QQ =? Q)%Z) eqn:E.
    + apply andb_prop in E as [E1 E2]. apply Z.eqb_eq in E1, E2. subst P Q.
      rewrite Hsum, sum_list_cons, sum_list_nil.
      unfold corner_contrib. fold f u. lra.
    + rewrite Hoth, sum_list_nil; [lra|].
      intros Eq. inversion Eq; subst. rewrite !Z.eqb_refl in E. discriminate.
  - split; [assumption|]. rewrite sum_list_nil. lra.
Qed.

Lemma element_spec (info : DMDALocalInfo) (user : PLapCtx) (a0 : array2)
      (j i : Z) (m : Mem) (P Q : Z) :
  au m = a0 ->
  au (element info user j i m) = a0
  /\ FF (element info user j i m) Q P
     = FF m Q P
       + sum_list (corner_contrib info user a0) (hits_of_element info P Q (j, i)).
Proof.
  intros Ea. unfold element, for_range, hits_of_element. rewrite Ea.
  apply (accum_loop (fun m' => FF m' Q P) (fun m' => au m' = a0)).
  - assumption.
  - intros l m' _ Ea'. apply (corner_spec info user a0 i j l m' P Q Ea').
Qed.

(** The element loop adds to [FF[Q][P]] exactly the corner quadratures listed
    by [hits], and leaves the iterate alone. *)
Lemma element_loop_spec (info : DMDALocalInfo) (user : PLapCtx) (m : Mem) (P Q : Z) :
  au (element_loop info user m) = au m
  /\ FF (element_loop info user m) Q P
     = FF m Q P + sum_list (corner_contrib info user (au m)) (hits info P Q).
Proof.
  unfold element_loop, for_range, hits. rewrite for_each_nested.
  apply (accum_loop (fun m' => FF m' Q P) (fun m' => au m' = au m)).
  - reflexivity.
  - intros [j i] m' _ Ea. cbn [fst snd].
    apply (element_spec info user (au m) j i m' P Q Ea).
Qed.

Lemma hit_test (info : DMDALocalInfo) (P Q PP QQ : Z) :
  accumulates info PP QQ && (PP =? P)%Z && (QQ =? Q)%Z
  = accumulates info P Q && ((PP =? P)%Z && (QQ =? Q)%Z).
Proof.
  destruct (Z.eqb_spec PP P), (Z.eqb_spec QQ Q); subst;
    destruct (accumulates info P Q); rewrite ?andb_false_r; try reflexivity;
    destruct (accumulates info _ _); reflexivity.
Qed.

Lemma hits_of_element_value (info : DMDALocalInfo) (P Q j i : Z) :
  hits_of_element info P Q (j, i)
  = if accumulates info P Q then
      (if (i =? P)%Z && (j =? Q)%Z then [(i, j, 0%Z)] else [])
      ++ (if (i - 1 =? P)%Z && (j =? Q)%Z then [(i, j, 1%Z)] else [])
      ++ (if (i - 1 =? P)%Z && (j - 1 =? Q)%Z then [(i, j, 2%Z)] else [])
      ++ (if (i =? P)%Z && (j - 1 =? Q)%Z then [(i, j, 3%Z)] else [])
    else [].
Proof.
  unfold hits_of_element. change (zrange 0 4) with [0; 1; 2; 3]%Z.
  cbn [flat_map]. unfold li, lj. eval_idx.
  rewrite !Z.add_0_r. change (i + -1)%Z with (i - 1)%Z.
  change (j + -1)%Z with (j - 1)%Z. rewrite !hit_test.
  destruct (accumulates info P Q); cbn [andb]; [|reflexivity].
  rewrite app_nil_r. reflexivity.
Qed.

(** The accumulations into an owned interior node come from its four
    elements, one corner each, in the order of the loop. *)
Lemma hits_owned_interior (info : DMDALocalInfo) (P Q : Z) :
  accumulates info P Q = true ->
  hits info P Q
  = [(P, Q, 0%Z); ((P + 1)%Z, Q, 1%Z); (P, (Q + 1)%Z, 3%Z);
     ((P + 1)%Z, (Q + 1)%Z, 2%Z)].
Proof.
  intros Hacc. pose proof (proj1 (accumulates_spec info P Q) Hacc) as Hr.
  unfold hits. rewrite flat_map_pairs.
  assert (Hrow : forall j,
             flat_map (fun i => hits_of_element info P Q (j, i))
                      (zrange (iS info) (iE info + 1))
             = hits_of_element info P Q (j, P)
               ++ hits_of_element info P Q (j, (P + 1)%Z)).
  { intros j.
    apply (flat_map_zrange_two (fun i => hits_of_element info P Q (j, i))).
    - unfold iS. destruct (xs info <? 1)%Z; lia.
    - unfold iE. destruct (xs info + xm info >? mx info - 1)%Z eqn:E; lia.
    - intros i H1 H2. rewrite hits_of_element_value, Hacc.
      repeat match goal with
             | |- context [(?a =? ?b)%Z] => destruct (Z.eqb_spec a b)
             end; cbn; try reflexivity; lia. }
  rewrite (flat_map_zrange_two
             (fun j => flat_map (fun i => hits_of_element info P Q (j, i))
                                (zrange (iS info) (iE info + 1)))
             (jS info) (jE info + 1) Q).
  - rewrite !Hrow, !hits_of_element_value, Hacc.
    repeat match goal with
           | |- context [(?a =? ?b)%Z] => destruct (Z.eqb_spec a b)
           end; cbn; try reflexivity; lia.
  - unfold jS. destruct (ys info <? 1)%Z; lia.
  - unfold jE. destruct (ys info + ym info >? my info - 1)%Z eqn:E; lia.
  - intros j H1 H2. rewrite Hrow, !hits_of_element_value, Hacc.
    repeat match goal with
           | |- context [(?a =? ?b)%Z] => destruct (Z.eqb_spec a b)
           end; cbn; try reflexivity; lia.
Qed.

(** Nothing is accumulated into a node that is not an owned unknown. *)
Lemma hits_elsewhere (info : DMDALocalInfo) (P Q : Z) :
  accumulates info P Q = false -> hits info P Q = [].
Proof.
  intros Hacc. unfold hits. apply flat_map_all_nil.
  intros [j i] _. rewrite hits_of_element_value, Hacc. reflexivity.
Qed.

(** The element loop on small grids: one process owning a 3 x 3 grid, and a
    5 x 5 grid split between two processes at column 3. *)
Example elements_fun_grid3 :
  elements_fun grid3 = [(1, 1); (2, 1); (1, 2); (2, 2)]%Z.
Proof. reflexivity. Qed.

Example hits_grid3_centre :
  hits grid3 1 1 = [(1, 1, 0); (2, 1, 1); (1, 2, 3); (2, 2, 2)]%Z.
Proof. reflexivity. Qed.

Example hits_grid3_edge : hits grid3 0 1 = [].
Proof. reflexivity. Qed.

Example hits_split_left :
  hits (mkInfo 5 5 0 0 3 5) 2 2 = [(2, 2, 0); (3, 2, 1); (2, 3, 3); (3, 3, 2)]%Z
  /\ hits (mkInfo 5 5 3 0 2 5) 2 2 = [].
Proof. split; reflexivity. Qed.

Example hits_split_right :
  hits (mkInfo 5 5 3 0 2 5) 3 2 = [(3, 2, 0); (4, 2, 1); (3, 3, 3); (4, 3, 2)]%Z
  /\ hits (mkInfo 5 5 0 0 3 5) 3 2 = [].
Proof. split; reflexivity. Qed.

(** C1: at an owned interior node the residual is the sum of the quadratures
    of the four elements that have the node as a corner, each at that corner
    and each once (the accumulations into the node are exactly these four);
    on a patch that does not own the node nothing is accumulated into it and
    its entry of FF is left as it was. *)
Theorem residual_sums_four_elements_once (info : DMDALocalInfo) (user : PLapCtx)
        (m : Mem) (P Q : Z) :
  (0 < P < mx info - 1)%Z -> (0 < Q < my info - 1)%Z ->
  (xs info <= P < xs info + xm info)%Z -> (ys info <= Q < ys info + ym info)%Z ->
  (exists m',
      FormFunctionLocal info user m = Done m'
      /\ hits info P Q = [(P, Q, 0%Z); ((P + 1)%Z, Q, 1%Z); (P, (Q + 1)%Z, 3%Z);
                          ((P + 1)%Z, (Q + 1)%Z, 2%Z)]
      /\ FF m' Q P = sum_list (corner_contrib info user (au m)) (hits info P Q)
      /\ FF m' Q P = corner_contrib info user (au m) (P, Q, 0%Z)
                     + corner_contrib info user (au m) ((P + 1)%Z, Q, 1%Z)
                     + corner_contrib info user (au m) (P, (Q + 1)%Z, 3%Z)
                     + corner_contrib info user (au m) ((P + 1)%Z, (Q + 1)%Z, 2%Z))
  /\ forall other : DMDALocalInfo,
      owned other P Q = false ->
      exists m',
        FormFunctionLocal other user m = Done m'
        /\ hits other P Q = [] /\ FF m' Q P = FF m Q P.
Proof.
  intros HP HQ HxP HyQ. split.
  - assert (Hacc : accumulates info P Q = true) by (apply accumulates_spec; lia).
    assert (Hown : owned info P Q = true) by (apply owned_spec; lia).
    assert (Hbd : on_boundary info P Q = false).
    { unfold on_boundary.
      repeat match goal with
             | |- context [(?a =? ?b)%Z] => destruct (Z.eqb_spec a b)
             end; cbn; try reflexivity; lia. }
    eexists. split; [reflexivity|].
    destruct (init_loop_spec info user m) as [Hau0 HFF0].
    destruct (element_loop_spec info user (init_loop info user m) P Q) as [_ HFF].
    rewrite Hau0 in HFF. rewrite HFF0, Hown, Hbd in HFF.
    assert (Hsum : FF (element_loop info user (init_loop info user m)) Q P
                   = sum_list (corner_contrib info user (au m)) (hits info P Q))
      by (rewrite HFF; lra).
    split; [apply hits_owned_interior; assumption|].
    split; [exact Hsum|].
    rewrite Hsum, hits_owned_interior by assumption.
    rewrite !sum_list_cons, sum_list_nil. lra.
  - intros other Hno.
    assert (Hacc : accumulates other P Q = false).
    { destruct (accumulates other P Q) eqn:E; [|reflexivity].
      apply accumulates_spec in E.
      assert (owned other P Q = true) by (apply owned_spec; lia). congruence. }
    eexists. split; [reflexivity|]. split; [apply hits_elsewhere; assumption|].
    destruct (init_loop_spec other user m) as [Hau0 HFF0].
    destruct (element_loop_spec other user (init_loop other user m) P Q) as [_ HFF].
    rewrite HFF, HFF0, Hno, hits_elsewhere, sum_list_nil by assumption. lra.
Qed.

(** At an owned boundary node the residual of the p-Laplacian is the boundary
    mismatch set by the first loop; the element loop does not touch it. *)
Lemma plap_boundary_residual (info : DMDALocalInfo) (user : PLapCtx) (m : Mem)
      (i j : Z) :
  on_boundary info i j = true -> owned info i j = true ->
  exists m',
    FormFunctionLocal info user m = Done m'
    /\ hits info i j = []
    /\ FF m' j i = au m j i - BoundaryG (IZR i * (1.0 / IZR (mx info - 1)))
                                        (IZR j * (1.0 / IZR (my info - 1)))
                                        (alpha user).
Proof.
  intros Hbd Hown.
  assert (Hacc : accumulates info i j = false).
  { destruct (accumulates info i j) eqn:E; [|reflexivity].
    apply accumulates_spec in E. unfold on_boundary in Hbd.
    rewrite !orb_true_iff, !Z.eqb_eq in Hbd. lia. }
  eexists. split; [reflexivity|]. split; [apply hits_elsewhere; assumption|].
  destruct (init_loop_spec info user m) as [Hau0 HFF0].
  destruct (element_loop_spec info user (init_loop info user m) i j) as [_ HFF].
  rewrite HFF, HFF0, Hown, Hbd, hits_elsewhere, sum_list_nil by assumption. lra.
Qed.

(** Neither callback writes to the iterate. *)
Lemma plap_function_keeps_iterate (info : DMDALocalInfo) (user : PLapCtx) (m : Mem) :
  exists m', FormFunctionLocal info user m = Done m' /\ au m' = au m.
Proof.
  eexists. split; [reflexivity|].
  destruct (init_loop_spec info user m) as [Hau0 _].
  destruct (element_loop_spec info user (init_loop info user m) 0 0) as [Hau _].
  congruence.
Qed.

Lemma plap_objective_keeps_iterate (info : DMDALocalInfo) (user : PLapCtx) (m : Mem) :
  exists m', FormObjectiveLocal info user m = Done m'
             /\ au m' = au m /\ FF m' = FF m.
Proof. eexists. split; [reflexivity|]. split; reflexivity. Qed.

End WithEnv.

Lemma residual_sums_four_elements_once_witness :
  exists m',
    @FormFunctionLocal sample_env grid3 sample_user sample_mem = Done m'
    /\ hits grid3 1 1 = [(1, 1, 0); (2, 1, 1); (1, 2, 3); (2, 2, 2)]%Z
    /\ FF m' 1%Z 1%Z
       = sum_list (@corner_contrib sample_env grid3 sample_user (au sample_mem))
                  (hits grid3 1 1).
Proof.
  destruct (@residual_sums_four_elements_once sample_env grid3 sample_user
              sample_mem 1 1) as [[m' [H1 [H2 [H3 _]]]] _];
    try (cbn; lia).
  exists m'. split; [exact H1|]. split; [exact H2 | exact H3].
Defined.

Lemma GetUorGElement_iterate_or_boundary_witness :
  idx 0 (@GetUorGElement sample_env grid3 1 1 (fun _ _ => 7) 0) 0 = 7
  /\ forall a' : array2,
       (forall P Q, on_boundary grid3 P Q = false -> a' Q P = 7) ->
       @GetUorGElement sample_env grid3 1 1 a' 0
       = @GetUorGElement sample_env grid3 1 1 (fun _ _ => 7) 0.
Proof.
  apply (@GetUorGElement_iterate_or_boundary sample_env grid3 (fun _ _ => 7) 0 1 1 0).
  - left. vm_compute. tauto.
  - lia.
Defined.

End PlapProofs.

(** ** Properties of the ice residual *)

Module IceProofs.
Import Ice.

Section WithEnv.
Context {env : Env}.

(** C4: for all gradients, thicknesses and either direction, the flux stored
    by SIAflux is -D dH/dx_i + W_i |Hup|^(n+2), with sigma, D and W as in the
    flux model. *)
Theorem SIAflux_is_model_flux (gH gb : Grad) (H Hup : R) (xdir D : bool)
        (user : AppCtx) :
  let sig := Gamma user
             * PetscPowReal ((Grad_x gH + Grad_x gb) * (Grad_x gH + Grad_x gb)
                             + (Grad_y gH + Grad_y gb) * (Grad_y gH + Grad_y gb)
                             + delta user * delta user)
                            ((n_ice user - 1) / 2) in
  let Dv := (1 - eps user) * sig * PetscPowReal (Rabs H) (n_ice user + 2)
            + eps user * D0 user in
  let Wx := - sig * Grad_x gb in
  let Wy := - sig * Grad_y gb in
  sigma gH gb user = sig
  /\ DCS (sigma gH gb user) H user = Dv
  /\ W (sigma gH gb user) gb = mkGrad Wx Wy
  /\ SIAflux gH gb H Hup xdir D true user
     = Some (if D then Some Dv else None,
             if xdir
             then - Dv * Grad_x gH + Wx * PetscPowReal (Rabs Hup) (n_ice user + 2)
             else - Dv * Grad_y gH + Wy * PetscPowReal (Rabs Hup) (n_ice user + 2)).
Proof.
  intros sig Dv Wx Wy.
  assert (Es : sigma gH gb user = sig).
  { unfold sigma, sig. do 3 f_equal. lra. }
  assert (Ed : DCS (sigma gH gb user) H user = Dv).
  { unfold DCS, Dv. rewrite Es.
    replace (n_ice user + 2.0) with (n_ice user + 2) by lra. lra. }
  assert (Ew : W (sigma gH gb user) gb = mkGrad Wx Wy).
  { unfold W. rewrite Es. reflexivity. }
  repeat split; try assumption.
  unfold SIAflux. rewrite Ed, Ew. cbn [Grad_x Grad_y].
  replace (n_ice user + 2.0) with (n_ice user + 2) by lra.
  destruct xdir, D; reflexivity.
Qed.

(** FormBedLocal stores the synthetic bed at the nodes of its loop that lie
    in [0,mx-1) x [0,my-1), and leaves every other entry as it finds it. *)
Lemma FormBedLocal_spec (info : DMDALocalInfo) (sw : Z) (ab0 : array2)
      (user : AppCtx) (k j : Z) :
  FormBedLocal info sw ab0 user k j
  = if ((ys info - sw <=? k) && (k <? ys info + ym info + sw)
        && (xs info - sw <=? j) && (j <? xs info + xm info + sw)
        && (0 <=? j) && (j <? mx info - 1) && (0 <=? k) && (k <? my info - 1))%Z
    then bed info user k j else ab0 k j.
Proof.
  unfold FormBedLocal, for_range. rewrite for_each_nested.
  match goal with |- context [for_each ?l ?b ab0] => set (l0 := l); set (body := b) end.
  destruct (write_loop (fun a : array2 => a) (fun _ => True) body
              (fun kj => negb ((snd kj <? 0) || (snd kj >=? mx info - 1)
                               || (fst kj <? 0) || (fst kj >=? my info - 1))%Z)
              (fun kj => bed info user (fst kj) (snd kj)) l0 ab0) as [_ Hw].
  - exact I.
  - intros [k0 j0] a' _ _. split; [exact I|]. intros k1 j1. subst body.
    cbn [fst snd].
    destruct ((j0 <? 0) || (j0 >=? mx info - 1) || (k0 <? 0)
              || (k0 >=? my info - 1))%Z; cbn [negb andb]; [reflexivity|].
    unfold upd. rewrite (Z.eqb_sym k0 k1), (Z.eqb_sym j0 j1). reflexivity.
  - destruct (Hw k j) as [H1 H2]. cbn [fst snd] in *.
    match goal with |- _ = if ?c then _ else _ => destruct c eqn:Ec end.
    + rewrite !andb_true_iff, !Z.leb_le, !Z.ltb_lt in Ec.
      apply H1.
      * subst l0. apply pairs_In. rewrite !zrange_In. lia.
      * rewrite negb_true_iff, !orb_false_iff, !Z.ltb_ge, !Z.geb_leb, !Z.leb_gt. lia.
    + apply H2. intros [Hin Hwr]. subst l0. apply pairs_In in Hin.
      rewrite !zrange_In in Hin.
      rewrite negb_true_iff, !orb_false_iff, !Z.ltb_ge, !Z.geb_leb, !Z.leb_gt in Hwr.
      assert (Ec' : ((ys info - sw <=? k) && (k <? ys info + ym info + sw)
                     && (xs info - sw <=? j) && (j <? xs info + xm info + sw)
                     && (0 <=? j) && (j <? mx info - 1) && (0 <=? k)
                     && (k <? my info - 1))%Z = true).
      { rewrite !andb_true_iff, !Z.leb_le, !Z.ltb_lt. lia. }
      congruence.
Qed.

(** C8 (what the code does): FormBedLocal never stores into the last column
    j = mx-1 nor the last row k = my-1, which it skips together with the
    nodes outside the grid; on the 3 x 3 grid the bed gradient of element
    (1,1), which the flux loop evaluates, is therefore built from the bed at
    node (1,1) and from three entries of the work vector as they were before
    the call, and it changes with them: a 1 left in ab[1][2] moves the x
    slope at the first flux point by 0.75/dx. *)
Theorem FormBedLocal_skips_last_row_and_column (info : DMDALocalInfo) (sw : Z)
        (ab0 : array2) (user : AppCtx) (k j : Z) (xi eta dx dy : R) :
  FormBedLocal info sw ab0 user k (mx info - 1)%Z = ab0 k (mx info - 1)%Z
  /\ FormBedLocal info sw ab0 user (my info - 1)%Z j = ab0 (my info - 1)%Z j
  /\ ((1 <? 0) || (1 >=? mx grid3 - 1) || (1 <? 0) || (1 >=? my grid3 - 1))%Z = false
  /\ gradfatptArray 1 1 xi eta dx dy (FormBedLocal grid3 1 ab0 user)
     = gradfatpt xi eta dx dy
         [bed grid3 user 1 1; ab0 1%Z 2%Z; ab0 2%Z 2%Z; ab0 2%Z 1%Z]
  /\ Grad_x (gradfatptArray 1 1 (idx 0 locx 0) (idx 0 locy 0) dx dy
                (FormBedLocal grid3 1 (upd (fun _ _ => 0) 1 2 1) user))
     - Grad_x (gradfatptArray 1 1 (idx 0 locx 0) (idx 0 locy 0) dx dy
                  (FormBedLocal grid3 1 (fun _ _ => 0) user))
     = 0.75 / dx.
Proof.
  split; [|split; [|split; [|split]]].
  - rewrite FormBedLocal_spec. rewrite (Z.ltb_irrefl (mx info - 1)).
    rewrite !andb_false_r. cbn [andb]. reflexivity.
  - rewrite FormBedLocal_spec. rewrite (Z.ltb_irrefl (my info - 1)).
    rewrite !andb_false_r. reflexivity.
  - reflexivity.
  - unfold gradfatptArray. rewrite !FormBedLocal_spec. reflexivity.
  - unfold gradfatptArray. rewrite !FormBedLocal_spec.
    change (1 + 1)%Z with 2%Z. cbn [grid3 mx my xs ys xm ym].
    cbn [Z.leb Z.ltb Z.compare Z.sub Z.add Z.opp Z.pos_sub Pos.compare
         Pos.compare_cont Pos.add Pos.succ Pos.pred_double andb].
    unfold gradfatpt, upd, gx, locx, locy. cbn [Grad_x]. eval_idx.
    cbn [Z.eqb Pos.eqb andb].
    set (b11 := bed grid3 user 1 1). unfold Rdiv. lra.
Qed.

Lemma owned_test (info : DMDALocalInfo) (k j : Z) :
  ((j >=? xs info) && (j <? xs info + xm info)
   && (k >=? ys info) && (k <? ys info + ym info))%Z = owned info j k.
Proof. unfold owned. rewrite !Z.geb_leb. reflexivity. Qed.

(** What one node of the copy loop does. *)
Lemma copy_node_cases (info : DMDALocalInfo) (user : AppCtx) (k0 j0 : Z) (m : Mem) :
  (~ in_grid info k0 j0 /\ copy_node info user k0 j0 m = Done m)
  \/ (in_grid info k0 j0 /\ check_admissible user = true /\ aHin m k0 j0 < 0
      /\ exists msg, copy_node info user k0 j0 m = Raised 1 msg m)
  \/ (in_grid info k0 j0
      /\ ~ (check_admissible user = true /\ aHin m k0 j0 < 0)
      /\ exists m',
          copy_node info user k0 j0 m = Done m'
          /\ aHin m' = aHin m /\ ab m' = ab m /\ aqquad m' = aqquad m
          /\ (forall k j,
                 FF m' k j
                 = if (k =? k0)%Z && (j =? j0)%Z && on_boundary info j0 k0
                      && owned info j0 k0
                   then aHin m k0 j0 else FF m k j)
          /\ (forall k j,
                 aH m' k j
                 = if (k =? k0)%Z && (j =? j0)%Z
                   then (if on_boundary info j0 k0 then 0.0 else aHin m k0 j0)
                   else aH m k j)).
Proof.
  unfold copy_node.
  destruct ((j0 <? 0) || (j0 >? mx info - 1) || (k0 <? 0)
            || (k0 >? my info - 1))%Z eqn:Eout.
  { left. split; [|reflexivity]. unfold in_grid.
    rewrite !orb_true_iff, !Z.ltb_lt, !Z.gtb_lt in Eout. lia. }
  assert (Hin : in_grid info k0 j0).
  { unfold in_grid.
    rewrite !orb_false_iff, !Z.ltb_ge, !Z.gtb_ltb, !Z.ltb_ge in Eout. lia. }
  right.
  destruct (check_admissible user && Rltb (aHin m k0 j0) 0.0) eqn:Echk.
  { left. apply andb_prop in Echk as [Ec En]. apply Rltb_true in En.
    split; [assumption|]. split; [assumption|]. split; [lra|].
    eexists. reflexivity. }
  right. split; [assumption|]. split.
  { intros [Ec En]. rewrite Ec in Echk. cbn in Echk.
    assert (Rltb (aHin m k0 j0) 0.0 = true) by (apply Rltb_true; lra).
    congruence. }
  fold (on_boundary info j0 k0). rewrite owned_test.
  destruct (on_boundary info j0 k0) eqn:Ebd.
  - destruct (owned info j0 k0) eqn:Eown; eexists; (split; [reflexivity|]);
      cbn [aHin ab aqquad FF aH store_FF store_aH]; repeat split;
      intros k j; unfold upd; rewrite ?andb_true_r, ?andb_false_r; reflexivity.
  - eexists. split; [reflexivity|].
    cbn [aHin ab aqquad FF aH store_FF store_aH]. repeat split.
    all: intros k j; unfold upd; rewrite ?andb_false_r; reflexivity.
Qed.

Lemma copy_loop_spec (info : DMDALocalInfo) (user : AppCtx) (m : Mem) :
  match copy_loop info user m with
  | Done m' => copy_inv info user m (patch_nodes info) m'
  | Raised c _ m' => copy_err info user m (patch_nodes info) c m'
  end.
Proof.
  unfold copy_loop, for_range_E. rewrite for_each_E_nested. fold (patch_nodes info).
  apply (for_each_E_ind _ (copy_inv info user m)
                        (fun c _ m' => copy_err info user m (patch_nodes info) c m')).
  - unfold copy_inv. repeat split; try reflexivity; intros k j []. 
  - intros done [k0 j0] rest m' El (Ha & Hb & Hq & Hn & Hf & Hi & Hh).
    cbn [fst snd].
    assert (Hin0 : In (k0, j0) (patch_nodes info)) by (rewrite El; apply in_elt).
    assert (Hsplit : forall k j, In (k, j) (done ++ [(k0, j0)]) ->
                                 In (k, j) done \/ (k = k0 /\ j = j0)).
    { intros k j H. apply in_app_or in H as [H|[H|[]]]; [now left|].
      inversion H; subst. now right. }
    destruct (copy_node_cases info user k0 j0 m')
      as [[Hout E]|[(Hg & Hc & Hneg & msg & E)|(Hg & Hok & m'' & E & Ha' & Hb' & Hq' & Hf' & Hh')]];
      rewrite E.
    + unfold copy_inv. repeat split; try assumption.
      * intros k j H Hgr. destruct (Hsplit k j H) as [H'|[-> ->]]; [auto|tauto].
      * intros k j H Hgr. destruct (Hsplit k j H) as [H'|[-> ->]]; [auto|tauto].
      * intros k j H Hgr. destruct (Hsplit k j H) as [H'|[-> ->]]; [auto|tauto].
    + unfold copy_err. repeat split; try assumption.
      exists k0, j0. rewrite <- Ha. auto.
    + unfold copy_inv. rewrite Ha', Hb', Hq'. repeat split; try assumption.
      * intros k j H Hgr. destruct (Hsplit k j H) as [H'|[-> ->]]; [auto|].
        rewrite <- Ha. assumption.
      * intros k j H Hgr Hbd Hown. rewrite Hf'.
        destruct ((k =? k0)%Z && (j =? j0)%Z) eqn:Eq; cbn [andb].
        -- apply andb_prop in Eq as [E1 E2]. apply Z.eqb_eq in E1, E2. subst.
           rewrite Hbd, Hown, Ha. reflexivity.
        -- destruct (Hsplit k j H) as [H'|[-> ->]]; [auto|].
           rewrite !Z.eqb_refl in Eq. discriminate.
      * intros k j Hbd. rewrite Hf'.
        destruct ((k =? k0)%Z && (j =? j0)%Z) eqn:Eq; cbn [andb].
        -- apply andb_prop in Eq as [E1 E2]. apply Z.eqb_eq in E1, E2. subst.
           rewrite Hbd. cbn [andb]. apply Hi. assumption.
        -- apply Hi. assumption.
      * intros k j H Hgr. rewrite Hh'.
        destruct ((k =? k0)%Z && (j =? j0)%Z) eqn:Eq.
        -- apply andb_prop in Eq as [E1 E2]. apply Z.eqb_eq in E1, E2. subst.
           rewrite Ha. reflexivity.
        -- destruct (Hsplit k j H) as [H'|[-> ->]]; [auto|].
           rewrite !Z.eqb_refl in Eq. discriminate.
Qed.

(** The copy loop that raises does so at the first node of the grid, in
    loop order, that holds a negative value: the nodes before it have been
    treated, and neither this node nor a later one has been touched. *)
Lemma copy_loop_raise_point (info : DMDALocalInfo) (user : AppCtx) (m : Mem) :
  match copy_loop info user m with
  | Done _ => True
  | Raised c _ m' =>
      exists done k0 j0 rest,
        patch_nodes info = done ++ (k0, j0) :: rest
        /\ c = 1%Z /\ check_admissible user = true
        /\ in_grid info k0 j0 /\ aHin m k0 j0 < 0
        /\ (forall k j, In (k, j) done -> in_grid info k j ->
                        ~ (check_admissible user = true /\ aHin m k j < 0))
        /\ aHin m' = aHin m
        /\ (forall k j, In (k, j) done -> in_grid info k j ->
                        on_boundary info j k = true -> owned info j k = true ->
                        FF m' k j = aHin m k j)
        /\ (forall k j, ~ (In (k, j) done /\ in_grid info k j
                           /\ on_boundary info j k = true /\ owned info j k = true) ->
                        FF m' k j = FF m k j)
        /\ (forall k j, In (k, j) done -> in_grid info k j ->
                        aH m' k j = if on_boundary info j k then 0.0 else aHin m k j)
        /\ (forall k j, ~ (In (k, j) done /\ in_grid info k j) ->
                        aH m' k j = aH m k j)
  end.
Proof.
  unfold copy_loop, for_range_E. rewrite for_each_E_nested. fold (patch_nodes info).
  set (P := fun (done : list (Z * Z)) (m' : Mem) =>
    (forall k j, In (k, j) done -> in_grid info k j ->
                 ~ (check_admissible user = true /\ aHin m k j < 0))
    /\ aHin m' = aHin m
    /\ (forall k j, In (k, j) done -> in_grid info k j ->
                    on_boundary info j k = true -> owned info j k = true ->
                    FF m' k j = aHin m k j)
    /\ (forall k j, ~ (In (k, j) done /\ in_grid info k j
                       /\ on_boundary info j k = true /\ owned info j k = true) ->
                    FF m' k j = FF m k j)
    /\ (forall k j, In (k, j) done -> in_grid info k j ->
                    aH m' k j = if on_boundary info j k then 0.0 else aHin m k j)
    /\ (forall k j, ~ (In (k, j) done /\ in_grid info k j) ->
                    aH m' k j = aH m k j)).
  pose proof (for_each_E_ind
                (fun kj s => copy_node info user (fst kj) (snd kj) s)
                P
                (fun c _ m' =>
                   exists done k0 j0 rest,
                     patch_nodes info = done ++ (k0, j0) :: rest
                     /\ c = 1%Z /\ check_admissible user = true
                     /\ in_grid info k0 j0 /\ aHin m k0 j0 < 0 /\ P done m')
                (patch_nodes info) m) as Hind.
  match type of Hind with
  | ?A -> ?B -> ?C => assert (HA : A); [|assert (HB : B); [|specialize (Hind HA HB)]]
  end.
  - unfold P. repeat split; try reflexivity; intros k j H; try tauto;
      contradiction.
  - intros done [k0 j0] rest m' El HP.
    destruct HP as (Hn & Ha & Hf1 & Hf2 & Hh1 & Hh2). cbn [fst snd].
    assert (Hsplit : forall k j, In (k, j) (done ++ [(k0, j0)]) ->
                                 In (k, j) done \/ (k = k0 /\ j = j0)).
    { intros k j H. apply in_app_or in H as [H|[H|[]]]; [now left|].
      inversion H; subst. now right. }
    assert (Hweak : forall k j, In (k, j) done -> In (k, j) (done ++ [(k0, j0)])).
    { intros k j H. apply in_or_app. now left. }
    assert (Hlast : In (k0, j0) (done ++ [(k0, j0)])).
    { apply in_or_app. right. now left. }
    destruct (copy_node_cases info user k0 j0 m')
      as [[Hout E]|[(Hg & Hc & Hneg & msg & E)
                   |(Hg & Hok & m'' & E & Ha' & _ & _ & Hf' & Hh')]];
      rewrite E.
    + unfold P. repeat split; try assumption.
      * intros k j H Hgr. destruct (Hsplit k j H) as [H'|[-> ->]]; [auto|tauto].
      * intros k j H Hgr. destruct (Hsplit k j H) as [H'|[-> ->]]; [auto|tauto].
      * intros k j H. apply Hf2. intros (H1 & H2). apply H. auto.
      * intros k j H Hgr. destruct (Hsplit k j H) as [H'|[-> ->]]; [auto|tauto].
      * intros k j H. apply Hh2. intros (H1 & H2). apply H. auto.
    + exists done, k0, j0, rest.
      split; [exact El|]. split; [reflexivity|]. split; [exact Hc|].
      split; [exact Hg|]. split; [rewrite <- Ha; exact Hneg|].
      unfold P. repeat split; assumption.
    + unfold P. rewrite Ha'. repeat split; try assumption.
      * intros k j H Hgr. destruct (Hsplit k j H) as [H'|[-> ->]]; [auto|].
        rewrite <- Ha. assumption.
      * intros k j H Hgr Hbd Hown. rewrite Hf'.
        destruct ((k =? k0)%Z && (j =? j0)%Z) eqn:Eq; cbn [andb].
        -- apply andb_prop in Eq as [E1 E2]. apply Z.eqb_eq in E1, E2. subst.
           rewrite Hbd, Hown, Ha. reflexivity.
        -- destruct (Hsplit k j H) as [H'|[-> ->]]; [auto|].
           rewrite !Z.eqb_refl in Eq. discriminate.
      * intros k j H. rewrite Hf'.
        destruct ((k =? k0)%Z && (j =? j0)%Z && on_boundary info j0 k0
                  && owned info j0 k0) eqn:Eq.
        -- exfalso. apply H.
           apply andb_prop in Eq as [Eq Eo]. apply andb_prop in Eq as [Eq Eb].
           apply andb_prop in Eq as [E1 E2]. apply Z.eqb_eq in E1, E2. subst.
           auto.
        -- apply Hf2. intros (H1 & H2). apply H. auto.
      * intros k j H Hgr. rewrite Hh'.
        destruct ((k =? k0)%Z && (j =? j0)%Z) eqn:Eq.
        -- apply andb_prop in Eq as [E1 E2]. apply Z.eqb_eq in E1, E2. subst.
           rewrite Ha. reflexivity.
        -- destruct (Hsplit k j H) as [H'|[-> ->]]; [auto|].
           rewrite !Z.eqb_refl in Eq. discriminate.
      * intros k j H. rewrite Hh'.
        destruct ((k =? k0)%Z && (j =? j0)%Z) eqn:Eq.
        -- exfalso. apply H.
           apply andb_prop in Eq as [E1 E2]. apply Z.eqb_eq in E1, E2. subst.
           auto.
        -- apply Hh2. intros (H1 & H2). apply H. auto.
  - destruct (for_each_E _ _ _) as [m'|c msg m']; [exact I|].
    destruct Hind as (done & k0 & j0 & rest & El & Hc & Hchk & Hg & Hneg & HP).
    destruct HP as (Hn & Ha & Hf1 & Hf2 & Hh1 & Hh2).
    exists done, k0, j0, rest.
    split; [exact El|]. split; [exact Hc|]. split; [exact Hchk|].
    split; [exact Hg|]. split; [exact Hneg|]. split; [exact Hn|].
    split; [exact Ha|]. split; [exact Hf1|]. split; [exact Hf2|].
    split; [exact Hh1|exact Hh2].
Qed.

Lemma patch_nodes_In (info : DMDALocalInfo) (k j : Z) :
  In (k, j) (patch_nodes info) /\ in_grid info k j <-> in_patch info k j.
Proof.
  unfold patch_nodes, in_grid, in_patch. rewrite pairs_In, !zrange_In. lia.
Qed.

Lemma bed_setup_frame (info : DMDALocalInfo) (user : AppCtx) (m : Mem) :
  aHin (bed_setup info user m) = aHin m /\ FF (bed_setup info user m) = FF m
  /\ aH (bed_setup info user m) = aH m
  /\ aqquad (bed_setup info user m) = aqquad m.
Proof. unfold bed_setup. destruct (verif user); repeat split. Qed.

Lemma flux_loop_frame (info : DMDALocalInfo) (user : AppCtx) (m : Mem) :
  aHin (flux_loop info user m) = aHin m /\ FF (flux_loop info user m) = FF m
  /\ aH (flux_loop info user m) = aH m /\ ab (flux_loop info user m) = ab m.
Proof.
  unfold flux_loop, for_range. rewrite for_each_nested.
  apply (for_each_ind _ (fun _ m' => aHin m' = aHin m /\ FF m' = FF m
                                     /\ aH m' = aH m /\ ab m' = ab m)).
  - repeat split.
  - intros done [k j] rest m' _ Hm'. cbn [fst snd]. unfold flux_element.
    destruct ((j <? 0) || (j >=? mx info - 1) || (k <? 0)
              || (k >=? my info - 1))%Z; [assumption|].
    unfold for_range.
    apply (for_each_ind _ (fun _ m'' => aHin m'' = aHin m /\ FF m'' = FF m
                                        /\ aH m'' = aH m /\ ab m'' = ab m)).
    + assumption.
    + intros done' c rest' m'' _ Hm''. unfold flux_point. cbv zeta.
      match goal with
      | |- context [match ?x with Some _ => _ | None => _ end] =>
          destruct x as [[? ?]|]
      end; assumption.
Qed.

(** The residual written at one interior node. *)
Lemma node_residual_spec (info : DMDALocalInfo) (user : AppCtx) (k0 j0 : Z)
      (m : Mem) :
  let m' := node_residual info user k0 j0 m in
  (aHin m' = aHin m /\ aH m' = aH m /\ ab m' = ab m /\ aqquad m' = aqquad m)
  /\ forall k j,
      FF m' k j
      = if negb (on_boundary info j0 k0) && (k0 =? k)%Z && (j0 =? j)%Z
        then - mass_balance info user k0 j0 m
               * (L user / IZR (mx info - 1)) * (L user / IZR (my info - 1))
             + cv_flux_sum info user (aqquad m) k0 j0
        else FF m k j.
Proof.
  intros m'. subst m'. unfold node_residual. fold (on_boundary info j0 k0).
  destruct (on_boundary info j0 k0); cbn [negb andb].
  { split; [repeat split|]. intros; reflexivity. }
  set (dx := L user / IZR (mx info - 1)). set (dy := L user / IZR (my info - 1)).
  set (m1 := store_FF k0 j0 (- mass_balance info user k0 j0 m * dx * dy) m).
  unfold for_range.
  match goal with |- context [for_each _ ?b m1] => set (body := b) end.
  destruct (accum_loop (fun m' => FF m' k0 j0)
              (fun m' => (aHin m' = aHin m /\ aH m' = aH m /\ ab m' = ab m
                          /\ aqquad m' = aqquad m)
                         /\ forall k j, (k, j) <> (k0, j0) -> FF m' k j = FF m k j)
              body (fun s => [s])
              (fun s => idx 0 (coeff info user) s
                        * aqquad m (idx 0%Z ce s) (k0 + idx 0%Z ke s)%Z
                                 (j0 + idx 0%Z je s)%Z)
              (zrange 0 8) m1) as [[Hfr Hoth] Hsum].
  - split; [repeat split|]. intros k j Hne. subst m1. cbn [FF store_FF].
    unfold upd. destruct ((k =? k0)%Z && (j =? j0)%Z) eqn:E; [|reflexivity].
    apply andb_prop in E as [E1 E2]. apply Z.eqb_eq in E1, E2. congruence.
  - intros s m' _ [(Ha & Hh & Hb & Hq) Ho]. subst body. cbn beta.
    split; [split; [repeat split; assumption|]|].
    + intros k j Hne. cbn [FF store_FF]. unfold upd.
      destruct ((k =? k0)%Z && (j =? j0)%Z) eqn:E; [|apply Ho; assumption].
      apply andb_prop in E as [E1 E2]. apply Z.eqb_eq in E1, E2. congruence.
    + cbn [FF store_FF]. unfold upd. rewrite !Z.eqb_refl. cbn [andb].
      rewrite Hq, sum_list_cons, sum_list_nil. lra.
  - split; [assumption|]. intros k j. rewrite flat_map_single in Hsum.
    destruct ((k0 =? k)%Z && (j0 =? j)%Z) eqn:E.
    + apply andb_prop in E as [E1 E2]. apply Z.eqb_eq in E1, E2. subst k j.
      rewrite Hsum. subst m1. cbn [FF store_FF]. unfold upd.
      rewrite !Z.eqb_refl. cbn [andb]. reflexivity.
    + apply Hoth. intros Eq. inversion Eq; subst. rewrite !Z.eqb_refl in E.
      discriminate.
Qed.

Lemma mass_balance_frame (info : DMDALocalInfo) (user : AppCtx) (k j : Z)
      (m m' : Mem) :
  aH m' = aH m -> ab m' = ab m ->
  mass_balance info user k j m' = mass_balance info user k j m.
Proof. intros Eh Eb. unfold mass_balance. rewrite Eh, Eb. reflexivity. Qed.

(** The node loop writes the flux balance at the owned interior nodes and
    nothing else. *)
Lemma node_loop_spec (info : DMDALocalInfo) (user : AppCtx) (m : Mem) :
  let m' := node_loop info user m in
  (aHin m' = aHin m /\ aH m' = aH m /\ ab m' = ab m /\ aqquad m' = aqquad m)
  /\ forall k j,
      FF m' k j
      = if owned info j k && negb (on_boundary info j k)
        then - mass_balance info user k j m
               * (L user / IZR (mx info - 1)) * (L user / IZR (my info - 1))
             + cv_flux_sum info user (aqquad m) k j
        else FF m k j.
Proof.
  intros m'. subst m'. unfold node_loop, for_range. rewrite for_each_nested.
  match goal with |- context [for_each ?l ?b m] => set (l0 := l); set (body := b) end.
  destruct (write_loop FF
              (fun m' => aHin m' = aHin m /\ aH m' = aH m /\ ab m' = ab m
                         /\ aqquad m' = aqquad m)
              body (fun kj => negb (on_boundary info (snd kj) (fst kj)))
              (fun kj => - mass_balance info user (fst kj) (snd kj) m
                           * (L user / IZR (mx info - 1))
                           * (L user / IZR (my info - 1))
                         + cv_flux_sum info user (aqquad m) (fst kj) (snd kj))
              l0 m) as [Hfr HFF].
  - repeat split.
  - intros [k0 j0] m' _ (Ha & Hh & Hb & Hq). subst body. cbn [fst snd].
    destruct (node_residual_spec info user k0 j0 m') as [(Ha' & Hh' & Hb' & Hq') Hw].
    split; [repeat split; congruence|].
    intros k j. rewrite Hw, Hq, (mass_balance_frame info user k0 j0 m m' Hh Hb).
    reflexivity.
  - split; [assumption|]. intros k j. destruct (HFF k j) as [H1 H2].
    cbn [fst snd] in *.
    destruct (owned info j k) eqn:Eo; cbn [andb].
    + apply owned_spec in Eo.
      assert (Hin : In (k, j) l0).
      { subst l0. apply pairs_In. rewrite !zrange_In. lia. }
      destruct (on_boundary info j k); cbn [negb].
      * apply H2. intros [_ Hc]. discriminate.
      * apply H1; [assumption | reflexivity].
    + apply H2. intros [Hin _]. subst l0. apply pairs_In in Hin.
      rewrite !zrange_In in Hin.
      assert (owned info j k = true) by (apply owned_spec; lia). congruence.
Qed.

(** The residual evaluation that returns: what it leaves in memory. *)
Lemma FormFunctionLocal_done (info : DMDALocalInfo) (user : AppCtx) (m m' : Mem) :
  FormFunctionLocal info user m = Done m' ->
  aHin m' = aHin m
  /\ (forall k j, in_patch info k j ->
                  ~ (check_admissible user = true /\ aHin m k j < 0))
  /\ (forall k j, in_patch info k j ->
                  on_boundary info j k = true -> owned info j k = true ->
                  FF m' k j = aHin m k j)
  /\ (forall k j, owned info j k = true -> on_boundary info j k = false ->
                  FF m' k j
                  = - mass_balance info user k j m'
                      * (L user / IZR (mx info - 1)) * (L user / IZR (my info - 1))
                    + cv_flux_sum info user (aqquad m') k j)
  /\ (forall k j, in_patch info k j ->
                  aH m' k j = if on_boundary info j k then 0.0 else aHin m k j).
Proof.
  unfold FormFunctionLocal. intros H.
  pose proof (copy_loop_spec info user m) as Hc.
  destruct (copy_loop info user m) as [m1|c msg m1]; [|discriminate].
  inversion H as [Em']. clear H.
  destruct Hc as (Ha1 & _ & _ & Hn1 & Hf1 & _ & Hh1).
  destruct (bed_setup_frame info user m1) as (Ha2 & Hf2 & Hh2 & _).
  set (m2 := bed_setup info user m1) in *.
  destruct (flux_loop_frame info user m2) as (Ha3 & Hf3 & Hh3 & _).
  set (m3 := flux_loop info user m2) in *.
  destruct (node_loop_spec info user m3) as [(Ha4 & Hh4 & Hb4 & Hq4) Hf4].
  cbv zeta in Ha4, Hh4, Hb4, Hq4, Hf4.
  set (m4 := node_loop info user m3) in *.
  split; [congruence|]. split; [|split; [|split]].
  - intros k j Hp. apply patch_nodes_In in Hp as [Hin Hg]. auto.
  - intros k j Hp Hbd Hown. apply patch_nodes_In in Hp as [Hin Hg].
    rewrite Hf4, Hbd, andb_false_r, Hf3, Hf2. auto.
  - intros k j Hown Hbd. rewrite Hf4, Hown, Hbd. cbn [negb andb].
    rewrite Hq4, (mass_balance_frame info user k j m3 m4 Hh4 Hb4). reflexivity.
  - intros k j Hp. apply patch_nodes_In in Hp as [Hin Hg].
    rewrite Hh4, Hh3, Hh2. auto.
Qed.

(** The residual evaluation that raises: it is the admissibility error, met
    in the copy loop, with no flux and no interior residual computed. *)
Lemma FormFunctionLocal_raised (info : DMDALocalInfo) (user : AppCtx) (m m' : Mem)
      (c : Z) (msg : string) :
  FormFunctionLocal info user m = Raised c msg m' ->
  c = 1%Z /\ aHin m' = aHin m /\ ab m' = ab m /\ aqquad m' = aqquad m
  /\ check_admissible user = true
  /\ (exists k j, in_patch info k j /\ aHin m k j < 0)
  /\ (forall k j, on_boundary info j k = false -> FF m' k j = FF m k j).
Proof.
  unfold FormFunctionLocal. intros H.
  pose proof (copy_loop_spec info user m) as Hc.
  destruct (copy_loop info user m) as [m1|c1 msg1 m1]; [discriminate|].
  inversion H; subst. destruct Hc as (E1 & E2 & E3 & E4 & E5 & (k & j & Hin & Hg & Hneg) & E7).
  repeat split; try assumption.
  exists k, j. split; [apply patch_nodes_In; tauto | assumption].
Qed.

End WithEnv.




Section Conservation.
Context {env : Env}.


Lemma FormFunctionLocal_returns (info : DMDALocalInfo) (user : AppCtx) (m : Mem) :
  check_admissible user = false
  \/ (forall k j, in_patch info k j -> 0 <= aHin m k j) ->
  exists m', FormFunctionLocal info user m = Done m'.
Proof.
  intros H. destruct (FormFunctionLocal info user m) as [m'|c msg m'] eqn:E.
  - exists m'. reflexivity.
  - apply FormFunctionLocal_raised in E
      as (_ & _ & _ & _ & Hchk & (k & j & Hp & Hneg) & _).
    destruct H as [H|H]; [congruence|]. specialize (H k j Hp). lra.
Qed.

(** The eight quadrature points of the control volume of node (j,k) = (2,3),
    as (flux point, element row, element column). *)
Example qpoints_of_node :
  map (qpoint 3 2) (zrange 0 8)
  = [(0, 3, 2); (3, 3, 2); (1, 3, 1); (0, 3, 1);
     (2, 2, 1); (1, 2, 1); (3, 2, 2); (2, 2, 2)]%Z.
Proof. reflexivity. Qed.

Example patch_nodes_grid3 :
  List.length (patch_nodes grid3) = 25%nat
  /\ jlo grid3 = 1%Z /\ jhi grid3 = 2%Z /\ klo grid3 = 1%Z /\ khi grid3 = 2%Z.
Proof. repeat split. Qed.


(** C5: with the admissibility check switched on, an iterate with a negative
    value at an owned or ghost node of the grid makes the residual evaluation
    raise the admissibility error, straight from the copy loop, at the first
    such node (k0,j0) in loop order. Nothing is computed from there on: the
    memory is the one the copy loop had reached, which holds the boundary
    residuals and the copies of the nodes before (k0,j0) and nothing else
    new. The residual and the copy at (k0,j0) and at every later node, every
    interior residual, the iterate, the bed and the flux cache are as they
    were before the call. And an iterate that is nowhere negative on the
    patch never raises the error. *)
Theorem admissibility_check_raises_iff_negative (info : DMDALocalInfo)
        (user : AppCtx) (m : Mem) :
  check_admissible user = true ->
  ((exists k j, in_patch info k j /\ aHin m k j < 0) ->
   exists msg m',
     FormFunctionLocal info user m = Raised 1 msg m'
     /\ ab m' = ab m /\ aqquad m' = aqquad m
     /\ (forall k j, on_boundary info j k = false -> FF m' k j = FF m k j)
     /\ aHin m' = aHin m
     /\ exists done k0 j0 rest,
         patch_nodes info = done ++ (k0, j0) :: rest
         /\ in_grid info k0 j0 /\ aHin m k0 j0 < 0
         /\ (forall k j, In (k, j) done -> in_grid info k j -> 0 <= aHin m k j)
         /\ (forall k j, In (k, j) ((k0, j0) :: rest) ->
                         FF m' k j = FF m k j /\ aH m' k j = aH m k j)
         /\ (forall k j, In (k, j) done -> in_grid info k j ->
                         on_boundary info j k = true -> owned info j k = true ->
                         FF m' k j = aHin m k j)
         /\ (forall k j, ~ (In (k, j) done /\ in_grid info k j
                            /\ on_boundary info j k = true
                            /\ owned info j k = true) ->
                         FF m' k j = FF m k j)
         /\ (forall k j, In (k, j) done -> in_grid info k j ->
                         aH m' k j
                         = if on_boundary info j k then 0.0 else aHin m k j)
         /\ (forall k j, ~ (In (k, j) done /\ in_grid info k j) ->
                         aH m' k j = aH m k j))
  /\ ((forall k j, in_patch info k j -> 0 <= aHin m k j) ->
      exists m', FormFunctionLocal info user m = Done m').
Proof.
  intros Hchk. split.
  - intros (k & j & Hp & Hneg).
    pose proof (copy_loop_raise_point info user m) as Hr.
    destruct (FormFunctionLocal info user m) as [m'|c msg m'] eqn:E.
    + destruct (FormFunctionLocal_done info user m m' E) as (_ & Hn & _).
      exfalso. apply (Hn k j Hp). auto.
    + pose proof E as E'.
      apply FormFunctionLocal_raised in E' as (-> & Ha & Hb & Hq & _ & _ & Hf).
      unfold FormFunctionLocal in E.
      destruct (copy_loop info user m) as [m1|c1 msg1 m1]; [discriminate|].
      inversion E; subst c1 msg1 m1. clear E.
      destruct Hr as (done & k0 & j0 & rest & El & _ & _ & Hg & Hn0 & Hn & _
                      & Hf1 & Hf2 & Hh1 & Hh2).
      assert (Hnd : NoDup (patch_nodes info)).
      { unfold patch_nodes. apply pairs_NoDup; apply zrange_NoDup. }
      rewrite El in Hnd.
      exists msg, m'. split; [reflexivity|]. split; [exact Hb|].
      split; [exact Hq|]. split; [exact Hf|]. split; [exact Ha|].
      exists done, k0, j0, rest. split; [exact El|]. split; [exact Hg|].
      split; [exact Hn0|]. split; [|split; [|split; [exact Hf1|split;
        [exact Hf2|split; [exact Hh1|exact Hh2]]]]].
      * intros k' j' Hin Hgr. apply Rnot_lt_le. intros Hlt.
        apply (Hn k' j' Hin Hgr). split; [exact Hchk|lra].
      * intros k' j' Hin.
        pose proof (NoDup_app_In_r done ((k0, j0) :: rest) (k', j') Hnd Hin) as Hnot.
        split; [apply Hf2 | apply Hh2]; tauto.
  - intros Hall. apply FormFunctionLocal_returns. now right.
Qed.

End Conservation.


Lemma admissibility_check_raises_iff_negative_witness :
  exists msg m',
    @FormFunctionLocal sample_env grid3 (sample_user true) (sample_mem hole_iterate)
    = Raised 1 msg m'
    /\ ab m' = ab (sample_mem hole_iterate)
    /\ aqquad m' = aqquad (sample_mem hole_iterate)
    /\ FF m' 0%Z 0%Z = 5 /\ FF m' 0%Z 2%Z = 5 /\ FF m' 1%Z 0%Z = 5
    /\ FF m' 1%Z 1%Z = 0 /\ FF m' 1%Z 2%Z = 0 /\ FF m' 2%Z 0%Z = 0
    /\ FF m' 2%Z 2%Z = 0
    /\ aH m' 1%Z 0%Z = 0.0 /\ aH m' 1%Z 1%Z = 0 /\ aH m' 2%Z 2%Z = 0.
Proof.
  destruct (@admissibility_check_raises_iff_negative sample_env grid3
              (sample_user true) (sample_mem hole_iterate) eq_refl) as [H _].
  destruct H as (msg & m' & E & Hb & Hq & _ & _ & done & k0 & j0 & rest
                 & El & _ & Hneg & _ & Hrest & Hf1 & _ & Hh1 & _).
  - exists 1%Z, 1%Z. split; [unfold in_patch; cbn; lia|].
    unfold sample_mem, hole_iterate. cbn. lra.
  - assert (E0 : k0 = 1%Z /\ j0 = 1%Z).
    { unfold sample_mem, hole_iterate in Hneg. cbn [aHin] in Hneg.
      destruct (Z.eqb_spec k0 1); destruct (Z.eqb_spec j0 1);
        cbn [andb] in Hneg; try lra. auto. }
    destruct E0 as [-> ->].
    assert (Ep : patch_nodes grid3
                 = [(-1, -1); (-1, 0); (-1, 1); (-1, 2); (-1, 3);
                    (0, -1); (0, 0); (0, 1); (0, 2); (0, 3);
                    (1, -1); (1, 0)]%Z
                   ++ (1, 1)%Z
                      :: [(1, 2); (1, 3);
                          (2, -1); (2, 0); (2, 1); (2, 2); (2, 3);
                          (3, -1); (3, 0); (3, 1); (3, 2); (3, 3)]%Z)
      by reflexivity.
    assert (Hnd : NoDup (patch_nodes grid3)).
    { unfold patch_nodes. apply pairs_NoDup; apply zrange_NoDup. }
    rewrite El in Ep. rewrite El in Hnd.
    destruct (NoDup_split_unique _ _ _ _ _ Hnd Ep) as [-> ->].
    assert (Hg : forall k j, (0 <= k <= 2)%Z -> (0 <= j <= 2)%Z -> in_grid grid3 k j).
    { intros k j Hk Hj. unfold in_grid. cbn. lia. }
    exists msg, m'. split; [exact E|]. split; [exact Hb|]. split; [exact Hq|].
    split; [|split; [|split; [|split; [|split; [|split; [|split;
      [|split; [|split]]]]]]]].
    + rewrite (Hf1 0 0)%Z; [reflexivity|cbn; tauto|apply Hg; lia|reflexivity
                            |reflexivity].
    + rewrite (Hf1 0 2)%Z; [reflexivity|cbn; tauto|apply Hg; lia|reflexivity
                            |reflexivity].
    + rewrite (Hf1 1 0)%Z; [reflexivity|cbn; tauto|apply Hg; lia|reflexivity
                            |reflexivity].
    + rewrite (proj1 (Hrest 1 1 ltac:(cbn; tauto)))%Z. reflexivity.
    + rewrite (proj1 (Hrest 1 2 ltac:(cbn; tauto)))%Z. reflexivity.
    + rewrite (proj1 (Hrest 2 0 ltac:(cbn; tauto)))%Z. reflexivity.
    + rewrite (proj1 (Hrest 2 2 ltac:(cbn; tauto)))%Z. reflexivity.
    + rewrite (Hh1 1 0)%Z; [reflexivity|cbn; tauto|apply Hg; lia].
    + rewrite (proj2 (Hrest 1 1 ltac:(cbn; tauto)))%Z. reflexivity.
    + rewrite (proj2 (Hrest 2 2 ltac:(cbn; tauto)))%Z. reflexivity.
Defined.

End IceProofs.

(** ** Properties shared by the two programs *)

Lemma CHKERRQ_zero {S : Type} (s : S) (rest : PetscResult S) :
  CHKERRQ 0 s rest = rest.
Proof. reflexivity. Qed.

Lemma CHKERRQ_nonzero {S : Type} (c : Z) (s : S) (rest : PetscResult S) :
  c <> 0%Z -> CHKERRQ c s rest = Raised c " " s.
Proof. intros H. unfold CHKERRQ. destruct (Z.eqb_spec c 0); [contradiction | reflexivity]. Qed.

Lemma CHKERRQ_ok {S : Type} (c : Z) (s : S) (rest : PetscResult S) :
  c = 0%Z -> CHKERRQ c s rest = rest.
Proof. intros ->. reflexivity. Qed.

Section BothPrograms.
Context {penv : Plap.Env} {ienv : Ice.Env}.

Lemma ConfigureCtx_outcome (db : Plap.Options) (user0 : Plap.PLapCtx) :
  let pv := Plap.PetscOptionsGet (Plap.opt_p db) 4.0 in
  let qd := Plap.PetscOptionsGet (Plap.opt_quaddegree db) 2%Z in
  let invalid := (exists c, In c (Plap.ierrs db) /\ c <> 0%Z)
                 \/ pv < 1 \/ ~ (qd = 1 \/ qd = 2 \/ qd = 3)%Z in
  ((exists c msg u, Plap.ConfigureCtx db user0 = Raised c msg u) <-> invalid)
  /\ ((exists u, Plap.ConfigureCtx db user0 = Done u
                 /\ Plap.p u = pv /\ Plap.quaddegree u = qd)
      <-> ~ invalid).
Proof.
  intros pv qd invalid.
  assert (Hcases :
    (invalid /\ exists c msg u, Plap.ConfigureCtx db user0 = Raised c msg u)
    \/ (~ invalid /\ exists u, Plap.ConfigureCtx db user0 = Done u
                               /\ Plap.p u = pv /\ Plap.quaddegree u = qd)).
  { subst invalid. unfold Plap.ConfigureCtx, Plap.ierrs.
    cbn [Plap.p Plap.eps Plap.quaddegree Plap.alpha]. fold pv qd.
    set (c0 := Plap.ierr_Begin db). set (c1 := ierr (Plap.opt_p db)).
    set (c2 := ierr (Plap.opt_eps db)). set (c3 := ierr (Plap.opt_quaddegree db)).
    set (c4 := Plap.ierr_End db).
    destruct (Z.eq_dec c0 0) as [E0|E0].
    2:{ left. split; [left; exists c0; cbn; auto|].
        rewrite CHKERRQ_nonzero by exact E0. eexists _, _, _. reflexivity. }
    rewrite E0, CHKERRQ_zero.
    destruct (Z.eq_dec c1 0) as [E1|E1].
    2:{ left. split; [left; exists c1; cbn; auto|].
        rewrite CHKERRQ_nonzero by exact E1. eexists _, _, _. reflexivity. }
    rewrite E1, CHKERRQ_zero.
    destruct (Rlt_dec pv 1.0) as [Hp|Hp].
    { left. split; [right; left; lra|]. eexists _, _, _. reflexivity. }
    destruct (Z.eq_dec c2 0) as [E2|E2].
    2:{ left. split; [left; exists c2; cbn; auto|].
        rewrite CHKERRQ_nonzero by exact E2. eexists _, _, _. reflexivity. }
    rewrite E2, CHKERRQ_zero.
    destruct (Z.eq_dec c3 0) as [E3|E3].
    2:{ left. split; [left; exists c3; cbn; auto 6|].
        rewrite CHKERRQ_nonzero by exact E3. eexists _, _, _. reflexivity. }
    rewrite E3, CHKERRQ_zero.
    destruct ((qd <? 1) || (qd >? 3))%Z eqn:Eq.
    { rewrite orb_true_iff, Z.ltb_lt, Z.gtb_lt in Eq.
      left. split; [right; right; lia|]. eexists _, _, _. reflexivity. }
    rewrite orb_false_iff, Z.ltb_ge, Z.gtb_ltb, Z.ltb_ge in Eq.
    destruct (Z.eq_dec c4 0) as [E4|E4].
    2:{ left. split; [left; exists c4; cbn; auto 7|].
        rewrite CHKERRQ_nonzero by exact E4. eexists _, _, _. reflexivity. }
    rewrite E4, CHKERRQ_zero.
    right. split.
    - intros [(c & Hin & Hc)|[H|H]]; [|lra|apply H; lia].
      cbn in Hin. intuition congruence.
    - eexists. split; [reflexivity|]. split; reflexivity. }
  destruct Hcases as [[Hi (c & msg & u & E)]|[Hn (u & E & Hu)]]; split; split.
  - intros _. exact Hi.
  - intros _. exists c, msg, u. exact E.
  - intros (u' & E' & _). rewrite E in E'. discriminate.
  - intros H. contradiction.
  - intros (c & msg & u' & E'). rewrite E in E'. discriminate.
  - intros H. contradiction.
  - intros _. exact Hn.
  - intros _. exists u. split; assumption.
Qed.


(** Taking the calls of the set-up in order: a call that returns an error
    ends it there; otherwise the set-up goes on. *)
Ltac option_call c :=
  destruct (Z.eq_dec c 0) as [?E|?E];
  [ rewrite (CHKERRQ_ok c) by assumption
  | left; split;
    [ left; exists c; split; [cbn; auto 20 | assumption]
    | rewrite (CHKERRQ_nonzero c) by assumption; eexists _, _, _; reflexivity ] ].

Lemma main_setup_outcome (db : Ice.Options) (Gamma0 : R) :
  let n := Ice.PetscOptionsGet (Ice.opt_n db) 3.0 in
  let invalid := (exists c, In c (Ice.ierrs_to_n db ++ Ice.ierrs_after_n db)
                            /\ c <> 0%Z)
                 \/ n <= 1 in
  ((exists c msg s, Ice.main_setup db Gamma0 = Raised c msg s) <-> invalid)
  /\ ((exists s, Ice.main_setup db Gamma0 = Done s /\ Ice.n_ice (Ice.user s) = n)
      <-> ~ invalid)
  /\ ((forall c, In c (Ice.ierrs_to_n db) -> c = 0%Z) -> n <= 1 ->
      exists s, Ice.main_setup db Gamma0
                = Raised 1 "ERROR: n = %f not allowed ... n > 1.0 is required" s).
Proof.
  intros n invalid.
  assert (Hcases :
    (invalid /\ exists c msg s, Ice.main_setup db Gamma0 = Raised c msg s)
    \/ (~ invalid /\ exists s, Ice.main_setup db Gamma0 = Done s
                               /\ Ice.n_ice (Ice.user s) = n)).
  { subst invalid. unfold Ice.main_setup, Ice.ierrs_to_n, Ice.ierrs_after_n.
    cbv zeta. fold n.
    option_call (Ice.ierr_Begin db).
    option_call (ierr (Ice.opt_A db)).
    option_call (ierr (Ice.opt_check_admissible db)).
    option_call (ierr (Ice.opt_D0 db)).
    option_call (ierr (Ice.opt_delta db)).
    option_call (ierr (Ice.opt_dump db)).
    option_call (ierr (Ice.opt_eps db)).
    option_call (ierr (Ice.opt_exact_init db)).
    option_call (ierr (Ice.opt_L db)).
    option_call (ierr (Ice.opt_lambda db)).
    option_call (ierr (Ice.opt_n db)).
    destruct (Rleb n 1.0) eqn:En.
    { apply Rleb_true in En. left. split; [right; lra|].
      eexists _, _, _. reflexivity. }
    assert (Hn : ~ n <= 1.0) by (rewrite <- Rleb_true; congruence).
    option_call (ierr (Ice.opt_rho db)).
    option_call (ierr (Ice.opt_verif db)).
    option_call (Ice.ierr_End db).
    right. split.
    - intros [(c & Hin & Hc)|H]; [|lra].
      cbn in Hin. intuition congruence.
    - eexists. split; reflexivity. }
  split; [|split].
  - destruct Hcases as [[Hi (c & msg & s & E)]|[Hn (s & E & Hs)]]; split.
    + intros _. exact Hi.
    + intros _. exists c, msg, s. exact E.
    + intros (c & msg & s' & E'). rewrite E in E'. discriminate.
    + intros H. contradiction.
  - destruct Hcases as [[Hi (c & msg & s & E)]|[Hn (s & E & Hs)]]; split.
    + intros (s' & E' & _). rewrite E in E'. discriminate.
    + intros H. contradiction.
    + intros _. exact Hn.
    + intros _. exists s. split; assumption.
  - intros Hok Hle. unfold Ice.main_setup. cbv zeta. fold n.
    rewrite !CHKERRQ_ok by (apply Hok; unfold Ice.ierrs_to_n; cbn; auto 20).
    assert (En : Rleb n 1.0 = true) by (apply Rleb_true; lra).
    rewrite En. eexists. reflexivity.
Qed.

(** C9 (amended): configuration errors are raised by the set-up and by
    nothing else. ConfigureCtx fails exactly when one of its five calls of
    the options interface returns an error (a malformed option value makes
    its query do so) or p < 1 or the quadrature degree is not 1, 2 or 3, and
    succeeds with these values otherwise; hence, when every call of the
    options interface succeeds, it fails exactly when p < 1 or the degree is
    not 1, 2 or 3. The option set-up of ice fails exactly when one of its
    calls returns an error or n <= 1, and when the calls up to the query of n
    succeed and n <= 1 it is with code 1 and the message about n. The
    p-Laplacian objective and residual return normally whatever p and the
    degree are, and the only error of the ice residual is the admissibility
    error, whatever n is. *)
Theorem configuration_errors_at_setup_only :
  (forall (db : Plap.Options) (user0 : Plap.PLapCtx),
      let pv := Plap.PetscOptionsGet (Plap.opt_p db) 4.0 in
      let qd := Plap.PetscOptionsGet (Plap.opt_quaddegree db) 2%Z in
      let invalid := (exists c, In c (Plap.ierrs db) /\ c <> 0%Z)
                     \/ pv < 1 \/ ~ (qd = 1 \/ qd = 2 \/ qd = 3)%Z in
      ((exists c msg u, Plap.ConfigureCtx db user0 = Raised c msg u) <-> invalid)
      /\ ((exists u, Plap.ConfigureCtx db user0 = Done u
                     /\ Plap.p u = pv /\ Plap.quaddegree u = qd)
          <-> ~ invalid)
      /\ ((forall c, In c (Plap.ierrs db) -> c = 0%Z) ->
          ((exists c msg u, Plap.ConfigureCtx db user0 = Raised c msg u)
           <-> (pv < 1 \/ ~ (qd = 1 \/ qd = 2 \/ qd = 3)%Z))))
  /\ (forall (db : Ice.Options) (Gamma0 : R),
         let n := Ice.PetscOptionsGet (Ice.opt_n db) 3.0 in
         let invalid := (exists c, In c (Ice.ierrs_to_n db ++ Ice.ierrs_after_n db)
                                   /\ c <> 0%Z)
                        \/ n <= 1 in
         ((exists c msg s, Ice.main_setup db Gamma0 = Raised c msg s) <-> invalid)
         /\ ((exists s, Ice.main_setup db Gamma0 = Done s
                        /\ Ice.n_ice (Ice.user s) = n) <-> ~ invalid)
         /\ ((forall c, In c (Ice.ierrs_to_n db) -> c = 0%Z) -> n <= 1 ->
             exists s,
               Ice.main_setup db Gamma0
               = Raised 1 "ERROR: n = %f not allowed ... n > 1.0 is required" s))
  /\ (forall (info : DMDALocalInfo) (user : Plap.PLapCtx) (m : Plap.Mem),
         (exists m', Plap.FormFunctionLocal info user m = Done m')
         /\ (exists m', Plap.FormObjectiveLocal info user m = Done m'))
  /\ (forall (info : DMDALocalInfo) (user : Ice.AppCtx) (m m' : Ice.Mem)
             (c : Z) (msg : string),
         Ice.FormFunctionLocal info user m = Raised c msg m' ->
         c = 1%Z /\ Ice.check_admissible user = true
         /\ exists k j, Ice.in_patch info k j /\ Ice.aHin m k j < 0).
Proof.
  split; [|split; [exact main_setup_outcome|split]].
  - intros db user0 pv qd invalid.
    destruct (ConfigureCtx_outcome db user0) as [Hr Hd].
    fold pv qd invalid in Hr, Hd. split; [exact Hr|]. split; [exact Hd|].
    intros Hok. rewrite Hr. subst invalid. split.
    + intros [(c & Hin & Hc)|H]; [|exact H]. exfalso. apply Hc, Hok, Hin.
    + intros H. right. exact H.
  - intros info user m. split; eexists; reflexivity.
  - intros info user m m' c msg E.
    apply IceProofs.FormFunctionLocal_raised in E
      as (Hc & _ & _ & _ & Hchk & Hneg & _).
    auto.
Qed.

(** C3: at an owned node of the global boundary the residual is exactly
    u - g for the p-Laplacian, for every iterate, the element loop
    accumulating nothing there; and the residual returned by the ice
    residual is exactly H - 0 there. *)
Theorem boundary_residual_exact (info : DMDALocalInfo) (i j : Z) :
  valid_info info -> on_boundary info i j = true -> owned info i j = true ->
  (forall (user : Plap.PLapCtx) (m : Plap.Mem),
      exists m',
        Plap.FormFunctionLocal info user m = Done m'
        /\ Plap.hits info i j = []
        /\ Plap.FF m' j i
           = Plap.au m j i
             - Plap.BoundaryG (IZR i * (1.0 / IZR (mx info - 1)))
                              (IZR j * (1.0 / IZR (my info - 1)))
                              (Plap.alpha user))
  /\ (forall (user : Ice.AppCtx) (m : Ice.Mem),
         (forall m', Ice.FormFunctionLocal info user m = Done m' ->
                     Ice.FF m' j i = Ice.aHin m j i - 0)
         /\ (Ice.check_admissible user = false
             \/ (forall k' j', Ice.in_patch info k' j' -> 0 <= Ice.aHin m k' j') ->
             exists m', Ice.FormFunctionLocal info user m = Done m')).
Proof.
  intros Hv Hbd Hown. split.
  - intros user m. apply PlapProofs.plap_boundary_residual; assumption.
  - intros user m. split.
    + intros m' E.
      destruct (IceProofs.FormFunctionLocal_done info user m m' E)
        as (_ & _ & Hb & _).
      rewrite (Hb j i); [lra| |assumption|assumption].
      apply owned_spec in Hown. unfold valid_info in Hv. unfold Ice.in_patch. lia.
    + apply IceProofs.FormFunctionLocal_returns.
Qed.

(** C6: no residual or objective evaluation changes its input iterate: the
    array au (aHin for ice) is the same after the call, also when the ice
    residual raises; the ice residual puts the zero boundary values in its
    copy aH only. *)
Theorem evaluations_keep_input_iterate (info : DMDALocalInfo) :
  (forall (user : Plap.PLapCtx) (m : Plap.Mem),
      (exists m', Plap.FormObjectiveLocal info user m = Done m'
                  /\ Plap.au m' = Plap.au m /\ Plap.FF m' = Plap.FF m)
      /\ (exists m', Plap.FormFunctionLocal info user m = Done m'
                     /\ Plap.au m' = Plap.au m))
  /\ (forall (user : Ice.AppCtx) (m : Ice.Mem),
         match Ice.FormFunctionLocal info user m with
         | Done m' =>
             Ice.aHin m' = Ice.aHin m
             /\ forall k j, Ice.in_patch info k j ->
                            Ice.aH m' k j
                            = if on_boundary info j k then 0 else Ice.aHin m k j
         | Raised _ _ m' => Ice.aHin m' = Ice.aHin m
         end).
Proof.
  split.
  - intros user m. split.
    + apply PlapProofs.plap_objective_keeps_iterate.
    + apply PlapProofs.plap_function_keeps_iterate.
  - intros user m.
    destruct (Ice.FormFunctionLocal info user m) as [m'|c msg m'] eqn:E.
    + destruct (IceProofs.FormFunctionLocal_done info user m m' E)
        as (Ha & _ & _ & _ & Hh).
      split; [assumption|]. intros k j Hp. rewrite (Hh k j Hp).
      destruct (on_boundary info j k); [lra | reflexivity].
    + apply IceProofs.FormFunctionLocal_raised in E as (_ & Ha & _). assumption.
Qed.

End BothPrograms.

Lemma configuration_errors_at_setup_only_witness :
  exists c msg u,
    Plap.ConfigureCtx (Plap.options_ok (Some 0.5) None None) Plap.sample_user
    = Raised c msg u.
Proof.
  apply (proj1 (proj1 (@configuration_errors_at_setup_only Plap.sample_env
                         Ice.sample_env)
                      (Plap.options_ok (Some 0.5) None None) Plap.sample_user)).
  right. left. cbn. lra.
Defined.

(** C9 as it is stated fails on a malformed option: with [-plap_eps] given a
    value that is no number, p and the degree keep their valid defaults 4
    and 2, and ConfigureCtx fails all the same, at the CHKERRQ after the
    query. *)
Lemma ConfigureCtx_fails_on_malformed_option :
  ~ ((exists c msg u,
         Plap.ConfigureCtx Plap.options_malformed_eps Plap.sample_user
         = Raised c msg u)
     <-> (Plap.PetscOptionsGet (Plap.opt_p Plap.options_malformed_eps) 4.0 < 1
          \/ ~ (Plap.PetscOptionsGet
                  (Plap.opt_quaddegree Plap.options_malformed_eps) 2 = 1
                \/ Plap.PetscOptionsGet
                     (Plap.opt_quaddegree Plap.options_malformed_eps) 2 = 2
                \/ Plap.PetscOptionsGet
                     (Plap.opt_quaddegree Plap.options_malformed_eps) 2 = 3)%Z)).
Proof.
  intros [H _].
  assert (E : exists c msg u,
             Plap.ConfigureCtx Plap.options_malformed_eps Plap.sample_user
             = Raised c msg u).
  { unfold Plap.ConfigureCtx, Plap.options_malformed_eps, Plap.PetscOptionsGet.
    cbn. destruct (Rlt_dec 4.0 1.0) as [Hp|Hp]; [exfalso; lra|].
    eexists _, _, _. reflexivity. }
  destruct (H E) as [Hp|Hq].
  - cbn in Hp. lra.
  - apply Hq. cbn. right. left. reflexivity.
Qed.

Lemma boundary_residual_exact_witness :
  (exists m',
      @Plap.FormFunctionLocal Plap.sample_env grid3 Plap.sample_user Plap.sample_mem
      = Done m'
      /\ Plap.FF m' 0%Z 1%Z
         = Plap.au Plap.sample_mem 0%Z 1%Z
           - @Plap.BoundaryG Plap.sample_env
               (IZR 1 * (1.0 / IZR (mx grid3 - 1)))
               (IZR 0 * (1.0 / IZR (my grid3 - 1)))
               (Plap.alpha Plap.sample_user))
  /\ exists m',
      @Ice.FormFunctionLocal Ice.sample_env grid3 (Ice.sample_user false)
                             (Ice.sample_mem (fun _ _ => 1)) = Done m'
      /\ Ice.FF m' 0%Z 1%Z = 1 - 0.
Proof.
  destruct (@boundary_residual_exact Plap.sample_env Ice.sample_env grid3 1 0)
    as [Hp Hi].
  - unfold valid_info. cbn. lia.
  - reflexivity.
  - reflexivity.
  - split.
    + destruct (Hp Plap.sample_user Plap.sample_mem) as (m' & E & _ & Hf).
      exists m'. split; assumption.
    + destruct (Hi (Ice.sample_user false) (Ice.sample_mem (fun _ _ => 1)))
        as [Hd Hr].
      destruct (Hr (or_introl eq_refl)) as [m' E].
      exists m'. split; [exact E|]. apply (Hd m' E).
Defined.

Lemma evaluations_keep_input_iterate_witness :
  exists m',
    @Plap.FormFunctionLocal Plap.sample_env grid3 Plap.sample_user Plap.sample_mem
    = Done m'
    /\ Plap.au m' = Plap.au Plap.sample_mem.
Proof.
  apply (proj1 (@evaluations_keep_input_iterate Plap.sample_env Ice.sample_env grid3)
               Plap.sample_user Plap.sample_mem).
Defined.

(** ** Further properties of the p-Laplacian program *)

Module PlapExtra.
Import Plap.

Section WithEnv.
Context {env : Env}.

Lemma eval_unfold (v0 v1 v2 v3 xi eta : R) :
  eval [v0; v1; v2; v3] xi eta
  = 0.0 + v0 * chi 0 xi eta + v1 * chi 1 xi eta + v2 * chi 2 xi eta
    + v3 * chi 3 xi eta.
Proof. reflexivity. Qed.

Lemma deval_unfold (v0 v1 v2 v3 xi eta : R) :
  deval [v0; v1; v2; v3] xi eta
  = mkGradRef (0.0 + v0 * g_xi (dchi 0 xi eta) + v1 * g_xi (dchi 1 xi eta)
               + v2 * g_xi (dchi 2 xi eta) + v3 * g_xi (dchi 3 xi eta))
              (0.0 + v0 * g_eta (dchi 0 xi eta) + v1 * g_eta (dchi 1 xi eta)
               + v2 * g_eta (dchi 2 xi eta) + v3 * g_eta (dchi 3 xi eta)).
Proof. reflexivity. Qed.

(** X1: on the reference element, eval returns the nodal value v[M] at the
    corner M, and between the corners it is bilinear: affine in xi for fixed
    eta (the value at the midpoint of two points with the same eta is the
    mean of the values). *)
Theorem eval_interpolates (v0 v1 v2 v3 : R) (M : Z) (xi xi' eta : R) :
  (0 <= M < 4)%Z ->
  eval [v0; v1; v2; v3] (idx 0 xiL M) (idx 0 etaL M) = idx 0 [v0; v1; v2; v3] M
  /\ eval [v0; v1; v2; v3] ((xi + xi') / 2) eta
     = (eval [v0; v1; v2; v3] xi eta + eval [v0; v1; v2; v3] xi' eta) / 2.
Proof.
  intros HM. split.
  - rewrite eval_unfold.
    destruct (PlapProofs.four_cases M HM) as [->|[->|[->| ->]]];
      unfold chi, xiL, etaL; eval_idx; lra.
  - rewrite !eval_unfold. unfold chi, xiL, etaL. eval_idx. lra.
Qed.

(** X2: nodal values that are all equal to c give the value c and a zero
    reference gradient everywhere on the element, so the gradient inner
    product with anything vanishes. *)
Theorem constant_field_has_zero_gradient (info : DMDALocalInfo) (c xi eta : R)
        (dv : gradRef) :
  eval [c; c; c; c] xi eta = c
  /\ deval [c; c; c; c] xi eta = mkGradRef 0 0
  /\ GradInnerProd info (deval [c; c; c; c] xi eta) dv = 0.
Proof.
  assert (Hd : deval [c; c; c; c] xi eta = mkGradRef 0 0).
  { rewrite deval_unfold. unfold dchi, xiL, etaL. eval_idx. cbn [g_xi g_eta].
    f_equal; lra. }
  split; [|split].
  - rewrite eval_unfold. unfold chi, xiL, etaL. eval_idx. lra.
  - exact Hd.
  - rewrite Hd. unfold GradInnerProd. cbn [g_xi g_eta]. lra.
Qed.

(** X3: for every quadrature degree n = 1, 2, 3 the entries of the tables
    that the loops read (r < n) are proper ones, whatever the filler NAN is:
    the weights are positive, the nodes lie strictly inside (-1,1), nodes
    and weights are symmetric about 0, and the weights sum to the length 2
    of the reference interval up to 1e-15. *)
Theorem quadrature_tables_are_gauss_rules (n r : Z) :
  (1 <= n <= 3)%Z -> (0 <= r < n)%Z ->
  0 < idx2 wq (n - 1) r
  /\ -1 < idx2 zq (n - 1) r < 1
  /\ idx2 zq (n - 1) (n - 1 - r) = - idx2 zq (n - 1) r
  /\ idx2 wq (n - 1) (n - 1 - r) = idx2 wq (n - 1) r
  /\ Rabs (rsum 0 n (fun r => idx2 wq (n - 1) r) - 2) <= 1e-15.
Proof.
  intros Hn Hr.
  assert (Hc : ((n = 1 /\ r = 0) \/ (n = 2 /\ (r = 0 \/ r = 1))
                \/ (n = 3 /\ (r = 0 \/ r = 1 \/ r = 2)))%Z) by lia.
  destruct Hc as [[-> ->]|[[-> [->| ->]]|[-> [->|[->| ->]]]]];
    unfold rsum;
    repeat match goal with
           | |- context [zrange ?a ?b] =>
               let v := eval vm_compute in (zrange a b) in
               change (zrange a b) with v
           end;
    rewrite ?sum_list_cons, ?sum_list_nil;
    unfold idx2, wq, zq;
    repeat match goal with
           | |- context [(?a - ?b)%Z] =>
               let v := eval vm_compute in (a - b)%Z in
               change (a - b)%Z with v
           end;
    eval_idx;
    (split; [lra|]); (split; [lra|]); (split; [lra|]); (split; [lra|]);
    apply Rabs_le; lra.
Qed.

(** X4: on a grid with at least two nodes each way the gradient inner
    product is symmetric and nonnegative on the diagonal, so GradPow never
    raises a negative number to a power: its base is at least eps^2. *)
Theorem GradPow_base_nonnegative (info : DMDALocalInfo) (du dv : gradRef)
        (P eps : R) :
  (2 <= mx info)%Z -> (2 <= my info)%Z ->
  GradInnerProd info du dv = GradInnerProd info dv du
  /\ 0 <= GradInnerProd info du du
  /\ exists base,
      GradPow info du P eps = PetscPowScalar base (P / 2.0)
      /\ 0 <= eps * eps <= base.
Proof.
  intros Hx Hy.
  assert (Hpos : forall n, (2 <= n)%Z -> 0 < 4.0 / (1.0 / IZR (n - 1) * (1.0 / IZR (n - 1)))).
  { intros n Hn. assert (0 < IZR (n - 1)) by (apply IZR_lt; lia).
    assert (0 < 1.0 / IZR (n - 1)) by (apply Rdiv_lt_0_compat; lra).
    apply Rdiv_lt_0_compat; [lra|]. apply Rmult_lt_0_compat; assumption. }
  assert (Hnn : 0 <= GradInnerProd info du du).
  { unfold GradInnerProd. pose proof (Hpos _ Hx). pose proof (Hpos _ Hy).
    set (cx := 4.0 / _) in *. set (cy := 4.0 / _) in *.
    pose proof (Rle_0_sqr (g_xi du)). pose proof (Rle_0_sqr (g_eta du)).
    unfold Rsqr in *. nra. }
  split; [unfold GradInnerProd; lra|]. split; [exact Hnn|].
  eexists. split; [reflexivity|]. pose proof (Rle_0_sqr eps). unfold Rsqr in *. lra.
Qed.

(** X5: away from the lines x + alpha = 0 and y + alpha = 0, where the
    source term divides by zero, it is symmetric in x and y; and for p = 2,
    with a pow that returns 1 for exponent 0, it is minus the Laplacian of
    UExact, that is -((x+alpha)^2 + (y+alpha)^2). *)
Theorem FRHS_symmetric_and_laplacian_at_p2 (x y pp al : R) :
  x + al <> 0 -> y + al <> 0 ->
  (forall z, PetscPowScalar z 0 = 1) ->
  (x + al) * (x + al) + (y + al) * (y + al) <> 0
  /\ FRHS x y pp al = FRHS y x pp al
  /\ FRHS x y 2.0 al = - ((x + al) * (x + al) + (y + al) * (y + al)).
Proof.
  intros Hx Hy Hpow. split.
  { pose proof (Rle_0_sqr (y + al)) as Hsq.
    assert (0 < (x + al) * (x + al)) by (apply Rsqr_pos_lt; exact Hx).
    unfold Rsqr in Hsq. lra. }
  split.
  - unfold FRHS.
    replace ((y + al) * (y + al) * ((x + al) * (x + al))
             * ((y + al) * (y + al) + (x + al) * (x + al)))
      with ((x + al) * (x + al) * ((y + al) * (y + al))
            * ((x + al) * (x + al) + (y + al) * (y + al))) by ring.
    replace ((y + al) * (y + al) + (x + al) * (x + al))
      with ((x + al) * (x + al) + (y + al) * (y + al)) by ring.
    set (C := PetscPowScalar _ _). set (D2 := (x + al) * (x + al) + _).
    unfold Rdiv. set (ix := / (x + al)). set (iy := / (y + al)). set (id := / D2).
    lra.
  - unfold FRHS. replace ((2.0 - 2.0) / 2.0) with 0 by lra. rewrite Hpow.
    set (G := _ * (x + al) * _ + _). lra.
Qed.

End WithEnv.

Lemma ConfigureCtx_error_codes_aux (db : Options) (user0 u : PLapCtx) (c : Z)
      (msg : string) :
  ConfigureCtx db user0 = Raised c msg u ->
  let pv := PetscOptionsGet (opt_p db) 4.0 in
  let ev := PetscOptionsGet (opt_eps db) 0.0 in
  let qd := PetscOptionsGet (opt_quaddegree db) 2%Z in
  c <> 0%Z /\ alpha u = alpha user0
  /\ ((exists pre post, ierrs db = pre ++ c :: post
                         /\ forall c', In c' pre -> c' = 0%Z)
      \/ (msg = "p >= 1 required"%string /\ c = 1%Z /\ pv < 1
          /\ ierr_Begin db = 0%Z /\ ierr (opt_p db) = 0%Z
          /\ u = mkCtx pv 0.0 2 (alpha user0))
      \/ (msg = "quadrature degree n=1,2,3 only"%string /\ c = 2%Z /\ 1 <= pv
          /\ (qd < 1 \/ 3 < qd)%Z
          /\ ierr_Begin db = 0%Z /\ ierr (opt_p db) = 0%Z
          /\ ierr (opt_eps db) = 0%Z /\ ierr (opt_quaddegree db) = 0%Z
          /\ u = mkCtx pv ev qd (alpha user0))).
Proof.
  intros E pv ev qd. unfold ConfigureCtx, ierrs in *.
  cbn [p eps quaddegree alpha] in E. fold pv ev qd in E.
  set (c0 := ierr_Begin db) in *. set (c1 := ierr (opt_p db)) in *.
  set (c2 := ierr (opt_eps db)) in *. set (c3 := ierr (opt_quaddegree db)) in *.
  set (c4 := ierr_End db) in *.
  destruct (Z.eq_dec c0 0) as [E0|E0].
  2:{ rewrite CHKERRQ_nonzero in E by exact E0. inversion E; subst c msg u.
      split; [exact E0|]. split; [reflexivity|]. left.
      exists [], [c1; c2; c3; c4]. split; [reflexivity|]. intros c' []. }
  rewrite (CHKERRQ_ok c0) in E by exact E0.
  destruct (Z.eq_dec c1 0) as [E1|E1].
  2:{ rewrite CHKERRQ_nonzero in E by exact E1. inversion E; subst c msg u.
      split; [exact E1|]. split; [reflexivity|]. left.
      exists [c0], [c2; c3; c4]. split; [reflexivity|].
      intros c' Hin. cbn in Hin. intuition congruence. }
  rewrite (CHKERRQ_ok c1) in E by exact E1.
  destruct (Rlt_dec pv 1.0) as [Hp|Hp].
  { inversion E; subst c msg u. split; [discriminate|]. split; [reflexivity|].
    right. left. repeat split; try assumption. lra. }
  destruct (Z.eq_dec c2 0) as [E2|E2].
  2:{ rewrite CHKERRQ_nonzero in E by exact E2. inversion E; subst c msg u.
      split; [exact E2|]. split; [reflexivity|]. left.
      exists [c0; c1], [c3; c4]. split; [reflexivity|].
      intros c' Hin. cbn in Hin. intuition congruence. }
  rewrite (CHKERRQ_ok c2) in E by exact E2.
  destruct (Z.eq_dec c3 0) as [E3|E3].
  2:{ rewrite CHKERRQ_nonzero in E by exact E3. inversion E; subst c msg u.
      split; [exact E3|]. split; [reflexivity|]. left.
      exists [c0; c1; c2], [c4]. split; [reflexivity|].
      intros c' Hin. cbn in Hin. intuition congruence. }
  rewrite (CHKERRQ_ok c3) in E by exact E3.
  destruct ((qd <? 1) || (qd >? 3))%Z eqn:Eq.
  { rewrite orb_true_iff, Z.ltb_lt, Z.gtb_lt in Eq.
    inversion E; subst c msg u. split; [discriminate|]. split; [reflexivity|].
    right. right. repeat split; try assumption. lra. }
  destruct (Z.eq_dec c4 0) as [E4|E4].
  2:{ rewrite CHKERRQ_nonzero in E by exact E4. inversion E; subst c msg u.
      split; [exact E4|]. split; [reflexivity|]. left.
      exists [c0; c1; c2; c3], []. split; [reflexivity|].
      intros c' Hin. cbn in Hin. intuition congruence. }
  rewrite (CHKERRQ_ok c4) in E by exact E4. discriminate.
Qed.

(** X6: when ConfigureCtx fails, the code is never 0 and alpha is not
    touched, and the failure is one of three kinds. It is passed up from a
    call of the options interface, with the code of the first call, in call
    order, that returned an error. Or it is the program's own error about p,
    with code 1: then p < 1, and it is raised before the other options are
    read (eps and the degree still hold their defaults 0 and 2). Or it is
    the program's own error about the degree, with code 2: then p >= 1 was
    accepted, the four calls before the test succeeded, and the degree is
    outside 1..3. *)
Theorem ConfigureCtx_error_codes (db : Options) (user0 u : PLapCtx) (c : Z)
        (msg : string) :
  ConfigureCtx db user0 = Raised c msg u ->
  c <> 0%Z /\ alpha u = alpha user0
  /\ ((exists pre post, ierrs db = pre ++ c :: post
                         /\ forall c', In c' pre -> c' = 0%Z)
      \/ (msg = "p >= 1 required"%string /\ c = 1%Z
          /\ PetscOptionsGet (opt_p db) 4.0 < 1
          /\ ierr_Begin db = 0%Z /\ ierr (opt_p db) = 0%Z
          /\ u = mkCtx (PetscOptionsGet (opt_p db) 4.0) 0.0 2 (alpha user0))
      \/ (msg = "quadrature degree n=1,2,3 only"%string /\ c = 2%Z
          /\ 1 <= PetscOptionsGet (opt_p db) 4.0
          /\ (PetscOptionsGet (opt_quaddegree db) 2 < 1
              \/ 3 < PetscOptionsGet (opt_quaddegree db) 2)%Z
          /\ ierr_Begin db = 0%Z /\ ierr (opt_p db) = 0%Z
          /\ ierr (opt_eps db) = 0%Z /\ ierr (opt_quaddegree db) = 0%Z
          /\ u = mkCtx (PetscOptionsGet (opt_p db) 4.0)
                       (PetscOptionsGet (opt_eps db) 0.0)
                       (PetscOptionsGet (opt_quaddegree db) 2%Z) (alpha user0))).
Proof. intros E. exact (ConfigureCtx_error_codes_aux db user0 u c msg E). Qed.

Lemma sum_list_map {I J : Type} (f : J -> R) (g : I -> J) (l : list I) :
  sum_list f (map g l) = sum_list (fun i => f (g i)) l.
Proof.
  induction l as [|i l IH]; [reflexivity|].
  cbn [map]. rewrite !sum_list_cons, IH. reflexivity.
Qed.

Lemma for_range_add (lo hi : Z) (f : Z -> R) (a : R) :
  for_range lo hi (fun i acc => acc + f i) a = a + rsum lo hi f.
Proof. unfold for_range, for_each, rsum. apply fold_add_shift. Qed.

Section WithEnv.
Context {env : Env}.

Lemma InitialIterateUExact_spec (info : DMDALocalInfo) (user : PLapCtx)
      (u uex : array2) (j i : Z) :
  let hx := 1.0 / IZR (mx info - 1) in
  let hy := 1.0 / IZR (my info - 1) in
  fst (InitialIterateUExact info user (u, uex)) j i
  = (if owned info i j
     then (1.0 - hx * IZR i) * BoundaryG 0.0 (hy * IZR j) (alpha user)
          + hx * IZR i * BoundaryG 1.0 (hy * IZR j) (alpha user)
     else u j i)
  /\ snd (InitialIterateUExact info user (u, uex)) j i
     = (if owned info i j
        then BoundaryG (hx * IZR i) (hy * IZR j) (alpha user)
        else uex j i).
Proof.
  intros hx hy. unfold InitialIterateUExact, for_range. rewrite for_each_nested.
  fold hx hy.
  match goal with |- context [for_each ?l ?b (u, uex)] => set (l0 := l); set (body := b) end.
  assert (Hin : forall b : bool, (In (j, i) l0 /\ true = true) <-> owned info i j = true).
  { intros _. subst l0. rewrite pairs_In, !zrange_In, owned_spec. tauto. }
  split.
  - destruct (write_loop (fun s : array2 * array2 => fst s) (fun _ => True) body
                (fun _ => true)
                (fun kj => (1.0 - hx * IZR (snd kj))
                           * BoundaryG 0.0 (hy * IZR (fst kj)) (alpha user)
                           + hx * IZR (snd kj)
                             * BoundaryG 1.0 (hy * IZR (fst kj)) (alpha user))
                l0 (u, uex)) as [_ Hw].
    + exact I.
    + intros [j0 i0] s _ _. split; [exact I|]. intros k1 j1. subst body.
      cbn [fst snd andb]. unfold upd.
      rewrite (Z.eqb_sym j0 k1), (Z.eqb_sym i0 j1). reflexivity.
    + destruct (Hw j i) as [H1 H2]. cbn [fst snd] in *.
      destruct (owned info i j) eqn:Eo.
      * apply H1; [apply (Hin true); reflexivity | reflexivity].
      * apply H2. intros H. apply (Hin true) in H. discriminate.
  - destruct (write_loop (fun s : array2 * array2 => snd s) (fun _ => True) body
                (fun _ => true)
                (fun kj => BoundaryG (hx * IZR (snd kj)) (hy * IZR (fst kj))
                                     (alpha user))
                l0 (u, uex)) as [_ Hw].
    + exact I.
    + intros [j0 i0] s _ _. split; [exact I|]. intros k1 j1. subst body.
      cbn [fst snd andb]. unfold upd.
      rewrite (Z.eqb_sym j0 k1), (Z.eqb_sym i0 j1). reflexivity.
    + destruct (Hw j i) as [H1 H2]. cbn [fst snd] in *.
      destruct (owned info i j) eqn:Eo.
      * apply H1; [apply (Hin true); reflexivity | reflexivity].
      * apply H2. intros H. apply (Hin true) in H. discriminate.
Qed.

(** X7: InitialIterateUExact writes the owned nodes only; there uexact is g
    at the node and u interpolates g linearly between the left and the right
    side, so on the columns i = 0 and i = mx-1 the initial iterate is the
    exact boundary value, and the residual of that iterate is zero at every
    owned node of these two columns. *)
Theorem initial_iterate_exact_on_side_columns (info : DMDALocalInfo)
        (user : PLapCtx) (u uex : array2) (m : Mem) (i j : Z) :
  (2 <= mx info)%Z -> owned info i j = true -> (i = 0 \/ i = mx info - 1)%Z ->
  au m = fst (InitialIterateUExact info user (u, uex)) ->
  (forall i' j', owned info i' j' = false ->
                 fst (InitialIterateUExact info user (u, uex)) j' i' = u j' i'
                 /\ snd (InitialIterateUExact info user (u, uex)) j' i' = uex j' i')
  /\ fst (InitialIterateUExact info user (u, uex)) j i
     = snd (InitialIterateUExact info user (u, uex)) j i
  /\ exists m', FormFunctionLocal info user m = Done m' /\ FF m' j i = 0.
Proof.
  intros Hmx Hown Hi Hau.
  assert (Hnz : IZR (mx info - 1) <> 0) by (apply not_0_IZR; lia).
  destruct (InitialIterateUExact_spec info user u uex j i) as [Hu He].
  cbv zeta in Hu, He. rewrite Hown in Hu, He.
  set (hx := 1.0 / IZR (mx info - 1)) in *. set (hy := 1.0 / IZR (my info - 1)) in *.
  assert (Hx : hx * IZR i = 0 \/ hx * IZR i = 1).
  { destruct Hi as [-> | ->]; [left; lra|].
    right. subst hx. replace 1.0 with 1 by lra. field. assumption. }
  assert (Hside : fst (InitialIterateUExact info user (u, uex)) j i
                  = BoundaryG (hx * IZR i) (hy * IZR j) (alpha user)).
  { rewrite Hu. destruct Hx as [-> | ->].
    - replace 0.0 with 0 by lra. lra.
    - replace 1.0 with 1 by lra. lra. }
  split; [|split].
  - intros i' j' Ho.
    destruct (InitialIterateUExact_spec info user u uex j' i') as [Hu' He'].
    cbv zeta in Hu', He'. rewrite Ho in Hu', He'. split; assumption.
  - rewrite Hside, He. reflexivity.
  - assert (Hbd : on_boundary info i j = true).
    { unfold on_boundary. destruct Hi as [-> | ->]; rewrite ?Z.eqb_refl;
        cbn [orb]; rewrite ?orb_true_r; reflexivity. }
    destruct (PlapProofs.plap_boundary_residual info user m i j Hbd Hown)
      as (m' & E & _ & Hf).
    exists m'. split; [exact E|]. rewrite Hf, Hau, Hside. fold hx hy.
    replace (IZR i * hx) with (hx * IZR i) by ring.
    replace (IZR j * hy) with (hy * IZR j) by ring. lra.
Qed.

Lemma In_row (c a b i j : Z) :
  In (i, j) (map (fun i => (i, c)) (zrange a b)) <-> (j = c /\ a <= i < b)%Z.
Proof.
  rewrite in_map_iff. split.
  - intros [x [E Hx]]. inversion E; subst. apply zrange_In in Hx. lia.
  - intros [-> Hi]. exists i. split; [reflexivity | now apply zrange_In].
Qed.

Lemma In_col (c a b i j : Z) :
  In (i, j) (map (fun j => (c, j)) (zrange a b)) <-> (i = c /\ a <= j < b)%Z.
Proof.
  rewrite in_map_iff. split.
  - intros [x [E Hx]]. inversion E; subst. apply zrange_In in Hx. lia.
  - intros [-> Hi]. exists j. split; [reflexivity | now apply zrange_In].
Qed.

Lemma NoDup_row (c a b : Z) : NoDup (map (fun i => (i, c)) (zrange a b)).
Proof.
  apply NoDup_map_inj; [|apply zrange_NoDup]. intros x y _ _ E. now inversion E.
Qed.

Lemma NoDup_col (c a b : Z) : NoDup (map (fun j => (c, j)) (zrange a b)).
Proof.
  apply NoDup_map_inj; [|apply zrange_NoDup]. intros x y _ _ E. now inversion E.
Qed.

Lemma sum_list_if {I : Type} (f : I -> R) (c : bool) (l : list I) :
  sum_list f (if c then l else []) = if c then sum_list f l else 0.
Proof. destruct c; reflexivity. Qed.

(** X8: on a grid with at least two nodes each way, the value handed to the
    reduction by FormObjectiveLocal is the element part scaled by hx*hy/4
    plus one boundary mismatch (u-g)^2/2, taken at the node's own
    coordinates, for every entry of the list of visited boundary nodes. *)
Theorem objective_is_elements_plus_boundary_visits (info : DMDALocalInfo)
        (user : PLapCtx) (m : Mem) :
  (2 <= mx info)%Z -> (2 <= my info)%Z ->
  let hx := 1.0 / IZR (mx info - 1) in
  let hy := 1.0 / IZR (my info - 1) in
  exists m',
    FormObjectiveLocal info user m = Done m'
    /\ obj m'
       = MPI_Allreduce_SUM
           (obj_element_part info user (au m) * (0.25 * hx * hy)
            + sum_list (fun ij => ObjBoundary info (IZR (fst ij) * hx)
                                              (IZR (snd ij) * hy)
                                              (au m (snd ij) (fst ij)) (alpha user))
                       (obj_boundary_visits info)).
Proof.
  intros Hmx Hmy hx hy. eexists. split; [reflexivity|].
  cbn [obj store_obj]. f_equal.
  assert (Hx1 : IZR (mx info - 1) * hx = 1.0).
  { subst hx. assert (IZR (mx info - 1) <> 0) by (apply not_0_IZR; lia).
    replace 1.0 with 1 by lra. field. assumption. }
  assert (Hy1 : IZR (my info - 1) * hy = 1.0).
  { subst hy. assert (IZR (my info - 1) <> 0) by (apply not_0_IZR; lia).
    replace 1.0 with 1 by lra. field. assumption. }
  fold hx hy. fold (obj_element_part info user (au m)).
  set (E := obj_element_part info user (au m)).
  rewrite !for_range_add. unfold obj_boundary_visits.
  set (jS := if (ys info =? 0)%Z then 1%Z else 0%Z).
  set (jE := if (ys info + ym info =? my info)%Z then (my info - 1)%Z else my info).
  rewrite !sum_list_app, !sum_list_if, !sum_list_map. cbn [fst snd].
  unfold rsum.
  rewrite (sum_list_ext
             (fun i => ObjBoundary info (IZR i * hx) 0.0 (au m 0%Z i) (alpha user))
             (fun i => ObjBoundary info (IZR i * hx) (IZR 0 * hy) (au m 0%Z i)
                                   (alpha user)))
    by (intros; f_equal; lra).
  rewrite (sum_list_ext
             (fun i => ObjBoundary info (IZR i * hx) 1.0 (au m (my info - 1)%Z i)
                                   (alpha user))
             (fun i => ObjBoundary info (IZR i * hx) (IZR (my info - 1) * hy)
                                   (au m (my info - 1)%Z i) (alpha user)))
    by (intros; f_equal; lra).
  rewrite (sum_list_ext
             (fun j => ObjBoundary info 0.0 (IZR j * hy) (au m j 0%Z) (alpha user))
             (fun j => ObjBoundary info (IZR 0 * hx) (IZR j * hy) (au m j 0%Z)
                                   (alpha user)))
    by (intros; f_equal; lra).
  rewrite (sum_list_ext
             (fun j => ObjBoundary info 1.0 (IZR j * hy) (au m j (mx info - 1)%Z)
                                   (alpha user))
             (fun j => ObjBoundary info (IZR (mx info - 1) * hx) (IZR j * hy)
                                   (au m j (mx info - 1)%Z) (alpha user)))
    by (intros; f_equal; lra).
  destruct (ys info =? 0)%Z, (ys info + ym info =? my info)%Z,
           (xs info =? 0)%Z, (xs info + xm info =? mx info)%Z; lra.
Qed.

(** X9: when one process owns the whole grid, the boundary nodes visited by
    the objective are exactly the nodes of the global boundary, each of them
    once (the two side loops leave the corners to the bottom and top
    loops). *)
Theorem objective_counts_boundary_once_on_whole_grid (info : DMDALocalInfo) :
  whole_grid info ->
  NoDup (obj_boundary_visits info)
  /\ forall i j,
      In (i, j) (obj_boundary_visits info)
      <-> ((0 <= i < mx info)%Z /\ (0 <= j < my info)%Z
           /\ on_boundary info i j = true).
Proof.
  destruct info as [mx0 my0 xs0 ys0 xm0 ym0]. unfold whole_grid, obj_boundary_visits.
  cbn [mx my xs ys xm ym]. intros (-> & -> & -> & -> & Hx & Hy).
  rewrite !Z.add_0_l, !Z.eqb_refl. change (0 =? 0)%Z with true. cbv iota.
  split.
  - apply NoDup_app; [apply NoDup_row| |].
    + apply NoDup_app; [apply NoDup_row| |].
      * apply NoDup_app; [apply NoDup_col|apply NoDup_col|].
        intros [i j] H1 H2. apply In_col in H1, H2. lia.
      * intros [i j] H1 H2. apply In_row in H1.
        apply in_app_or in H2 as [H2|H2]; apply In_col in H2; lia.
    + intros [i j] H1 H2. apply In_row in H1.
      apply in_app_or in H2 as [H2|H2]; [apply In_row in H2; lia|].
      apply in_app_or in H2 as [H2|H2]; apply In_col in H2; lia.
  - intros i j. unfold on_boundary. cbn [mx my].
    rewrite !in_app_iff, !In_row, !In_col, !orb_true_iff, !Z.eqb_eq. lia.
Qed.

(** X10: the two side loops of the objective run over the rows jS..jE-1 of
    the grid, not over the owned rows: a patch that holds the left side
    (xs = 0) but not the bottom row (ys > 0) still visits the corner node
    (0,0), which it does not own, and when it does not hold the top row
    either it visits every row of the grid. *)
Theorem objective_side_loops_ignore_row_ownership (info : DMDALocalInfo) (j : Z) :
  xs info = 0%Z -> (0 < ys info)%Z -> (1 <= ym info)%Z ->
  (ys info + ym info <= my info)%Z ->
  In (0%Z, 0%Z) (obj_boundary_visits info) /\ owned info 0 0 = false
  /\ ((ys info + ym info < my info)%Z -> (0 <= j < my info)%Z ->
      In (0%Z, j) (obj_boundary_visits info)).
Proof.
  intros Hxs Hys Hym Hmy. unfold obj_boundary_visits. rewrite Hxs.
  change (0 =? 0)%Z with true. cbv iota.
  assert (E0 : (ys info =? 0)%Z = false) by (apply Z.eqb_neq; lia).
  rewrite E0. split; [|split].
  - rewrite !in_app_iff. right. right. left. apply In_col. split; [reflexivity|].
    destruct (ys info + ym info =? my info)%Z eqn:E; [|lia].
    apply Z.eqb_eq in E. lia.
  - destruct (owned info 0 0) eqn:Eo; [|reflexivity].
    apply owned_spec in Eo. lia.
  - intros Htop Hj. rewrite !in_app_iff. right. right. left. apply In_col.
    assert (E1 : (ys info + ym info =? my info)%Z = false) by (apply Z.eqb_neq; lia).
    rewrite E1. lia.
Qed.

Lemma elements_obj_In (info : DMDALocalInfo) (i j : Z) :
  In (i, j) (elements_obj info)
  <-> (xs info + 1 <= i < xs info + xm info
       /\ ys info + 1 <= j < ys info + ym info)%Z.
Proof.
  unfold elements_obj. rewrite in_map_iff. split.
  - intros [[j' i'] [E H]]. cbn in E. inversion E; subst.
    apply pairs_In in H. rewrite !zrange_In in H. lia.
  - intros H. exists (j, i). split; [reflexivity|].
    apply pairs_In. rewrite !zrange_In. lia.
Qed.

Lemma elements_fun_In (info : DMDALocalInfo) (i j : Z) :
  In (i, j) (elements_fun info)
  <-> (iS info <= i <= iE info /\ jS info <= j <= jE info)%Z.
Proof.
  unfold elements_fun. rewrite in_map_iff. split.
  - intros [[j' i'] [E H]]. cbn in E. inversion E; subst.
    apply pairs_In in H. rewrite !zrange_In in H. lia.
  - intros H. exists (j, i). split; [reflexivity|].
    apply pairs_In. rewrite !zrange_In. lia.
Qed.

(** X11: when one process owns the whole grid, the objective loop and the
    residual loop visit the same elements in the same order, namely every
    element with upper-right node in [1,mx-1] x [1,my-1]. *)
Theorem objective_and_residual_visit_same_elements (info : DMDALocalInfo) (i j : Z) :
  whole_grid info ->
  elements_obj info = elements_fun info
  /\ (In (i, j) (elements_obj info)
      <-> (1 <= i <= mx info - 1 /\ 1 <= j <= my info - 1)%Z).
Proof.
  intros Hw. pose proof Hw as (Hxs & Hys & Hxm & Hym & Hx & Hy).
  assert (E : elements_obj info = elements_fun info).
  { unfold elements_obj, elements_fun, iS, jS, iE, jE.
    rewrite Hxs, Hys, Hxm, Hym.
    change (0 <? 1)%Z with true. cbv iota. rewrite !Z.add_0_l.
    replace (mx info >? mx info - 1)%Z with true by (symmetry; apply Z.gtb_lt; lia).
    replace (my info >? my info - 1)%Z with true by (symmetry; apply Z.gtb_lt; lia).
    replace (mx info - 1 + 1)%Z with (mx info) by lia.
    replace (my info - 1 + 1)%Z with (my info) by lia. reflexivity. }
  split; [exact E|]. rewrite elements_obj_In. lia.
Qed.

(** X12: between two patches that meet at a column (the right one starts
    where the left one ends), the elements whose upper-right node lies in the
    first column of the right patch are visited by neither objective loop,
    while the residual loop of the right patch does visit them. *)
Theorem objective_skips_elements_between_patches (left right : DMDALocalInfo)
        (j : Z) :
  xs right = (xs left + xm left)%Z ->
  ~ In (xs right, j) (elements_obj left)
  /\ ~ In (xs right, j) (elements_obj right)
  /\ ((1 <= xs right <= mx right - 1)%Z -> (0 <= xm right)%Z ->
      (jS right <= j <= jE right)%Z ->
      In (xs right, j) (elements_fun right)).
Proof.
  intros Hadj. rewrite !elements_obj_In, elements_fun_In. split; [lia|].
  split; [lia|]. intros Hx Hxm Hj. unfold iS, iE.
  destruct (xs right <? 1)%Z eqn:E1; [apply Z.ltb_lt in E1; lia|].
  destruct (xs right + xm right >? mx right - 1)%Z; lia.
Qed.

Lemma plap_residual_value (info : DMDALocalInfo) (user : PLapCtx) (m m' : Mem)
      (P Q : Z) :
  FormFunctionLocal info user m = Done m' ->
  au m' = au m
  /\ FF m' Q P
     = (if owned info P Q then
          if on_boundary info P Q
          then au m Q P - BoundaryG (IZR P * (1.0 / IZR (mx info - 1)))
                                    (IZR Q * (1.0 / IZR (my info - 1))) (alpha user)
          else 0.0
        else FF m Q P)
       + sum_list (corner_contrib info user (au m)) (hits info P Q).
Proof.
  unfold FormFunctionLocal. intros E. inversion E as [Em']. clear E.
  destruct (PlapProofs.init_loop_spec info user m) as [Hau0 HFF0].
  destruct (PlapProofs.element_loop_spec info user (init_loop info user m) P Q)
    as [Hau HFF].
  split; [congruence|]. rewrite HFF, HFF0, Hau0. reflexivity.
Qed.

(** X13: the residual at an owned node depends on the iterate only, not on
    what FF held before the call; and evaluating the residual again on the
    memory a call leaves gives the same FF at every node. *)
Theorem residual_overwrites_and_is_idempotent (info : DMDALocalInfo)
        (user : PLapCtx) (m1 m2 m1' m2' m1'' : Mem) (P Q : Z) :
  FormFunctionLocal info user m1 = Done m1' ->
  FormFunctionLocal info user m2 = Done m2' ->
  FormFunctionLocal info user m1' = Done m1'' ->
  au m1 = au m2 ->
  (owned info P Q = true -> FF m1' Q P = FF m2' Q P)
  /\ FF m1'' Q P = FF m1' Q P.
Proof.
  intros E1 E2 E3 Hau.
  destruct (plap_residual_value info user m1 m1' P Q E1) as [Ha1 H1].
  destruct (plap_residual_value info user m2 m2' P Q E2) as [_ H2].
  destruct (plap_residual_value info user m1' m1'' P Q E3) as [_ H3].
  split.
  - intros Ho. rewrite H1, H2, Ho, Hau. reflexivity.
  - rewrite H3, Ha1. destruct (owned info P Q) eqn:Ho.
    + rewrite H1, ?Ho. reflexivity.
    + assert (Hacc : accumulates info P Q = false).
      { destruct (accumulates info P Q) eqn:Ea; [|reflexivity].
        apply PlapProofs.accumulates_spec in Ea.
        assert (owned info P Q = true) by (apply owned_spec; lia). congruence. }
      rewrite (PlapProofs.hits_elsewhere info P Q Hacc), sum_list_nil. lra.
Qed.

End WithEnv.

#[local] Existing Instance sample_env.

Lemma eval_interpolates_witness :
  eval [1; 2; 3; 4] (idx 0 xiL 2) (idx 0 etaL 2) = 3
  /\ eval [1; 2; 3; 4] ((0 + 1) / 2) 0 = (eval [1; 2; 3; 4] 0 0 + eval [1; 2; 3; 4] 1 0) / 2.
Proof. apply (eval_interpolates 1 2 3 4 2 0 1 0). lia. Defined.

Lemma quadrature_tables_are_gauss_rules_witness :
  0 < @idx2 sample_env wq (3 - 1) 1
  /\ -1 < @idx2 sample_env zq (3 - 1) 1 < 1
  /\ @idx2 sample_env zq (3 - 1) (3 - 1 - 1) = - @idx2 sample_env zq (3 - 1) 1
  /\ @idx2 sample_env wq (3 - 1) (3 - 1 - 1) = @idx2 sample_env wq (3 - 1) 1
  /\ Rabs (rsum 0 3 (fun r => @idx2 sample_env wq (3 - 1) r) - 2) <= 1e-15.
Proof. apply (@quadrature_tables_are_gauss_rules sample_env 3 1); lia. Defined.

Lemma GradPow_base_nonnegative_witness :
  @GradInnerProd grid3 (mkGradRef 1 2) (mkGradRef 3 4)
  = @GradInnerProd grid3 (mkGradRef 3 4) (mkGradRef 1 2)
  /\ 0 <= @GradInnerProd grid3 (mkGradRef 1 2) (mkGradRef 1 2)
  /\ exists base,
      @GradPow sample_env grid3 (mkGradRef 1 2) 4 0
      = @PetscPowScalar sample_env base (4 / 2.0)
      /\ 0 <= 0 * 0 <= base.
Proof.
  apply (@GradPow_base_nonnegative sample_env grid3 (mkGradRef 1 2) (mkGradRef 3 4) 4 0);
    cbn; lia.
Defined.

Lemma FRHS_symmetric_and_laplacian_at_p2_witness :
  (1 + 0) * (1 + 0) + (2 + 0) * (2 + 0) <> 0
  /\ @FRHS sample_env 1 2 4 0 = @FRHS sample_env 2 1 4 0
  /\ @FRHS sample_env 1 2 2.0 0 = - ((1 + 0) * (1 + 0) + (2 + 0) * (2 + 0)).
Proof.
  apply (@FRHS_symmetric_and_laplacian_at_p2 sample_env 1 2 4 0); [lra | lra |].
  intros z. cbn. unfold Rpower. rewrite Rmult_0_l. apply exp_0.
Defined.

Lemma ConfigureCtx_error_codes_witness :
  (62 <> 0)%Z
  /\ exists pre post,
      ierrs options_malformed_eps = pre ++ 62%Z :: post
      /\ forall c', In c' pre -> c' = 0%Z.
Proof.
  destruct (ConfigureCtx_error_codes options_malformed_eps sample_user
              (mkCtx 4.0 0.0 2 0.0) 62 " "%string) as (Hc & _ & [H|[H|H]]).
  - unfold ConfigureCtx, options_malformed_eps, PetscOptionsGet. cbn.
    destruct (Rlt_dec 4.0 1.0) as [H|H]; [exfalso; lra | reflexivity].
  - split; [exact Hc | exact H].
  - destruct H as (H & _). discriminate.
  - destruct H as (H & _). discriminate.
Defined.

Lemma initial_iterate_exact_on_side_columns_witness :
  exists m',
    @FormFunctionLocal sample_env grid3 sample_user
      (mkMem (fst (@InitialIterateUExact sample_env grid3 sample_user
                     (fun _ _ => 7, fun _ _ => 7)))
             (fun _ _ => 5) 0) = Done m'
    /\ FF m' 1%Z 0%Z = 0.
Proof.
  destruct (@initial_iterate_exact_on_side_columns sample_env grid3 sample_user
              (fun _ _ => 7) (fun _ _ => 7)
              (mkMem (fst (@InitialIterateUExact sample_env grid3 sample_user
                             (fun _ _ => 7, fun _ _ => 7)))
                     (fun _ _ => 5) 0) 0 1) as (_ & _ & H).
  - cbn. lia.
  - reflexivity.
  - left. reflexivity.
  - reflexivity.
  - exact H.
Defined.

Lemma objective_is_elements_plus_boundary_visits_witness :
  exists m',
    @FormObjectiveLocal sample_env grid3 sample_user sample_mem = Done m'
    /\ obj m'
       = @MPI_Allreduce_SUM sample_env
           (@obj_element_part sample_env grid3 sample_user (au sample_mem)
            * (0.25 * (1.0 / IZR (mx grid3 - 1)) * (1.0 / IZR (my grid3 - 1)))
            + sum_list (fun ij => @ObjBoundary sample_env grid3
                                    (IZR (fst ij) * (1.0 / IZR (mx grid3 - 1)))
                                    (IZR (snd ij) * (1.0 / IZR (my grid3 - 1)))
                                    (au sample_mem (snd ij) (fst ij))
                                    (alpha sample_user))
                       (obj_boundary_visits grid3)).
Proof.
  apply (@objective_is_elements_plus_boundary_visits sample_env grid3 sample_user
           sample_mem); cbn; lia.
Defined.

Lemma objective_counts_boundary_once_on_whole_grid_witness :
  NoDup (obj_boundary_visits grid3)
  /\ forall i j,
      In (i, j) (obj_boundary_visits grid3)
      <-> ((0 <= i < mx grid3)%Z /\ (0 <= j < my grid3)%Z
           /\ on_boundary grid3 i j = true).
Proof.
  apply (objective_counts_boundary_once_on_whole_grid grid3).
  unfold whole_grid. cbn. lia.
Defined.

Lemma objective_side_loops_ignore_row_ownership_witness :
  In (0%Z, 0%Z) (obj_boundary_visits (mkInfo 3 5 0 2 3 2))
  /\ owned (mkInfo 3 5 0 2 3 2) 0 0 = false
  /\ ((ys (mkInfo 3 5 0 2 3 2) + ym (mkInfo 3 5 0 2 3 2) < my (mkInfo 3 5 0 2 3 2))%Z ->
      (0 <= 4 < my (mkInfo 3 5 0 2 3 2))%Z ->
      In (0%Z, 4%Z) (obj_boundary_visits (mkInfo 3 5 0 2 3 2))).
Proof.
  apply (objective_side_loops_ignore_row_ownership (mkInfo 3 5 0 2 3 2) 4);
    cbn; lia.
Defined.

Lemma objective_and_residual_visit_same_elements_witness :
  elements_obj grid3 = elements_fun grid3
  /\ (In (1%Z, 2%Z) (elements_obj grid3)
      <-> (1 <= 1 <= mx grid3 - 1 /\ 1 <= 2 <= my grid3 - 1)%Z).
Proof.
  apply (objective_and_residual_visit_same_elements grid3 1 2).
  unfold whole_grid. cbn. lia.
Defined.

Lemma objective_skips_elements_between_patches_witness :
  ~ In (3%Z, 2%Z) (elements_obj (mkInfo 5 5 0 0 3 5))
  /\ ~ In (3%Z, 2%Z) (elements_obj (mkInfo 5 5 3 0 2 5))
  /\ In (3%Z, 2%Z) (elements_fun (mkInfo 5 5 3 0 2 5)).
Proof.
  destruct (objective_skips_elements_between_patches
              (mkInfo 5 5 0 0 3 5) (mkInfo 5 5 3 0 2 5) 2 eq_refl) as (A & B & C).
  split; [exact A|]. split; [exact B|]. apply C; cbn; lia.
Defined.

Lemma residual_overwrites_and_is_idempotent_witness :
  FF (@element_loop sample_env grid3 sample_user
        (@init_loop sample_env grid3 sample_user sample_mem)) 1%Z 1%Z
  = FF (@element_loop sample_env grid3 sample_user
          (@init_loop sample_env grid3 sample_user
             (mkMem (fun _ _ => 7) (fun _ _ => 5) 1))) 1%Z 1%Z.
Proof.
  apply (proj1 (@residual_overwrites_and_is_idempotent sample_env grid3 sample_user
                  sample_mem (mkMem (fun _ _ => 7) (fun _ _ => 5) 1)
                  _ _ _ 1 1 eq_refl eq_refl eq_refl eq_refl)).
  reflexivity.
Defined.

End PlapExtra.

(** ** Further properties of the ice program *)

Module IceExtra.
Import Ice.

Section WithEnv.
Context {env : Env}.

Lemma fieldatpt_unfold (xi eta f0 f1 f2 f3 : R) :
  fieldatpt xi eta [f0; f1; f2; f3]
  = (1.0 - xi) * (1.0 - eta) * f0 + xi * (1.0 - eta) * f1 + xi * eta * f2
    + (1.0 - xi) * eta * f3.
Proof. reflexivity. Qed.

Lemma gradfatpt_unfold (xi eta dx dy f0 f1 f2 f3 : R) :
  gradfatpt xi eta dx dy [f0; f1; f2; f3]
  = mkGrad ((-1.0 * (1.0 - eta) * f0 + 1.0 * (1.0 - eta) * f1 + 1.0 * eta * f2
             + -1.0 * eta * f3) / dx)
           (((1.0 - xi) * -1.0 * f0 + xi * -1.0 * f1 + xi * 1.0 * f2
             + (1.0 - xi) * 1.0 * f3) / dy).
Proof. reflexivity. Qed.

(** X14: the Q1 interpolant of the finite-volume scheme returns the nodal
    values at the four corners of the element (in the order lower-left,
    lower-right, upper-right, upper-left), reproduces a constant field, and
    the gradient of a constant field is zero. *)
Theorem fieldatpt_interpolates_corners (f0 f1 f2 f3 c xi eta dx dy : R) :
  fieldatpt 0 0 [f0; f1; f2; f3] = f0
  /\ fieldatpt 1 0 [f0; f1; f2; f3] = f1
  /\ fieldatpt 1 1 [f0; f1; f2; f3] = f2
  /\ fieldatpt 0 1 [f0; f1; f2; f3] = f3
  /\ fieldatpt xi eta [c; c; c; c] = c
  /\ gradfatpt xi eta dx dy [c; c; c; c] = mkGrad 0 0.
Proof.
  rewrite !fieldatpt_unfold, gradfatpt_unfold.
  repeat split; try lra. f_equal; unfold Rdiv.
  - set (i := / dx). lra.
  - set (i := / dy). lra.
Qed.

Lemma fieldatpt_bounds_aux (xi eta f0 f1 f2 f3 lo hi : R) :
  0 <= xi <= 1 -> 0 <= eta <= 1 ->
  lo <= f0 <= hi -> lo <= f1 <= hi -> lo <= f2 <= hi -> lo <= f3 <= hi ->
  lo <= fieldatpt xi eta [f0; f1; f2; f3] <= hi.
Proof.
  intros Hxi Heta H0 H1 H2 H3. rewrite fieldatpt_unfold.
  replace 1.0 with 1 by lra.
  assert (W0 : 0 <= (1 - xi) * (1 - eta)) by (apply Rmult_le_pos; lra).
  assert (W1 : 0 <= xi * (1 - eta)) by (apply Rmult_le_pos; lra).
  assert (W2 : 0 <= xi * eta) by (apply Rmult_le_pos; lra).
  assert (W3 : 0 <= (1 - xi) * eta) by (apply Rmult_le_pos; lra).
  assert (S : (1 - xi) * (1 - eta) + xi * (1 - eta) + xi * eta + (1 - xi) * eta = 1)
    by ring.
  set (w0 := (1 - xi) * (1 - eta)) in *. set (w1 := xi * (1 - eta)) in *.
  set (w2 := xi * eta) in *. set (w3 := (1 - xi) * eta) in *.
  split; nra.
Qed.

(** X15: inside the element (local coordinates in [0,1]) the interpolated
    value lies between any lower and upper bound of the four nodal values;
    in particular it is nonnegative when they are. *)
Theorem fieldatpt_between_nodal_bounds (xi eta f0 f1 f2 f3 lo hi : R) :
  0 <= xi <= 1 -> 0 <= eta <= 1 ->
  lo <= f0 <= hi -> lo <= f1 <= hi -> lo <= f2 <= hi -> lo <= f3 <= hi ->
  lo <= fieldatpt xi eta [f0; f1; f2; f3] <= hi.
Proof. exact (fieldatpt_bounds_aux xi eta f0 f1 f2 f3 lo hi). Qed.

(** X16: the SIA flux is odd in the slopes: reversing the thickness gradient
    and the bed gradient keeps the diffusivity and reverses the flux; with
    both gradients zero the flux is zero, in either direction and whatever
    the thickness values are. *)
Theorem SIAflux_odd_in_slopes (gH gb : Grad) (H Hup : R) (xdir : bool)
        (user : AppCtx) :
  (exists D q,
      SIAflux gH gb H Hup xdir true true user = Some (Some D, q)
      /\ SIAflux (mkGrad (- Grad_x gH) (- Grad_y gH))
                 (mkGrad (- Grad_x gb) (- Grad_y gb)) H Hup xdir true true user
         = Some (Some D, - q))
  /\ exists D, SIAflux (mkGrad 0 0) (mkGrad 0 0) H Hup xdir true true user
               = Some (Some D, 0).
Proof.
  split.
  - exists (DCS (sigma gH gb user) H user).
    exists (if xdir
            then - DCS (sigma gH gb user) H user * Grad_x gH
                 + Grad_x (W (sigma gH gb user) gb)
                   * PetscPowReal (Rabs Hup) (n_ice user + 2.0)
            else - DCS (sigma gH gb user) H user * Grad_y gH
                 + Grad_y (W (sigma gH gb user) gb)
                   * PetscPowReal (Rabs Hup) (n_ice user + 2.0)).
    split; [unfold SIAflux; destruct xdir; reflexivity|].
    unfold SIAflux. cbn [andb Grad_x Grad_y].
    assert (Es : sigma (mkGrad (- Grad_x gH) (- Grad_y gH))
                       (mkGrad (- Grad_x gb) (- Grad_y gb)) user
                 = sigma gH gb user).
    { unfold sigma. cbn [Grad_x Grad_y]. do 3 f_equal. ring. }
    rewrite Es. unfold W. cbn [Grad_x Grad_y].
    destruct xdir; cbn [andb]; do 2 f_equal; ring.
  - exists (DCS (sigma (mkGrad 0 0) (mkGrad 0 0) user) H user).
    unfold SIAflux, W. cbn [andb Grad_x Grad_y].
    destruct xdir; cbn [andb]; f_equal; f_equal; ring.
Qed.

(** X17: sigma never raises a negative number to a power: the base of its
    pow is the squared slope of the surface plus delta^2, at least delta^2;
    and the diffusivity of the continuation scheme is D0 at eps = 1 and
    sigma |H|^(n+2) at eps = 0. *)
Theorem sigma_base_and_continuation_ends (gH gb : Grad) (H s : R) (user : AppCtx) :
  (exists base,
      sigma gH gb user = Gamma user * PetscPowReal base ((n_ice user - 1.0) / 2)
      /\ 0 <= delta user * delta user <= base)
  /\ (eps user = 1 -> DCS s H user = D0 user)
  /\ (eps user = 0 ->
      DCS s H user = s * PetscPowReal (Rabs H) (n_ice user + 2.0)).
Proof.
  split; [|split].
  - eexists. split; [reflexivity|].
    pose proof (Rle_0_sqr (Grad_x gH + Grad_x gb)).
    pose proof (Rle_0_sqr (Grad_y gH + Grad_y gb)).
    pose proof (Rle_0_sqr (delta user)). unfold Rsqr in *. lra.
  - intros E. unfold DCS. rewrite E. set (pw := PetscPowReal _ _). lra.
  - intros E. unfold DCS. rewrite E. set (pw := PetscPowReal _ _). lra.
Qed.

(** One step of the flux loop stores the flux of that point. *)
Lemma flux_point_value (info : DMDALocalInfo) (user : AppCtx) (k j c : Z) (m : Mem) :
  flux_point info user k j c m
  = store_aqquad c k j (flux_value info user (aH m) (ab m) k j c) m.
Proof.
  unfold flux_point, flux_value, upwind_point, SIAflux. cbv zeta.
  destruct (Rltb 0.0 (lambda user)), (idx false xdire c); cbn [andb fst snd];
    reflexivity.
Qed.

Lemma flux_element_value (info : DMDALocalInfo) (user : AppCtx) (k0 j0 c : Z)
      (m : Mem) :
  (0 <= c < 4)%Z ->
  let m' := flux_element info user k0 j0 m in
  aH m' = aH m /\ ab m' = ab m /\ FF m' = FF m /\ aHin m' = aHin m
  /\ forall k j,
      aqquad m' c k j
      = if negb ((j0 <? 0) || (j0 >=? mx info - 1) || (k0 <? 0)
                 || (k0 >=? my info - 1))%Z
           && (k0 =? k)%Z && (j0 =? j)%Z
        then flux_value info user (aH m) (ab m) k0 j0 c
        else aqquad m c k j.
Proof.
  intros Hc m'. subst m'. unfold flux_element.
  destruct ((j0 <? 0) || (j0 >=? mx info - 1) || (k0 <? 0)
            || (k0 >=? my info - 1))%Z; cbn [negb andb].
  { repeat split. }
  unfold for_range. change (zrange 0 4) with [0; 1; 2; 3]%Z.
  cbn [for_each fold_left]. rewrite !flux_point_value.
  cbn [aH ab FF aHin store_aqquad]. repeat split.
  intros k j. rewrite (Z.eqb_sym k0 k), (Z.eqb_sym j0 j).
  destruct (PlapProofs.four_cases c Hc) as [->|[->|[->| ->]]];
    cbn [aqquad store_aqquad Z.eqb Pos.eqb]; unfold upd; reflexivity.
Qed.

(** X18: after the flux loop, the cache entry of every flux point of every
    element of the patch (ghost elements included) that lies in the grid is
    the flux computed in this call from the copy aH and the bed ab; every
    other entry of the cache is left as it was, and nothing else changes. *)
Theorem flux_loop_fills_cache (info : DMDALocalInfo) (user : AppCtx) (m : Mem)
        (c k j : Z) :
  (0 <= c < 4)%Z ->
  aqquad (flux_loop info user m) c k j
  = (if flux_element_done info k j
     then flux_value info user (aH m) (ab m) k j c
     else aqquad m c k j)
  /\ aH (flux_loop info user m) = aH m /\ ab (flux_loop info user m) = ab m
  /\ FF (flux_loop info user m) = FF m /\ aHin (flux_loop info user m) = aHin m.
Proof.
  intros Hc. unfold flux_loop, for_range. rewrite for_each_nested.
  match goal with |- context [for_each ?l ?b m] => set (l0 := l); set (body := b) end.
  destruct (write_loop (fun m' => aqquad m' c)
              (fun m' => aH m' = aH m /\ ab m' = ab m /\ FF m' = FF m
                         /\ aHin m' = aHin m)
              body
              (fun kj => negb ((snd kj <? 0) || (snd kj >=? mx info - 1)
                               || (fst kj <? 0) || (fst kj >=? my info - 1))%Z)
              (fun kj => flux_value info user (aH m) (ab m) (fst kj) (snd kj) c)
              l0 m) as [(Hh & Hb & Hf & Ha) Hw].
  - repeat split.
  - intros [k0 j0] m' _ (Hh & Hb & Hf & Ha). subst body. cbn [fst snd].
    destruct (flux_element_value info user k0 j0 c m' Hc)
      as (Hh' & Hb' & Hf' & Ha' & Hq).
    split; [repeat split; congruence|]. intros k1 j1. rewrite Hq, Hh, Hb.
    reflexivity.
  - split; [|repeat split; assumption].
    destruct (Hw k j) as [H1 H2]. cbn [fst snd] in *.
    unfold flux_element_done.
    match goal with |- _ = if ?t then _ else _ => destruct t eqn:Ec end.
    + rewrite !andb_true_iff, !Z.leb_le, !Z.ltb_lt in Ec. apply H1.
      * subst l0. apply pairs_In. rewrite !zrange_In. lia.
      * rewrite negb_true_iff, !orb_false_iff, !Z.ltb_ge, !Z.geb_leb, !Z.leb_gt. lia.
    + apply H2. intros [Hin Hwr]. subst l0. apply pairs_In in Hin.
      rewrite !zrange_In in Hin.
      rewrite negb_true_iff, !orb_false_iff, !Z.ltb_ge, !Z.geb_leb, !Z.leb_gt in Hwr.
      assert (Ec' : ((ys info - 1 <=? k) && (k <? ys info + ym info)
                     && (xs info - 1 <=? j) && (j <? xs info + xm info)
                     && (0 <=? j) && (j <? mx info - 1) && (0 <=? k)
                     && (k <? my info - 1))%Z = true).
      { rewrite !andb_true_iff, !Z.leb_le, !Z.ltb_lt. lia. }
      congruence.
Qed.

Lemma FormFunctionLocal_cache (info : DMDALocalInfo) (user : AppCtx) (m m' : Mem)
      (c k j : Z) :
  FormFunctionLocal info user m = Done m' -> (0 <= c < 4)%Z ->
  flux_element_done info k j = true ->
  aqquad m' c k j = flux_value info user (aH m') (ab m') k j c.
Proof.
  unfold FormFunctionLocal. intros E Hc Hd.
  destruct (copy_loop info user m) as [m1|c1 msg1 m1]; [|discriminate].
  inversion E as [Em']. clear E.
  set (m2 := bed_setup info user m1).
  destruct (flux_loop_fills_cache info user m2 c k j Hc) as (Hq & Hh & Hb & _).
  destruct (IceProofs.node_loop_spec info user (flux_loop info user m2))
    as [(_ & Hh4 & Hb4 & Hq4) _].
  cbv zeta in Hh4, Hb4, Hq4. rewrite Hq4, Hh4, Hb4, Hq, Hd, Hh, Hb. reflexivity.
Qed.

Lemma FormFunctionLocal_bed (info : DMDALocalInfo) (user : AppCtx) (m m' : Mem) :
  FormFunctionLocal info user m = Done m' ->
  ab m' = if verif user then (fun _ _ => 0.0)
          else FormBedLocal info 1 (ab m) user.
Proof.
  unfold FormFunctionLocal. intros E.
  pose proof (IceProofs.copy_loop_spec info user m) as Hc.
  destruct (copy_loop info user m) as [m1|c1 msg1 m1]; [|discriminate].
  inversion E as [Em']. clear E. destruct Hc as (_ & Hb1 & _).
  set (m2 := bed_setup info user m1).
  destruct (IceProofs.flux_loop_frame info user m2) as (_ & _ & _ & Hb3).
  destruct (IceProofs.node_loop_spec info user (flux_loop info user m2))
    as [(_ & _ & Hb4 & _) _].
  cbv zeta in Hb4. rewrite Hb4, Hb3. subst m2. unfold bed_setup.
  destruct (verif user); cbn [ab set_ab]; rewrite ?Hb1; reflexivity.
Qed.

Lemma interior_node_range (info : DMDALocalInfo) (k j : Z) :
  valid_info info -> owned info j k = true -> on_boundary info j k = false ->
  (1 <= j <= mx info - 2 /\ 1 <= k <= my info - 2
   /\ xs info <= j < xs info + xm info /\ ys info <= k < ys info + ym info)%Z.
Proof.
  unfold valid_info, on_boundary. intros Hv Ho Hb. apply owned_spec in Ho.
  rewrite !orb_false_iff, !Z.eqb_neq in Hb. lia.
Qed.

Lemma ice_residual_value_aux (info : DMDALocalInfo) (user : AppCtx)
        (m m' : Mem) (k j : Z) :
  valid_info info -> FormFunctionLocal info user m = Done m' ->
  owned info j k = true -> on_boundary info j k = false ->
  FF m' k j
  = - mass_balance info user k j m'
      * (L user / IZR (mx info - 1)) * (L user / IZR (my info - 1))
    + sum_list (fun s => idx 0 (coeff info user) s
                         * flux_value info user (aH m') (ab m')
                                      (k + idx 0%Z ke s) (j + idx 0%Z je s)
                                      (idx 0%Z ce s))
               (zrange 0 8).
Proof.
  intros Hv E Ho Hb.
  destruct (IceProofs.FormFunctionLocal_done info user m m' E)
    as (_ & _ & _ & Hint & _).
  rewrite (Hint k j Ho Hb). f_equal. unfold cv_flux_sum.
  apply sum_list_ext. intros s Hs. unfold qpoint. f_equal.
  pose proof (interior_node_range info k j Hv Ho Hb) as Hr.
  apply zrange_In in Hs.
  assert (Hc : (s = 0 \/ s = 1 \/ s = 2 \/ s = 3 \/ s = 4 \/ s = 5 \/ s = 6
                \/ s = 7)%Z) by lia.
  apply (FormFunctionLocal_cache info user m m' _ _ _ E);
    [ destruct Hc as [->|[->|[->|[->|[->|[->|[->| ->]]]]]]];
      unfold ce; eval_idx; lia
    | unfold flux_element_done;
      rewrite !andb_true_iff, !Z.leb_le, !Z.ltb_lt;
      destruct Hc as [->|[->|[->|[->|[->|[->|[->| ->]]]]]]];
      unfold ke, je; eval_idx; lia ].
Qed.

(** X19: at an owned interior node the residual returned by the ice
    FormFunctionLocal is minus the source term times dx dy plus the eight
    weighted fluxes, and each of these eight fluxes is the one computed in
    this same call from the thickness copy and the bed (no stale cache entry
    is read). *)
Theorem ice_residual_uses_fresh_fluxes (info : DMDALocalInfo) (user : AppCtx)
        (m m' : Mem) (k j : Z) :
  valid_info info -> FormFunctionLocal info user m = Done m' ->
  owned info j k = true -> on_boundary info j k = false ->
  FF m' k j
  = - mass_balance info user k j m'
      * (L user / IZR (mx info - 1)) * (L user / IZR (my info - 1))
    + sum_list (fun s => idx 0 (coeff info user) s
                         * flux_value info user (aH m') (ab m')
                                      (k + idx 0%Z ke s) (j + idx 0%Z je s)
                                      (idx 0%Z ce s))
               (zrange 0 8).
Proof. exact (ice_residual_value_aux info user m m' k j). Qed.

Lemma gradfatptArray_flat (u v : Z) (xi eta dx dy : R) (f : array2) :
  f v u = 0 -> f v (u + 1)%Z = 0 -> f (v + 1)%Z (u + 1)%Z = 0 -> f (v + 1)%Z u = 0 ->
  gradfatptArray u v xi eta dx dy f = mkGrad 0 0.
Proof.
  intros H0 H1 H2 H3. unfold gradfatptArray. rewrite H0, H1, H2, H3.
  rewrite gradfatpt_unfold. unfold Rdiv. set (ix := / dx). set (iy := / dy).
  f_equal; lra.
Qed.

Lemma flux_value_flat (info : DMDALocalInfo) (user : AppCtx) (h b : array2)
      (k j c : Z) :
  h k j = 0 -> h k (j + 1)%Z = 0 -> h (k + 1)%Z (j + 1)%Z = 0 -> h (k + 1)%Z j = 0 ->
  b k j = 0 -> b k (j + 1)%Z = 0 -> b (k + 1)%Z (j + 1)%Z = 0 -> b (k + 1)%Z j = 0 ->
  flux_value info user h b k j c = 0.
Proof.
  intros H0 H1 H2 H3 B0 B1 B2 B3. unfold flux_value. cbv zeta.
  rewrite !(gradfatptArray_flat j k _ _ _ _ h H0 H1 H2 H3).
  rewrite !(gradfatptArray_flat j k _ _ _ _ b B0 B1 B2 B3).
  unfold W. cbn [Grad_x Grad_y].
  set (D := DCS _ _ _). set (pw := PetscPowReal _ _). set (sg := sigma _ _ _).
  destruct (idx false xdire c); lra.
Qed.

(** X20: in verification mode (flat bed) the residual of an iterate that is
    zero on the patch, such as the initial iterate of main, is minus the
    dome mass balance times dx dy at every owned interior node: all fluxes
    vanish, whatever pow is. *)
Theorem zero_iterate_residual_is_minus_source (info : DMDALocalInfo)
        (user : AppCtx) (m m' : Mem) (k j : Z) :
  valid_info info -> verif user = true ->
  (forall k' j', in_patch info k' j' -> aHin m k' j' = 0) ->
  FormFunctionLocal info user m = Done m' ->
  owned info j k = true -> on_boundary info j k = false ->
  FF m' k j
  = - DomeCMB (IZR j * (L user / IZR (mx info - 1)))
              (IZR k * (L user / IZR (my info - 1))) user
      * (L user / IZR (mx info - 1)) * (L user / IZR (my info - 1)).
Proof.
  intros Hv Hver Hzero E Ho Hb.
  rewrite (ice_residual_value_aux info user m m' k j Hv E Ho Hb).
  pose proof (interior_node_range info k j Hv Ho Hb) as Hr.
  destruct (IceProofs.FormFunctionLocal_done info user m m' E)
    as (_ & _ & _ & _ & Hh).
  assert (Hh0 : forall k' j', in_patch info k' j' -> aH m' k' j' = 0).
  { intros k' j' Hp. rewrite (Hh k' j' Hp), (Hzero k' j' Hp).
    destruct (on_boundary info j' k'); lra. }
  assert (Hb0 : forall k' j', ab m' k' j' = 0).
  { intros k' j'. rewrite (FormFunctionLocal_bed info user m m' E), Hver. lra. }
  rewrite (sum_list_ext _ (fun _ => 0)).
  - unfold mass_balance. rewrite Hver.
    change (zrange 0 8) with [0; 1; 2; 3; 4; 5; 6; 7]%Z.
    rewrite !sum_list_cons, sum_list_nil. lra.
  - intros s Hs. apply zrange_In in Hs.
    assert (Hc : (s = 0 \/ s = 1 \/ s = 2 \/ s = 3 \/ s = 4 \/ s = 5 \/ s = 6
                  \/ s = 7)%Z) by lia.
    rewrite flux_value_flat; [lra|..]; try apply Hb0; apply Hh0;
      unfold in_patch, valid_info in *;
      destruct Hc as [->|[->|[->|[->|[->|[->|[->| ->]]]]]]];
      unfold ke, je; eval_idx; lia.
Qed.

Lemma Rltb_false (x y : R) : Rltb x y = false <-> y <= x.
Proof.
  unfold Rltb. destruct (Rlt_dec x y); split; intros; try discriminate;
    try reflexivity; lra.
Qed.

(** X21: the radius from the centre is nonnegative and zero at the centre;
    DomeCMB depends on the position through this radius only, and it is
    constant near the centre (radius below 0.01) and beyond the margin
    (radius above domeR - 0.01), where the radius is clamped away from the
    singularities. *)
Theorem DomeCMB_is_radial_and_clamped (x y x' y' : R) (user : AppCtx) :
  0 <= radialcoord x y user
  /\ radialcoord (L user / 2.0) (L user / 2.0) user = 0
  /\ (radialcoord x y user = radialcoord x' y' user ->
      DomeCMB x y user = DomeCMB x' y' user)
  /\ (radialcoord x y user < 0.01 -> radialcoord x' y' user < 0.01 ->
      DomeCMB x y user = DomeCMB x' y' user)
  /\ (750.0e3 - 0.01 < radialcoord x y user ->
      750.0e3 - 0.01 < radialcoord x' y' user ->
      DomeCMB x y user = DomeCMB x' y' user).
Proof.
  split; [apply sqrt_pos|]. split; [|split; [|split]].
  - unfold radialcoord.
    replace ((L user / 2.0 - L user / 2.0) * (L user / 2.0 - L user / 2.0)
             + (L user / 2.0 - L user / 2.0) * (L user / 2.0 - L user / 2.0))
      with 0 by lra.
    apply sqrt_0.
  - intros E. unfold DomeCMB. rewrite E. reflexivity.
  - intros H1 H2. unfold DomeCMB. cbv zeta.
    set (r := radialcoord x y user) in *. set (r' := radialcoord x' y' user) in *.
    replace (Rltb r 0.01) with true by (symmetry; apply Rltb_true; lra).
    replace (Rltb r' 0.01) with true by (symmetry; apply Rltb_true; lra).
    reflexivity.
  - intros H1 H2. unfold DomeCMB. cbv zeta.
    set (r := radialcoord x y user) in *. set (r' := radialcoord x' y' user) in *.
    replace (Rltb r 0.01) with false by (symmetry; apply Rltb_false; lra).
    replace (Rltb r' 0.01) with false by (symmetry; apply Rltb_false; lra).
    replace (Rltb (750.0e3 - 0.01) r) with true by (symmetry; apply Rltb_true; lra).
    replace (Rltb (750.0e3 - 0.01) r') with true by (symmetry; apply Rltb_true; lra).
    reflexivity.
Qed.

Lemma DomeThicknessLocal_spec (info : DMDALocalInfo) (aH0 : array2) (user : AppCtx)
      (k j : Z) :
  (owned info j k = false -> DomeThicknessLocal info aH0 user k j = aH0 k j)
  /\ (owned info j k = true ->
      750.0e3 - 0.01 < radialcoord (IZR j * (L user / IZR (mx info - 1)))
                                   (IZR k * (L user / IZR (my info - 1))) user ->
      DomeThicknessLocal info aH0 user k j = 0).
Proof.
  unfold DomeThicknessLocal, for_range. cbv zeta. rewrite for_each_nested.
  match goal with |- context [for_each ?l ?b aH0] => set (l0 := l); set (body := b) end.
  set (val := fun kj : Z * Z =>
     if Rltb (750.0e3 - 0.01)
             (radialcoord (IZR (snd kj) * (L user / IZR (mx info - 1)))
                          (IZR (fst kj) * (L user / IZR (my info - 1))) user)
     then 0.0
     else 3600.0 / PetscPowReal (1.0 - 1.0 / n_ice user)
                                (n_ice user / (2.0 * n_ice user + 2.0))
          * PetscPowReal
              ((1.0 + 1.0 / n_ice user)
               * ((if Rltb (radialcoord (IZR (snd kj) * (L user / IZR (mx info - 1)))
                                        (IZR (fst kj) * (L user / IZR (my info - 1)))
                                        user) 0.01
                   then 0.01
                   else radialcoord (IZR (snd kj) * (L user / IZR (mx info - 1)))
                                    (IZR (fst kj) * (L user / IZR (my info - 1)))
                                    user) / 750.0e3)
               - 1.0 / n_ice user
               + PetscPowReal
                   (1.0 - (if Rltb (radialcoord (IZR (snd kj) * (L user / IZR (mx info - 1)))
                                                (IZR (fst kj) * (L user / IZR (my info - 1)))
                                                user) 0.01
                           then 0.01
                           else radialcoord (IZR (snd kj) * (L user / IZR (mx info - 1)))
                                            (IZR (fst kj) * (L user / IZR (my info - 1)))
                                            user) / 750.0e3)
                   (1.0 + 1.0 / n_ice user)
               - PetscPowReal
                   ((if Rltb (radialcoord (IZR (snd kj) * (L user / IZR (mx info - 1)))
                                          (IZR (fst kj) * (L user / IZR (my info - 1)))
                                          user) 0.01
                     then 0.01
                     else radialcoord (IZR (snd kj) * (L user / IZR (mx info - 1)))
                                      (IZR (fst kj) * (L user / IZR (my info - 1)))
                                      user) / 750.0e3)
                   (1.0 + 1.0 / n_ice user))
              (n_ice user / (2.0 * n_ice user + 2.0))).
  destruct (write_loop (fun a : array2 => a) (fun _ => True) body (fun _ => true)
              val l0 aH0) as [_ Hw].
  - exact I.
  - intros [k0 j0] a' _ _. split; [exact I|]. intros k1 j1. subst body val.
    cbn [fst snd andb]. rewrite (Z.eqb_sym k0 k1), (Z.eqb_sym j0 j1).
    destruct (Rltb (750.0e3 - 0.01) _); unfold upd; reflexivity.
  - destruct (Hw k j) as [H1 H2]. split.
    + intros Ho. apply H2. intros [Hin _]. subst l0. apply pairs_In in Hin.
      rewrite !zrange_In in Hin.
      assert (owned info j k = true) by (apply owned_spec; lia). congruence.
    + intros Ho Hr. rewrite H1; [| |reflexivity].
      * subst val. cbn [fst snd].
        replace (Rltb (750.0e3 - 0.01) _) with true
          by (symmetry; apply Rltb_true; exact Hr).
        lra.
      * apply owned_spec in Ho. subst l0. apply pairs_In. rewrite !zrange_In. lia.
Qed.

Lemma radius_beyond_margin (a b : R) :
  750.0e3 <= Rabs a -> 750.0e3 - 0.01 < sqrt (a * a + b * b).
Proof.
  intros Ha. set (c := 750.0e3 - 0.01).
  assert (Hc : 0 <= c) by (unfold c; lra).
  rewrite <- (sqrt_square c Hc). apply sqrt_lt_1_alt.
  pose proof (Rle_0_sqr b) as Hb. unfold Rsqr in Hb.
  assert (Haa : 750.0e3 * 750.0e3 <= a * a).
  { unfold Rabs in Ha. destruct (Rcase_abs a); nra. }
  unfold c in *. nra.
Qed.

Lemma boundary_radius_beyond_margin (info : DMDALocalInfo) (user : AppCtx) (k j : Z) :
  (2 <= mx info)%Z -> (2 <= my info)%Z -> 1500.0e3 <= L user ->
  on_boundary info j k = true ->
  750.0e3 - 0.01 < radialcoord (IZR j * (L user / IZR (mx info - 1)))
                               (IZR k * (L user / IZR (my info - 1))) user.
Proof.
  intros Hx Hy HL Hb. unfold radialcoord.
  assert (Nx : IZR (mx info - 1) <> 0) by (apply not_0_IZR; lia).
  assert (Ny : IZR (my info - 1) <> 0) by (apply not_0_IZR; lia).
  assert (Ex : IZR (mx info - 1) * (L user / IZR (mx info - 1)) = L user)
    by (field; assumption).
  assert (Ey : IZR (my info - 1) * (L user / IZR (my info - 1)) = L user)
    by (field; assumption).
  unfold on_boundary in Hb. rewrite !orb_true_iff, !Z.eqb_eq in Hb.
  destruct Hb as [[[-> | ->] | ->] | ->].
  - apply radius_beyond_margin. unfold Rabs. destruct (Rcase_abs _); lra.
  - apply radius_beyond_margin. rewrite Ex. unfold Rabs. destruct (Rcase_abs _); lra.
  - rewrite Rplus_comm. apply radius_beyond_margin. unfold Rabs.
    destruct (Rcase_abs _); lra.
  - rewrite Rplus_comm. apply radius_beyond_margin. rewrite Ey. unfold Rabs.
    destruct (Rcase_abs _); lra.
Qed.

(** X22: DomeThicknessLocal writes the owned nodes only and puts 0 wherever
    the radius exceeds domeR - 0.01; when the square is at least 1500 km
    wide this covers every node of the global boundary, so the exact dome
    satisfies the zero boundary condition and the residual of the dome is 0
    at every owned boundary node. *)
Theorem dome_thickness_zero_on_boundary (info : DMDALocalInfo) (aH0 : array2)
        (user : AppCtx) (m m' : Mem) (k j : Z) :
  valid_info info -> (2 <= mx info)%Z -> (2 <= my info)%Z ->
  1500.0e3 <= L user ->
  owned info j k = true -> on_boundary info j k = true ->
  aHin m = DomeThicknessLocal info aH0 user ->
  FormFunctionLocal info user m = Done m' ->
  DomeThicknessLocal info aH0 user k j = 0
  /\ (forall k' j', owned info j' k' = false ->
                    DomeThicknessLocal info aH0 user k' j' = aH0 k' j')
  /\ FF m' k j = 0.
Proof.
  intros Hv Hx Hy HL Ho Hb Ha E.
  assert (Hz : DomeThicknessLocal info aH0 user k j = 0).
  { apply (proj2 (DomeThicknessLocal_spec info aH0 user k j) Ho).
    apply boundary_radius_beyond_margin; assumption. }
  split; [exact Hz|]. split.
  - intros k' j' Ho'. apply (proj1 (DomeThicknessLocal_spec info aH0 user k' j') Ho').
  - destruct (IceProofs.FormFunctionLocal_done info user m m' E) as (_ & _ & Hbd & _).
    rewrite (Hbd k j); [rewrite Ha; exact Hz| |assumption|assumption].
    apply owned_spec in Ho. unfold valid_info in Hv. unfold in_patch. lia.
Qed.

Lemma sin_int_multiple (a : Z) (z x : R) : z * x = PI -> sin (IZR a * z * x) = 0.
Proof.
  intros E. apply sin_eq_0_1. exists a. rewrite Rmult_assoc, E. reflexivity.
Qed.

Lemma bed_sum_zero (c : Z -> Z -> R) (sx sy : Z -> R) :
  (forall r, sx r = 0) \/ (forall s, sy s = 0) ->
  for_range 0 nc (fun r b =>
    for_range 0 nc (fun s b => b + c r s * sx r * sy s) b) 0.0 = 0.
Proof.
  intros H. unfold for_range, nc. change (zrange 0 4) with [0; 1; 2; 3]%Z.
  cbn [for_each fold_left].
  destruct H as [H|H]; rewrite !H; lra.
Qed.

(** X23: the synthetic bed is zero on the four sides of the square: the
    value that FormBedLocal computes vanishes at the nodes with j = 0 or
    k = 0, and the same formula vanishes at j = mx-1 and k = my-1 (where
    x = L or y = L), on a grid with at least two nodes each way and L
    nonzero. *)
Theorem bed_vanishes_on_boundary (info : DMDALocalInfo) (user : AppCtx) (k j : Z) :
  (2 <= mx info)%Z -> (2 <= my info)%Z -> L user <> 0 ->
  on_boundary info j k = true ->
  bed info user k j = 0.
Proof.
  intros Hx Hy HL Hb. unfold bed. cbv zeta.
  assert (Nx : IZR (mx info - 1) <> 0) by (apply not_0_IZR; lia).
  assert (Ny : IZR (my info - 1) <> 0) by (apply not_0_IZR; lia).
  rewrite (bed_sum_zero
             (fun r s => idx 0 (idx [] C r) s)
             (fun r => sin (IZR (idx 0%Z jc r) * (PI / L user)
                            * (IZR j * (L user / IZR (mx info - 1)))))
             (fun s => sin (IZR (idx 0%Z kc s) * (PI / L user)
                            * (IZR k * (L user / IZR (my info - 1)))))).
  - lra.
  - unfold on_boundary in Hb. rewrite !orb_true_iff, !Z.eqb_eq in Hb.
    destruct Hb as [[[-> | ->] | ->] | ->].
    + left. intros r. replace (IZR 0 * (L user / IZR (mx info - 1))) with 0 by lra.
      rewrite Rmult_0_r. apply sin_0.
    + left. intros r. apply sin_int_multiple. field. split; assumption.
    + right. intros s. replace (IZR 0 * (L user / IZR (my info - 1))) with 0 by lra.
      rewrite Rmult_0_r. apply sin_0.
    + right. intros s. apply sin_int_multiple. field. split; assumption.
Qed.


Lemma copy_loop_keeps_unowned (info : DMDALocalInfo) (user : AppCtx) (m : Mem) :
  match copy_loop info user m with
  | Done m' | Raised _ _ m' =>
      forall k j, owned info j k = false -> FF m' k j = FF m k j
  end.
Proof.
  unfold copy_loop, for_range_E. rewrite for_each_E_nested.
  pose proof (for_each_E_ind
                (fun kj m0 => copy_node info user (fst kj) (snd kj) m0)
                (fun _ m' => forall k j, owned info j k = false -> FF m' k j = FF m k j)
                (fun _ _ m' => forall k j, owned info j k = false -> FF m' k j = FF m k j)
                (pairs (zrange (ys info - 1) (ys info + ym info + 1))
                       (zrange (xs info - 1) (xs info + xm info + 1))) m) as H.
  match type of H with ?A -> ?B -> ?C => assert (HA : A); [|assert (HB : B)] end.
  - intros; reflexivity.
  - intros done [k0 j0] rest m' _ Hm'. cbn [fst snd].
    destruct (IceProofs.copy_node_cases info user k0 j0 m')
      as [[_ E]|[(_ & _ & _ & msg & E)|(_ & _ & m'' & E & _ & _ & _ & Hf & _)]];
      rewrite E; try exact Hm'.
    intros k j Ho. rewrite Hf.
    destruct ((k =? k0)%Z && (j =? j0)%Z) eqn:Eq; cbn [andb]; [|auto].
    apply andb_prop in Eq as [E1 E2]. apply Z.eqb_eq in E1, E2. subst.
    rewrite Ho, andb_false_r. auto.
  - specialize (H HA HB).
    destruct (for_each_E _ _ m); exact H.
Qed.

(** X25: the ice residual writes FF at owned nodes only: whether it returns
    or raises, every entry of FF at a node the patch does not own is what it
    was before the call. *)
Theorem ice_residual_writes_owned_nodes_only (info : DMDALocalInfo)
        (user : AppCtx) (m : Mem) (k j : Z) :
  owned info j k = false ->
  match FormFunctionLocal info user m with
  | Done m' | Raised _ _ m' => FF m' k j = FF m k j
  end.
Proof.
  intros Ho. unfold FormFunctionLocal.
  pose proof (copy_loop_keeps_unowned info user m) as Hc.
  destruct (copy_loop info user m) as [m1|c msg m1]; [|exact (Hc k j Ho)].
  set (m2 := bed_setup info user m1).
  destruct (IceProofs.node_loop_spec info user (flux_loop info user m2)) as [_ Hf].
  cbv zeta in Hf. rewrite Hf, Ho. cbn [andb].
  destruct (IceProofs.flux_loop_frame info user m2) as (_ & Hf3 & _).
  destruct (IceProofs.bed_setup_frame info user m1) as (_ & Hf2 & _).
  subst m2. rewrite Hf3, Hf2. exact (Hc k j Ho).
Qed.

(** X26: for an upwinding parameter lambda in [0,1] the point at which the
    transported thickness is taken lies in the element, so that thickness
    lies between any bounds of the four nodal values (it is nonnegative when
    they are); with lambda = 0 it is the flux point itself, and with
    lambda = 1 it is moved in the direction of the flux component to an edge
    of the element. *)
Theorem upwind_point_stays_in_element (user : AppCtx) (gb : Grad) (c u v : Z)
        (h : array2) (lo hi : R) :
  (0 <= c < 4)%Z -> 0 <= lambda user <= 1 ->
  lo <= h v u <= hi -> lo <= h v (u + 1)%Z <= hi ->
  lo <= h (v + 1)%Z (u + 1)%Z <= hi -> lo <= h (v + 1)%Z u <= hi ->
  0 <= fst (upwind_point user gb c) <= 1
  /\ 0 <= snd (upwind_point user gb c) <= 1
  /\ lo <= fieldatptArray u v (fst (upwind_point user gb c))
                          (snd (upwind_point user gb c)) h <= hi
  /\ (lambda user = 0 -> upwind_point user gb c = (idx 0 locx c, idx 0 locy c))
  /\ (lambda user = 1 ->
      if idx false xdire c
      then fst (upwind_point user gb c) = 0 \/ fst (upwind_point user gb c) = 1
      else snd (upwind_point user gb c) = 0 \/ snd (upwind_point user gb c) = 1).
Proof.
  intros Hc Hl H0 H1 H2 H3.
  assert (Hin : 0 <= fst (upwind_point user gb c) <= 1
                /\ 0 <= snd (upwind_point user gb c) <= 1).
  { unfold upwind_point. cbv zeta.
    destruct (PlapProofs.four_cases c Hc) as [->|[->|[->| ->]]];
      unfold xdire, locx, locy; eval_idx;
      destruct (Rltb 0.0 (lambda user)); cbn [fst snd];
      try destruct (Rleb _ 0.0); lra. }
  destruct Hin as [Hx Hy]. split; [exact Hx|]. split; [exact Hy|]. split; [|split].
  - unfold fieldatptArray. apply fieldatpt_bounds_aux; assumption.
  - intros E. unfold upwind_point. cbv zeta.
    replace (Rltb 0.0 (lambda user)) with false
      by (symmetry; apply Rltb_false; lra).
    reflexivity.
  - intros E. unfold upwind_point. cbv zeta.
    replace (Rltb 0.0 (lambda user)) with true
      by (symmetry; apply Rltb_true; lra).
    rewrite E. destruct (idx false xdire c); cbn [fst snd];
      destruct (Rleb _ 0.0); lra.
Qed.

End WithEnv.

#[local] Existing Instance sample_env.

Lemma fieldatpt_between_nodal_bounds_witness :
  0 <= fieldatpt 0.5 0.25 [0; 1; 2; 3] <= 3.
Proof.
  apply (fieldatpt_between_nodal_bounds 0.5 0.25 0 1 2 3 0 3); lra.
Defined.

Lemma flux_loop_fills_cache_witness :
  aqquad (flux_loop grid3 (sample_user false) (sample_mem (fun _ _ => 1))) 0%Z 1%Z 1%Z
  = flux_value grid3 (sample_user false) (aH (sample_mem (fun _ _ => 1)))
               (ab (sample_mem (fun _ _ => 1))) 1 1 0.
Proof.
  apply (proj1 (flux_loop_fills_cache grid3 (sample_user false)
                  (sample_mem (fun _ _ => 1)) 0 1 1 ltac:(lia))).
Defined.

Lemma ice_residual_uses_fresh_fluxes_witness :
  exists m',
    FormFunctionLocal grid3 (sample_user false) (sample_mem (fun _ _ => 1)) = Done m'
    /\ FF m' 1%Z 1%Z
       = - mass_balance grid3 (sample_user false) 1 1 m'
           * (L (sample_user false) / IZR (mx grid3 - 1))
           * (L (sample_user false) / IZR (my grid3 - 1))
         + sum_list (fun s => idx 0 (coeff grid3 (sample_user false)) s
                              * flux_value grid3 (sample_user false) (aH m') (ab m')
                                           (1 + idx 0%Z ke s) (1 + idx 0%Z je s)
                                           (idx 0%Z ce s))
                    (zrange 0 8).
Proof.
  destruct (IceProofs.FormFunctionLocal_returns grid3 (sample_user false)
              (sample_mem (fun _ _ => 1)) (or_introl eq_refl)) as [m' E].
  exists m'. split; [exact E|].
  apply (ice_residual_uses_fresh_fluxes grid3 (sample_user false)
           (sample_mem (fun _ _ => 1)) m' 1 1);
    [unfold valid_info; cbn; lia | exact E | reflexivity | reflexivity].
Defined.

Lemma zero_iterate_residual_is_minus_source_witness :
  exists m',
    FormFunctionLocal grid3 sample_verif_user (sample_mem (fun _ _ => 0)) = Done m'
    /\ FF m' 1%Z 1%Z
       = - DomeCMB (IZR 1 * (L sample_verif_user / IZR (mx grid3 - 1)))
                   (IZR 1 * (L sample_verif_user / IZR (my grid3 - 1)))
                   sample_verif_user
           * (L sample_verif_user / IZR (mx grid3 - 1))
           * (L sample_verif_user / IZR (my grid3 - 1)).
Proof.
  destruct (IceProofs.FormFunctionLocal_returns grid3 sample_verif_user
              (sample_mem (fun _ _ => 0)) (or_introl eq_refl)) as [m' E].
  exists m'. split; [exact E|].
  apply (zero_iterate_residual_is_minus_source grid3 sample_verif_user
           (sample_mem (fun _ _ => 0)) m' 1 1);
    [unfold valid_info; cbn; lia | reflexivity | reflexivity | exact E
     | reflexivity | reflexivity].
Defined.

Lemma dome_thickness_zero_on_boundary_witness :
  exists m',
    FormFunctionLocal grid3 (sample_user false)
      (sample_mem (DomeThicknessLocal grid3 (fun _ _ => 5) (sample_user false)))
    = Done m'
    /\ DomeThicknessLocal grid3 (fun _ _ => 5) (sample_user false) 0%Z 1%Z = 0
    /\ FF m' 0%Z 1%Z = 0.
Proof.
  destruct (IceProofs.FormFunctionLocal_returns grid3 (sample_user false)
              (sample_mem (DomeThicknessLocal grid3 (fun _ _ => 5) (sample_user false)))
              (or_introl eq_refl)) as [m' E].
  exists m'. split; [exact E|].
  destruct (dome_thickness_zero_on_boundary grid3 (fun _ _ => 5) (sample_user false)
              (sample_mem (DomeThicknessLocal grid3 (fun _ _ => 5) (sample_user false)))
              m' 0 1) as (A & _ & B);
    [unfold valid_info; cbn; lia | cbn; lia | cbn; lia | cbn; lra | reflexivity
     | reflexivity | reflexivity | exact E | ].
  split; [exact A | exact B].
Defined.

Lemma bed_vanishes_on_boundary_witness : bed grid3 (sample_user false) 0 1 = 0.
Proof.
  apply (bed_vanishes_on_boundary grid3 (sample_user false) 0 1);
    [cbn; lia | cbn; lia | cbn; lra | reflexivity].
Defined.

Lemma ice_residual_writes_owned_nodes_only_witness :
  exists m',
    FormFunctionLocal grid3 (sample_user false) (sample_mem (fun _ _ => 1)) = Done m'
    /\ FF m' 5%Z 5%Z = FF (sample_mem (fun _ _ => 1)) 5%Z 5%Z.
Proof.
  destruct (IceProofs.FormFunctionLocal_returns grid3 (sample_user false)
              (sample_mem (fun _ _ => 1)) (or_introl eq_refl)) as [m' E].
  exists m'. split; [exact E|].
  pose proof (ice_residual_writes_owned_nodes_only grid3 (sample_user false)
                (sample_mem (fun _ _ => 1)) 5 5 eq_refl) as H.
  rewrite E in H. exact H.
Defined.

Lemma upwind_point_stays_in_element_witness :
  0 <= fst (upwind_point (sample_user false) (mkGrad 1 1) 0) <= 1
  /\ 0 <= snd (upwind_point (sample_user false) (mkGrad 1 1) 0) <= 1.
Proof.
  destruct (upwind_point_stays_in_element (sample_user false) (mkGrad 1 1) 0 1 1
              (fun _ _ => 1) 1 1) as (A & B & _);
    [lia | cbn; lra | lra | lra | lra | lra | ].
  split; [exact A | exact B].
Defined.

End IceExtra.
